(** * Workflow core of the PlanetAi backend: validator, executor, registry

    A shallow embedding of
      - [app/workflow/validator.py]   (class WorkflowValidator),
      - [app/workflow/executor.py]    (class WorkflowExecutor),
      - [app/components/__init__.py]  (COMPONENT_REGISTRY, create_component),
      - [app/components/llm_engine.py] (LLMEngineComponent._build_prompt),
      - [app/components/knowledgebase.py] (KnowledgeBaseComponent._chunk_text),
      - [app/components/user_query.py], [app/components/output.py] (execute),
      - [app/api/workflows.py]        (the validation step of create_workflow),
    followed by the properties proved about them.

    Conventions.  Python strings are [string]s (sequences of ASCII
    characters).  A Python [dict] is an insertion-ordered association list
    with unique keys ([dict V]); a Python [set] of strings is a [gset string].
    A computation that can raise is a value of [res A]; [Timeout] marks the
    exhaustion of the budget of a fuelled loop (or an external call that does
    not return).  For the validator and the execution order it is shown
    unreachable for the budgets used; the chunking loop takes its budget as
    an argument. *)

From stdpp Require Import gmap strings list.
From Stdlib Require Import ZArith Relations Ascii.

#[local] Set Warnings "-clear-no-such-hyp".

Local Open Scope string_scope.
Local Open Scope Z_scope.
Local Open Scope nat_scope.
Local Open Scope list_scope.

(** ** Exceptions and results *)

Inductive exn : Type :=
  | KeyError (key : string)
  | ValueError (msg : string)
  | AttributeError (msg : string)
  | StageError (msg : string).

(** [str(e)] for the exceptions above; a [KeyError] prints the [repr] of its key. *)
Definition str_exn (e : exn) : string :=
  match e with
  | KeyError k => "'" +:+ k +:+ "'"
  | ValueError m => m
  | AttributeError m => m
  | StageError m => m
  end.

Inductive res (A : Type) : Type :=
  | Ret (a : A)
  | Raise (e : exn)
  | Timeout.
Arguments Ret {A} a.
Arguments Raise {A} e.
Arguments Timeout {A}.

Definition res_bind {A B : Type} (m : res A) (k : A → res B) : res B :=
  match m with
  | Ret a => k a
  | Raise e => Raise e
  | Timeout => Timeout
  end.

Notation "'do' x <- m ; k" := (res_bind m (λ x, k))
  (at level 10, x name, m at level 100, k at level 200).
Notation "'do' ' x <- m ; k" := (res_bind m (λ x, k))
  (at level 10, x pattern, m at level 100, k at level 200).

(** ** Python values *)

#[local] Unset Elimination Schemes.
Inductive PyValue : Type :=
  | PNone
  | PBool (b : bool)
  | PInt (z : Z)
  | PStr (s : string)
  | PList (l : list PyValue)
  | PDict (d : list (string * PyValue)).
#[local] Set Elimination Schemes.

(** Truth value of an object ([if data], [not x]). *)
Definition truthy (v : PyValue) : bool :=
  match v with
  | PNone => false
  | PBool b => b
  | PInt z => negb (z =? 0)%Z
  | PStr s => negb (bool_decide (s = ""))
  | PList l => match l with [] => false | _ => true end
  | PDict d => match d with [] => false | _ => true end
  end.

Definition type_name (v : PyValue) : string :=
  match v with
  | PNone => "NoneType"
  | PBool _ => "bool"
  | PInt _ => "int"
  | PStr _ => "str"
  | PList _ => "list"
  | PDict _ => "dict"
  end.

Definition no_attribute (v : PyValue) (attr : string) : exn :=
  AttributeError ("'" +:+ type_name v +:+ "' object has no attribute '" +:+ attr +:+ "'").

(** ** Insertion-ordered dictionaries with string keys *)

Definition dict (V : Type) : Type := list (string * V).

Fixpoint dict_get {V : Type} (k : string) (d : dict V) : option V :=
  match d with
  | [] => None
  | (k', v) :: d' => if decide (k = k') then Some v else dict_get k d'
  end.

(** [d[k] = v]: an existing key keeps its position, a new key goes last. *)
Fixpoint dict_set {V : Type} (k : string) (v : V) (d : dict V) : dict V :=
  match d with
  | [] => [(k, v)]
  | (k', v') :: d' =>
      if decide (k = k') then (k, v) :: d' else (k', v') :: dict_set k v d'
  end.

Definition dict_keys {V : Type} (d : dict V) : list string := d.*1.

(** [d[k]] as an expression: raises [KeyError] on a missing key. *)
Definition dict_index {V : Type} (k : string) (d : dict V) : res V :=
  match dict_get k d with
  | Some v => Ret v
  | None => Raise (KeyError k)
  end.

(** ** [str.lower] on ASCII strings *)

Definition lower_ascii (c : ascii) : ascii :=
  let n := nat_of_ascii c in
  if (65 <=? n) && (n <=? 90) then ascii_of_nat (n + 32) else c.

Fixpoint lower (s : string) : string :=
  match s with
  | EmptyString => EmptyString
  | String c s' => String (lower_ascii c) (lower s')
  end.

(** ** The graph: nodes and edges as the validator reads them *)

(** A node [{"id": ..., "data": {...}}]; a node without ["data"] has the empty
    mapping, as [node.get("data", {})] gives. *)
Record Node : Type := { node_id : string; node_data : dict PyValue }.

(** An edge [{"source": ..., "target": ...}]. *)
Record Edge : Type := { source : string; target : string }.

(** [node_data.get("type", "").lower()] *)
Definition get_type (d : dict PyValue) : res string :=
  match dict_get "type" d with
  | None => Ret (lower "")
  | Some (PStr s) => Ret (lower s)
  | Some v => Raise (no_attribute v "lower")
  end.

(** ** WorkflowValidator *)

(** The literal set [valid_types] of [_validate_node_types]. *)
Definition valid_types : gset string :=
  {[ "userquery"; "user_query"; "input";
     "knowledgebase"; "knowledge_base";
     "llmengine"; "llm_engine"; "llm";
     "output" ]}.

Fixpoint _validate_node_types (nodes : list Node) : res (bool * string) :=
  match nodes with
  | [] => Ret (true, "")
  | node :: rest =>
      do node_type <- get_type (node_data node);
      if bool_decide (node_type = "")
      then Ret (false, "Node " +:+ node_id node +:+ " is missing a type")
      else if bool_decide (node_type ∉ valid_types)
      then Ret (false, "Unknown component type: " +:+ node_type)
      else _validate_node_types rest
  end.

Fixpoint connections_loop (node_ids : gset string) (edges : list Edge)
  : bool * string :=
  match edges with
  | [] => (true, "")
  | edge :: rest =>
      if bool_decide (source edge ∉ node_ids)
      then (false, "Edge references non-existent source node: " +:+ source edge)
      else if bool_decide (target edge ∉ node_ids)
      then (false, "Edge references non-existent target node: " +:+ target edge)
      else connections_loop node_ids rest
  end.

Definition _validate_connections (nodes : list Node) (edges : list Edge)
  : bool * string :=
  let node_ids : gset string := list_to_set (node_id <$> nodes) in
  connections_loop node_ids edges.

(** [{node["id"]: v for node in nodes}] *)
Definition dict_from_nodes {V : Type} (v : V) (nodes : list Node) : dict V :=
  fold_left (λ d node, dict_set (node_id node) v d) nodes [].

(** [for edge in edges: graph[edge["source"]].append(edge["target"])] *)
Fixpoint add_edges (edges : list Edge) (graph : dict (list string))
  : res (dict (list string)) :=
  match edges with
  | [] => Ret graph
  | edge :: rest =>
      do targets <- dict_index (source edge) graph;
      add_edges rest (dict_set (source edge) (targets ++ [target edge]) graph)
  end.

(** The two sets of the depth-first search: [visited] and [rec_stack]. *)
Record dfs_state : Type := { visited : gset string; rec_stack : gset string }.

(** The [for neighbor in ...] loop of [has_cycle]; [rec] is the recursive
    call.  It returns as soon as a call or the on-stack test says [True]. *)
Fixpoint scan_neighbors (rec : string → dfs_state → res (bool * dfs_state))
    (neighbors : list string) (st : dfs_state) : res (bool * dfs_state) :=
  match neighbors with
  | [] => Ret (false, st)
  | neighbor :: rest =>
      if bool_decide (neighbor ∉ visited st) then
        do '(found, st') <- rec neighbor st;
        if found then Ret (true, st') else scan_neighbors rec rest st'
      else if bool_decide (neighbor ∈ rec_stack st) then Ret (true, st)
      else scan_neighbors rec rest st
  end.

(** The nested function [has_cycle]; [fuel] bounds the recursion depth.
    [rec_stack.remove] raises [KeyError] on an absent element.  The
    interpreter's own recursion limit is a resource bound and is not part of
    the model. *)
Fixpoint has_cycle (fuel : nat) (graph : dict (list string))
    (node_id : string) (st : dfs_state) : res (bool * dfs_state) :=
  match fuel with
  | O => Timeout
  | S fuel' =>
      let st1 := {| visited := {[node_id]} ∪ visited st;
                    rec_stack := {[node_id]} ∪ rec_stack st |} in
      do '(found, st2) <- scan_neighbors (has_cycle fuel' graph)
                         (default [] (dict_get node_id graph)) st1;
      if found then Ret (true, st2)
      else if bool_decide (node_id ∈ rec_stack st2)
      then Ret (false, {| visited := visited st2;
                          rec_stack := rec_stack st2 ∖ {[node_id]} |})
      else Raise (KeyError node_id)
  end.

(** [for node_id in graph: if node_id not in visited: if has_cycle(node_id): ...] *)
Fixpoint roots_loop (fuel : nat) (graph : dict (list string))
    (roots : list string) (st : dfs_state) : res (bool * string) :=
  match roots with
  | [] => Ret (true, "")
  | node_id :: rest =>
      if bool_decide (node_id ∉ visited st) then
        do '(found, st') <- has_cycle fuel graph node_id st;
        if found then Ret (false, "Workflow contains a cycle")
        else roots_loop fuel graph rest st'
      else roots_loop fuel graph rest st
  end.

Definition _check_for_cycles (nodes : list Node) (edges : list Edge)
  : res (bool * string) :=
  do graph <- add_edges edges (dict_from_nodes [] nodes);
  roots_loop (S (length nodes + length edges)) graph (dict_keys graph)
    {| visited := ∅; rec_stack := ∅ |}.

Definition llm_types : list string := ["llmengine"; "llm_engine"; "llm"].
Definition knowledge_base_types : list string := ["knowledgebase"; "knowledge_base"].
Definition input_types : list string := ["userquery"; "user_query"; "input"].

(** [node_data.get("model")]: a missing key gives [None]. *)
Definition dict_get_or_none (k : string) (d : dict PyValue) : PyValue :=
  default PNone (dict_get k d).

(** The knowledge-base branch only logs a warning. *)
Fixpoint _validate_component_configs (nodes : list Node) : res (bool * string) :=
  match nodes with
  | [] => Ret (true, "")
  | node :: rest =>
      do node_type <- get_type (node_data node);
      if bool_decide (node_type ∈ llm_types)
         && negb (truthy (dict_get_or_none "model" (node_data node)))
      then Ret (false, "LLM Engine node " +:+ node_id node
                         +:+ " must have a model specified")
      else _validate_component_configs rest
  end.

(** [any(p(node type) for node in nodes)], stopping at the first hit. *)
Fixpoint any_type (p : string → bool) (nodes : list Node) : res bool :=
  match nodes with
  | [] => Ret false
  | node :: rest =>
      do node_type <- get_type (node_data node);
      if p node_type then Ret true else any_type p rest
  end.

Definition _validate_workflow_flow (nodes : list Node) : res (bool * string) :=
  do has_input <- any_type (λ t, bool_decide (t ∈ input_types)) nodes;
  do has_output <- any_type (λ t, bool_decide (t = "output")) nodes;
  if negb has_input
  then Ret (false, "Workflow must have an Input/User Query component")
  else if negb has_output
  then Ret (false, "Workflow must have an Output component")
  else Ret (true, "").

Definition is_empty {A : Type} (l : list A) : bool :=
  match l with [] => true | _ => false end.

Definition validate (nodes : list Node) (edges : list Edge) : res (bool * string) :=
  if is_empty nodes
  then Ret (false, "Workflow must have at least one component")
  else if (1 <? length nodes) && is_empty edges
  then Ret (false, "Workflow components must be connected")
  else
    do '(valid, msg) <- _validate_node_types nodes;
    if negb valid then Ret (false, msg) else
    let '(valid, msg) := _validate_connections nodes edges in
    if negb valid then Ret (false, msg) else
    do '(valid, msg) <- _check_for_cycles nodes edges;
    if negb valid then Ret (false, msg) else
    do '(valid, msg) <- _validate_component_configs nodes;
    if negb valid then Ret (false, msg) else
    do '(valid, msg) <- _validate_workflow_flow nodes;
    if negb valid then Ret (false, msg) else
    Ret (true, "Workflow is valid").

(** *** [get_execution_order]: Kahn's algorithm *)

(** [for edge in edges: graph[source].append(target); in_degree[target] += 1] *)
Fixpoint build_graph (edges : list Edge) (graph : dict (list string))
    (in_degree : dict Z) : res (dict (list string) * dict Z) :=
  match edges with
  | [] => Ret (graph, in_degree)
  | edge :: rest =>
      do targets <- dict_index (source edge) graph;
      let graph' := dict_set (source edge) (targets ++ [target edge]) graph in
      do degree <- dict_index (target edge) in_degree;
      build_graph rest graph' (dict_set (target edge) (degree + 1)%Z in_degree)
  end.

Record kahn_state : Type :=
  { in_degree : dict Z; queue : list string; order : list string }.

(** [for neighbor in graph[node_id]: in_degree[neighbor] -= 1; if
    in_degree[neighbor] == 0: queue.append(neighbor)] *)
Fixpoint relax (neighbors : list string) (in_degree : dict Z)
    (queue : list string) : res (dict Z * list string) :=
  match neighbors with
  | [] => Ret (in_degree, queue)
  | neighbor :: rest =>
      do degree <- dict_index neighbor in_degree;
      let degree' := (degree - 1)%Z in
      relax rest (dict_set neighbor degree' in_degree)
        (if bool_decide (degree' = 0%Z) then queue ++ [neighbor] else queue)
  end.

(** One iteration of the [while queue:] body; the queue is not empty. *)
Definition kahn_step (graph : dict (list string)) (st : kahn_state)
  : res kahn_state :=
  match queue st with
  | [] => Ret st
  | node_id :: queue' =>
      let order' := order st ++ [node_id] in
      do neighbors <- dict_index node_id graph;
      do '(in_degree', queue'') <- relax neighbors (in_degree st) queue';
      Ret {| in_degree := in_degree'; queue := queue''; order := order' |}
  end.

Fixpoint kahn_loop (fuel : nat) (graph : dict (list string)) (st : kahn_state)
  : res (list string) :=
  match fuel with
  | O => Timeout
  | S fuel' =>
      if is_empty (queue st) then Ret (order st)
      else do st' <- kahn_step graph st; kahn_loop fuel' graph st'
  end.

(** The state on entry to the [while] loop. *)
Definition kahn_init (nodes : list Node) (edges : list Edge)
  : res (dict (list string) * kahn_state) :=
  do '(graph, in_degree) <- build_graph edges (dict_from_nodes [] nodes)
                              (dict_from_nodes 0%Z nodes);
  Ret (graph,
       {| in_degree := in_degree;
          queue := (filter (λ kv : string * Z, kv.2 = 0%Z) in_degree).*1;
          order := [] |}).

Definition get_execution_order (nodes : list Node) (edges : list Edge)
  : res (list string) :=
  do '(graph, st) <- kahn_init nodes edges;
  kahn_loop (S (length nodes)) graph st.



(** ** The component registry *)

Inductive component_class : Type :=
  | UserQueryComponent
  | KnowledgeBaseComponent
  | LLMEngineComponent
  | OutputComponent.

Definition COMPONENT_REGISTRY : dict component_class :=
  [ ("userQuery", UserQueryComponent);
    ("user_query", UserQueryComponent);
    ("input", UserQueryComponent);
    ("knowledgeBase", KnowledgeBaseComponent);
    ("knowledge_base", KnowledgeBaseComponent);
    ("llmEngine", LLMEngineComponent);
    ("llm_engine", LLMEngineComponent);
    ("llm", LLMEngineComponent);
    ("output", OutputComponent) ].

(** What [BaseComponent.__init__] stores; the other attributes of an
    instance are read from [config] with [config.get]. *)
Record Component : Type :=
  { component_class_of : component_class;
    component_node_id : string;
    config : dict PyValue }.

(** [component_class(node_id, node_data)].  Every constructor starts with
    [BaseComponent.__init__].  The constructors of the retrieval and the
    generation stage then open their client with
    [OpenAI(api_key=settings.openai_api_key)], a call into the external
    library that returns a client or raises; [OpenAI] is the outcome of that
    call.  The remaining statements are [config.get] calls. *)
Definition construct (OpenAI : res unit) (component_class : component_class)
    (node_id : string) (node_data : dict PyValue) : res Component :=
  let instance :=
    {| component_class_of := component_class;
       component_node_id := node_id;
       config := node_data |} in
  match component_class with
  | KnowledgeBaseComponent | LLMEngineComponent =>
      do openai_client <- OpenAI; Ret instance
  | UserQueryComponent | OutputComponent => Ret instance
  end.

Definition create_component (OpenAI : res unit) (node_id : string)
    (node_data : dict PyValue) : res Component :=
  do component_type <- get_type node_data;
  match dict_get component_type COMPONENT_REGISTRY with
  | None => Raise (ValueError ("Unknown component type: " +:+ component_type))
  | Some component_class => construct OpenAI component_class node_id node_data
  end.

(** ** LLMEngineComponent._build_prompt *)

Definition nl : string := String (ascii_of_nat 10) "".

(** [s.startswith(p)] *)
Fixpoint starts_with (p s : string) : bool :=
  match p, s with
  | EmptyString, _ => true
  | String a p', String b s' => bool_decide (a = b) && starts_with p' s'
  | String _ _, EmptyString => false
  end.

(** [sub in s] *)
Fixpoint contains (sub s : string) : bool :=
  starts_with sub s ||
  match s with
  | EmptyString => false
  | String _ s' => contains sub s'
  end.

(** The scan of [str.replace] for a non-empty [old]: occurrences are taken
    leftmost first and do not overlap; [skip] counts the characters of a
    matched occurrence still to be dropped. *)
Fixpoint replace_from (old new : string) (skip : nat) (s : string) : string :=
  match s with
  | EmptyString => EmptyString
  | String c s' =>
      match skip with
      | S k => replace_from old new k s'
      | O =>
          if starts_with old s
          then new +:+ replace_from old new (String.length old - 1) s'
          else String c (replace_from old new 0 s')
      end
  end.

(** With an empty [old], [new] goes before every character and at the end. *)
Fixpoint intersperse_str (new s : string) : string :=
  match s with
  | EmptyString => new
  | String c s' => new +:+ String c (intersperse_str new s')
  end.

(** [s.replace(old, new)] *)
Definition str_replace (s old new : string) : string :=
  match old with
  | EmptyString => intersperse_str new s
  | String _ _ => replace_from old new 0 s
  end.

(** [sep.join(parts)] *)
Fixpoint str_join (sep : string) (parts : list string) : string :=
  match parts with
  | [] => ""
  | [p] => p
  | p :: rest => p +:+ sep +:+ str_join sep rest
  end.

Definition str_truthy (s : string) : bool := negb (bool_decide (s = "")).

Definition _build_prompt (custom_prompt query context web_context : string)
  : string :=
  if str_truthy custom_prompt then
    let prompt := custom_prompt in
    let prompt := str_replace prompt "{query}" query in
    let prompt := str_replace prompt "{context}" context in
    let prompt := str_replace prompt "{User Query}" query in
    let prompt := str_replace prompt "{CONTEXT}" context in
    prompt
  else
    let prompt_parts := [] in
    let prompt_parts :=
      if str_truthy context
      then prompt_parts ++ ["Context from documents:" +:+ nl +:+ context +:+ nl]
      else prompt_parts in
    let prompt_parts :=
      if str_truthy web_context
      then prompt_parts ++ ["Web search results:" +:+ nl +:+ web_context +:+ nl]
      else prompt_parts in
    let prompt_parts := prompt_parts ++ ["User query: " +:+ query +:+ nl] in
    let prompt_parts :=
      prompt_parts
      ++ ["Please provide a helpful response based on the above information."] in
    str_join nl prompt_parts.

(** ** WorkflowExecutor *)

Record LogEntry : Type :=
  { log_node_id : string;
    status : string;
    timestamp : string;
    data_preview : string }.

(** The dictionary [execute] returns.  The failure dictionaries have no
    ["full_output"] key and the success dictionary has no ["error"] key;
    ["output": None] is [PNone]. *)
Record RunResult : Type :=
  { success : bool;
    error : option string;
    output : PyValue;
    execution_log : list LogEntry;
    full_output : option PyValue }.

(** The attributes of a [WorkflowExecutor] that [execute] reads and writes. *)
Record Executor : Type :=
  { self_nodes : list Node;
    self_edges : list Edge;
    self_components : dict Component;
    self_execution_log : list LogEntry }.

(** [WorkflowExecutor.__init__] *)
Definition WorkflowExecutor (nodes : list Node) (edges : list Edge) : Executor :=
  {| self_nodes := nodes; self_edges := edges;
     self_components := []; self_execution_log := [] |}.

(** [s[:n]] *)
Fixpoint slice_to (n : nat) (s : string) : string :=
  match n, s with
  | S n', String c s' => String c (slice_to n' s')
  | _, _ => EmptyString
  end.

(** [_initialize_components]: the instances made before a failure stay in
    [self.components]; the exception is logged and raised again. *)
Fixpoint _initialize_components (OpenAI : res unit) (nodes : list Node)
    (components : dict Component) : res unit * dict Component :=
  match nodes with
  | [] => (Ret (), components)
  | node :: rest =>
      match create_component OpenAI (node_id node) (node_data node) with
      | Ret component =>
          _initialize_components OpenAI rest
            (dict_set (node_id node) component components)
      | Raise e => (Raise e, components)
      | Timeout => (Timeout, components)
      end
  end.

Section Executor.

(** The world outside the core: the state of the external collaborators,
    of the stage instances and of the clock. *)
Variable World : Type.

(** [await component.execute(current_data)] *)
Variable stage_execute : Component → PyValue → World → res PyValue * World.

(** [str(x)] on payloads. *)
Variable py_str : PyValue → string.

(** [str(logging.time.time())]; the [logging] module has the attribute [time]. *)
Variable clock : World → string * World.

(** The outcome of [OpenAI(api_key=settings.openai_api_key)] in the
    constructors of the retrieval and generation stages. *)
Variable OpenAI : res unit.

Definition _log_execution (node_id status : string) (data : PyValue)
    (log : list LogEntry) (w : World) : list LogEntry * World :=
  let '(now, w') := clock w in
  let log_entry :=
    {| log_node_id := node_id;
       status := status;
       timestamp := now;
       data_preview := if truthy data then slice_to 200 (py_str data) else "" |} in
  (log ++ [log_entry], w').

(** The [for node_id in execution_order] loop. *)
Fixpoint run_stages (execution_order : list string)
    (components : dict Component) (current_data : PyValue)
    (log : list LogEntry) (w : World)
  : res PyValue * list LogEntry * World :=
  match execution_order with
  | [] => (Ret current_data, log, w)
  | node_id :: rest =>
      match dict_get node_id components with
      | None => (Raise (KeyError node_id), log, w)
      | Some component =>
          let '(log1, w1) := _log_execution node_id "started" current_data log w in
          let '(r, w2) := stage_execute component current_data w1 in
          match r with
          | Ret output =>
              let '(log2, w3) := _log_execution node_id "completed" output log1 w2 in
              run_stages rest components output log2 w3
          | Raise e => (Raise e, log1, w2)
          | Timeout => (Timeout, log1, w2)
          end
      end
  end.

(** [current_data.get("response", current_data.get("output", str(current_data)))] *)
Definition final_output (current_data : PyValue) : res PyValue :=
  match current_data with
  | PDict d =>
      Ret (default (default (PStr (py_str current_data)) (dict_get "output" d))
             (dict_get "response" d))
  | v => Raise (no_attribute v "get")
  end.

Definition failure (msg : string) (log : list LogEntry) : RunResult :=
  {| success := false; error := Some msg; output := PNone;
     execution_log := log; full_output := None |}.

(** [execute]: the result (or the exception that leaves the method), the
    executor afterwards and the world afterwards. *)
Definition execute (self : Executor) (query : string) (w : World)
  : res RunResult * Executor * World :=
  match validate (self_nodes self) (self_edges self) with
  | Raise e => (Raise e, self, w)
  | Timeout => (Timeout, self, w)
  | Ret (is_valid, error_msg) =>
      if negb is_valid then (Ret (failure error_msg []), self, w) else
      match get_execution_order (self_nodes self) (self_edges self) with
      | Raise e => (Raise e, self, w)
      | Timeout => (Timeout, self, w)
      | Ret execution_order =>
          let '(r, components) :=
            _initialize_components OpenAI (self_nodes self) (self_components self) in
          let self1 :=
            {| self_nodes := self_nodes self; self_edges := self_edges self;
               self_components := components;
               self_execution_log := self_execution_log self |} in
          match r with
          | Raise e => (Raise e, self1, w)
          | Timeout => (Timeout, self1, w)
          | Ret _ =>
              let '(r, log, w') :=
                run_stages execution_order components
                  (PDict [("query", PStr query)]) (self_execution_log self) w in
              let self2 :=
                {| self_nodes := self_nodes self; self_edges := self_edges self;
                   self_components := components;
                   self_execution_log := log |} in
              match (do current_data <- r;
                     do final <- final_output current_data;
                     Ret (final, current_data)) with
              | Ret (final, current_data) =>
                  (Ret {| success := true; error := None; output := final;
                          execution_log := log;
                          full_output := Some current_data |}, self2, w')
              | Raise e => (Ret (failure (str_exn e) log), self2, w')
              | Timeout => (Timeout, self2, w')
              end
          end
      end
  end.

End Executor.

(** ** KnowledgeBaseComponent._chunk_text *)

(** [s[n:]] for [0 <= n]. *)
Fixpoint str_drop (n : nat) (s : string) : string :=
  match n, s with
  | S n', String _ s' => str_drop n' s'
  | _, _ => s
  end.

(** A bound of a slice over a sequence of length [len]: a negative bound
    counts from the end, and the result is clamped to [0 .. len]. *)
Definition slice_bound (len i : Z) : Z :=
  if (i <? 0)%Z then Z.max 0 (len + i) else Z.min i len.

(** [text[start:stop]] *)
Definition py_slice (text : string) (start stop : Z) : string :=
  let len := Z.of_nat (String.length text) in
  let a := slice_bound len start in
  let b := slice_bound len stop in
  slice_to (Z.to_nat (b - a)) (str_drop (Z.to_nat a) text).

(** The [while start < text_length] loop; [chunk_size] and [chunk_overlap]
    are the integers of the stage's configuration.  The loop is the code's
    own: [fuel] bounds the iterations and [Timeout] says the bound was hit. *)
Fixpoint chunk_loop (fuel : nat) (chunk_size chunk_overlap : Z) (text : string)
    (start : Z) (chunks : list string) : res (list string) :=
  match fuel with
  | O => Timeout
  | S fuel' =>
      if (start <? Z.of_nat (String.length text))%Z then
        let end_ := (start + chunk_size)%Z in
        let chunk := py_slice text start end_ in
        chunk_loop fuel' chunk_size chunk_overlap text
          (start + (chunk_size - chunk_overlap))%Z (chunks ++ [chunk])
      else Ret chunks
  end.

Definition _chunk_text (fuel : nat) (chunk_size chunk_overlap : Z) (text : string)
  : res (list string) :=
  chunk_loop fuel chunk_size chunk_overlap text 0%Z [].

(** ** The input and output stages *)

Section stages.

(** [str(x)] *)
Variable py_str : PyValue → string.

(** The exception of [x[:100]] on a value that cannot be sliced. *)
Variable slice_error : PyValue → exn.

(** [x or ""] *)
Definition or_empty (x : PyValue) : PyValue := if truthy x then x else PStr "".

(** Whether [x[:100]] is defined: strings and lists can be sliced. *)
Definition sliceable (x : PyValue) : bool :=
  match x with PStr _ | PList _ => true | _ => false end.

(** [UserQueryComponent.execute]; the log line slices the query text. *)
Definition user_query_execute (node_id : string) (input_data : PyValue)
  : res PyValue :=
  let query_text :=
    match input_data with
    | PStr _ => input_data
    | PDict d =>
        match dict_get "query" d with
        | Some q => q
        | None => or_empty input_data
        end
    | _ => or_empty input_data
    end in
  if sliceable query_text then
    Ret (PDict [("query", query_text);
                ("component_type", PStr "user_query");
                ("node_id", PStr node_id)])
  else Raise (slice_error query_text).

(** [x == s] for a string literal [s]. *)
Definition is_str (x : PyValue) (s : string) : bool :=
  match x with PStr s' => bool_decide (s' = s) | _ => false end.

(** [OutputComponent.execute]; [config] is the stage's configuration. *)
Definition output_execute (config : dict PyValue) (node_id : string)
    (input_data : PyValue) : PyValue :=
  let output_format := default (PStr "text") (dict_get "output_format" config) in
  let response_text :=
    match input_data with
    | PDict d => default (PStr (py_str input_data)) (dict_get "response" d)
    | PStr _ => input_data
    | _ => PStr (py_str input_data)
    end in
  let output :=
    if is_str output_format "text" then response_text
    else if is_str output_format "json" then PDict [("response", response_text)]
    else response_text in
  PDict [("output", output);
         ("response", response_text);
         ("component_type", PStr "output");
         ("node_id", PStr node_id)].

(** [component.execute(data)] by the class of the instance; the retrieval and
    generation stages call the external collaborators and stay a parameter. *)
Definition dispatch_execute {World : Type}
    (external_execute : Component → PyValue → World → res PyValue * World)
    (component : Component) (data : PyValue) (w : World)
  : res PyValue * World :=
  match component_class_of component with
  | UserQueryComponent => (user_query_execute (component_node_id component) data, w)
  | OutputComponent =>
      (Ret (output_execute (config component) (component_node_id component) data), w)
  | KnowledgeBaseComponent | LLMEngineComponent => external_execute component data w
  end.

End stages.

(** ** The validation step of [create_workflow] *)


(** * Specification vocabulary *)

#[global] Instance Edge_eq_dec : EqDecision Edge.
Proof. solve_decision. Defined.

(** The declared stage ids, in declaration order. *)
Definition ids (nodes : list Node) : list string := node_id <$> nodes.

(** [edge_rel edges u v]: there is a connection from [u] to [v]. *)
Definition edge_rel (edges : list Edge) (u v : string) : Prop :=
  {| source := u; target := v |} ∈ edges.

(** [u] lies on a directed cycle: a path of at least one connection leads
    from [u] back to [u]. *)
Definition on_cycle (edges : list Edge) (u : string) : Prop :=
  tc (edge_rel edges) u u.

Definition acyclic (edges : list Edge) : Prop := ∀ u, ¬ on_cycle edges u.

(** The connection set contains a directed cycle among the declared ids. *)
Definition cyclic (nodes : list Node) (edges : list Edge) : Prop :=
  ∃ u, u ∈ ids nodes ∧ on_cycle edges u.

(** Every connection's endpoints are declared stage ids. *)
Definition endpoint_closed (nodes : list Node) (edges : list Edge) : Prop :=
  Forall (λ e, source e ∈ ids nodes ∧ target e ∈ ids nodes) edges.

(** [before l u v]: both occur in [l] and the first occurrence of [u] comes
    strictly before the first occurrence of [v]. *)
Fixpoint before (l : list string) (u v : string) : bool :=
  match l with
  | [] => false
  | x :: l' =>
      if decide (x = u) then bool_decide (x ≠ v) && bool_decide (v ∈ l')
      else if decide (x = v) then false
      else before l' u v
  end.

(** The successors of [n], in connection order, and the number of
    connections into [m]. *)
Definition succs (edges : list Edge) (n : string) : list string :=
  target <$> filter (λ e, source e = n) edges.

Definition indeg (edges : list Edge) (m : string) : nat :=
  length (filter (λ e, target e = m) edges).

(** The keys of a dictionary built from the nodes: the ids, each at its first
    occurrence. *)
Fixpoint first_occurrences (seen l : list string) : list string :=
  match l with
  | [] => []
  | x :: l' =>
      if decide (x ∈ seen) then first_occurrences seen l'
      else x :: first_occurrences (seen ++ [x]) l'
  end.

#[global] Instance endpoint_closed_dec nodes edges :
  Decision (endpoint_closed nodes edges).
Proof. unfold endpoint_closed. apply _. Defined.

Definition stage (i t : string) : Node :=
  {| node_id := i; node_data := [("type", PStr t)] |}.

Definition connection (s t : string) : Edge := {| source := s; target := t |}.

Definition occ (m : string) (l : list string) : nat :=
  length (filter (λ x, x = m) l).

(** Connections into [m] whose source has not been dequeued yet. *)
Definition pending (edges : list Edge) (ord : list string) (m : string) : nat :=
  length (filter (λ e, target e = m ∧ source e ∉ ord) edges).

Record kahn_inv (edges : list Edge) (K : list string) (st : kahn_state) : Prop :=
  { inv_keys : dict_keys (in_degree st) = K;
    inv_nodup : NoDup (order st ++ queue st);
    inv_sub : ∀ x, x ∈ order st ++ queue st → x ∈ K;
    inv_deg : ∀ m, m ∈ K →
      dict_get m (in_degree st) = Some (Z.of_nat (pending edges (order st) m));
    inv_ready : ∀ m, m ∈ K →
      (m ∈ order st ++ queue st ↔ pending edges (order st) m = 0);
    inv_topo : ∀ e, e ∈ edges → target e ∈ order st →
      before (order st) (source e) (target e) = true }.

Definition declared_keys (nodes : list Node) : list string :=
  first_occurrences [] (ids nodes).

(** The stages with no incoming connection, in key order: the seed of the queue. *)
Definition initial_queue (nodes : list Node) (edges : list Edge) : list string :=
  filter (λ m, indeg edges m = 0) (declared_keys nodes).

(** A node is finished when its call has returned: visited and off the stack. *)
Definition finished (st : dfs_state) (x : string) : Prop :=
  x ∈ visited st ∧ x ∉ rec_stack st.

(** *** The invariant of the depth-first search

    [graph] is the adjacency dictionary and [U] a finite set that holds
    every node the search can reach. *)
Section dfs_vocabulary.
Variable graph : dict (list string).
Variable U : gset string.

(** [graph_rel u v]: [v] is in the adjacency list of [u]. *)
Definition graph_rel (u v : string) : Prop := v ∈ default [] (dict_get u graph).

(** The invariant of the search: the stack is part of the visited set, the
    finished nodes are closed under successors and none of them is on a cycle. *)
Definition dfs_ok (st : dfs_state) : Prop :=
  rec_stack st ⊆ visited st ∧ visited st ⊆ U ∧
  (∀ u v, finished st u → graph_rel u v → finished st v) ∧
  (∀ u, finished st u → ¬ tc graph_rel u u).

Definition dfs_post (st st' : dfs_state) : Prop :=
  rec_stack st' = rec_stack st ∧ visited st ⊆ visited st' ∧ dfs_ok st'.

Definition call_spec (rec : string → dfs_state → res (bool * dfs_state))
    (bound : nat) : Prop :=
  ∀ n st, n ∉ visited st → n ∈ U → dfs_ok st →
    size (U ∖ visited st) ≤ bound →
    (∀ x, x ∈ rec_stack st → rtc graph_rel x n) →
    ∃ b st', rec n st = Ret (b, st') ∧
      if b : bool then ∃ x, tc graph_rel x x else dfs_post st st' ∧ n ∈ visited st'.

End dfs_vocabulary.

(** The lower-cased type of a stage declaration. *)
Definition stage_type (node : Node) : res string := get_type (node_data node).

(** The declared type is a string (so that it can be lower-cased). *)
Definition typed (node : Node) : Prop := ∃ t, stage_type node = Ret t.

(** The lower-cased type is one of [ts]. *)
Definition classified (ts : list string) (node : Node) : Prop :=
  ∃ t, stage_type node = Ret t ∧ t ∈ ts.

Definition recognized (node : Node) : Prop :=
  ∃ t, stage_type node = Ret t ∧ t ∈ valid_types.

Definition types_recognized (nodes : list Node) : Prop := Forall recognized nodes.

(** A generation stage declares a model identifier (a truthy ["model"]). *)
Definition has_model (node : Node) : Prop :=
  truthy (dict_get_or_none "model" (node_data node)) = true.

Definition parameters_present (nodes : list Node) : Prop :=
  Forall (λ node, classified llm_types node → has_model node) nodes.

Definition has_input_stage (nodes : list Node) : Prop :=
  Exists (classified input_types) nodes.

Definition has_output_stage (nodes : list Node) : Prop :=
  Exists (classified ["output"]) nodes.

#[global] Instance classified_dec ts node : Decision (classified ts node).
Proof.
  unfold classified. destruct (stage_type node) as [t| |].
  - destruct (decide (t ∈ ts)) as [Hin|Hin].
    + left. by exists t.
    + right. intros (t' & [= <-] & ?). done.
  - right. by intros (? & ? & _).
  - right. by intros (? & ? & _).
Defined.

#[global] Instance recognized_dec node : Decision (recognized node).
Proof.
  unfold recognized. destruct (stage_type node) as [t| |].
  - destruct (decide (t ∈ valid_types)) as [Hin|Hin].
    + left. by exists t.
    + right. intros (t' & [= <-] & ?). done.
  - right. by intros (? & ? & _).
  - right. by intros (? & ? & _).
Defined.

#[global] Instance has_model_dec node : Decision (has_model node).
Proof. unfold has_model. apply _. Defined.

#[global] Instance types_recognized_dec nodes : Decision (types_recognized nodes).
Proof. unfold types_recognized. apply _. Defined.

#[global] Instance parameters_present_dec nodes : Decision (parameters_present nodes).
Proof. unfold parameters_present. apply _. Defined.

#[global] Instance has_input_stage_dec nodes : Decision (has_input_stage nodes).
Proof. unfold has_input_stage. apply _. Defined.

#[global] Instance has_output_stage_dec nodes : Decision (has_output_stage nodes).
Proof. unfold has_output_stage. apply _. Defined.

(** Decide a closed decidable proposition by evaluation. *)
Ltac by_evaluation := apply (bool_decide_unpack _); vm_compute; exact I.

(** *** The pipeline and its log, as the specification describes them *)
Section run_vocabulary.
Variable World : Type.
Variable stage_execute : Component → PyValue → World → res PyValue * World.
Variable py_str : PyValue → string.
Variable clock : World → string * World.

(** The truncated preview of a logged payload. *)
Definition preview (data : PyValue) : string :=
  if truthy data then slice_to 200 (py_str data) else "".

Definition log_entry (node_id status now : string) (data : PyValue) : LogEntry :=
  {| log_node_id := node_id; status := status; timestamp := now;
     data_preview := preview data |}.

(** The pipeline as the specification describes it: for each stage id in
    order, a started entry with the preview of the current payload, the
    stage's [execute] on the current payload, a completed entry with the
    preview of the result, and the result as the next payload. *)
Inductive pipeline (components : dict Component) :
    list string → PyValue → list LogEntry → World →
    PyValue → list LogEntry → World → Prop :=
  | pipeline_done payload log w :
      pipeline components [] payload log w payload log w
  | pipeline_stage node_id rest component payload log w
        t1 w1 result w2 t2 w3 payload' log' w' :
      dict_get node_id components = Some component →
      clock w = (t1, w1) →
      stage_execute component payload w1 = (Ret result, w2) →
      clock w2 = (t2, w3) →
      pipeline components rest result
        (log ++ [log_entry node_id "started" t1 payload;
                 log_entry node_id "completed" t2 result]) w3
        payload' log' w' →
      pipeline components (node_id :: rest) payload log w payload' log' w'.

(** One executed stage as the log shows it: the stage id, the payload the
    stage was given, the result it returned, and the clock readings of its
    two entries. *)
Record StageRun : Type :=
  { run_node_id : string;
    run_input : PyValue;
    run_output : PyValue;
    started_at : string;
    completed_at : string }.

(** The two entries of an executed stage: a started entry with the preview
    of the payload it was given, then a completed entry with the preview of
    the result it returned. *)
Definition entries_of (s : StageRun) : list LogEntry :=
  [log_entry (run_node_id s) "started" (started_at s) (run_input s);
   log_entry (run_node_id s) "completed" (completed_at s) (run_output s)].

(** The payload is handed from stage to stage: the first stage is given
    [payload], every later stage the result of the stage before it, and
    [final] is the result of the last stage ([payload] itself when no stage
    ran). *)
Fixpoint chained (payload : PyValue) (runs : list StageRun) (final : PyValue) : Prop :=
  match runs with
  | [] => final = payload
  | s :: rest => run_input s = payload ∧ chained (run_output s) rest final
  end.

(** The final output: the [response] field if present, else the [output]
    field if present, else the string representation of the payload. *)
Definition output_of (d : dict PyValue) : PyValue :=
  match dict_get "response" d with
  | Some v => v
  | None =>
      match dict_get "output" d with
      | Some v => v
      | None => PStr (py_str (PDict d))
      end
  end.

End run_vocabulary.

(** *** Custom templates *)

(** The four placeholder tokens of a custom template. *)
Inductive placeholder : Type :=
  | QueryLower | ContextLower | QueryTitle | ContextUpper.

Definition token (p : placeholder) : string :=
  match p with
  | QueryLower => "{query}"
  | ContextLower => "{context}"
  | QueryTitle => "{User Query}"
  | ContextUpper => "{CONTEXT}"
  end.

(** A template as a sequence of literal text and placeholders. *)
Inductive piece : Type :=
  | Text (s : string)
  | Hole (p : placeholder).

#[global] Instance placeholder_eq_dec : EqDecision placeholder.
Proof. solve_decision. Defined.

Definition render (pc : piece) : string :=
  match pc with Text s => s | Hole p => token p end.

Definition str_concat (parts : list string) : string :=
  foldr String.append "" parts.

(** The template string the pieces spell. *)
Definition template_text (ps : list piece) : string := str_concat (render <$> ps).

(** The value that stands for a placeholder. *)
Definition value_of (query context : string) (p : placeholder) : string :=
  match p with
  | QueryLower | QueryTitle => query
  | ContextLower | ContextUpper => context
  end.

Definition fill (query context : string) (pc : piece) : string :=
  match pc with Text s => s | Hole p => value_of query context p end.

(** No opening brace occurs in the string. *)
Definition brace_free (s : string) : Prop := contains "{" s = false.

(** The braces of the template are those of its placeholders. *)
Definition plain_template (ps : list piece) : Prop :=
  Forall (λ pc, match pc with Text s => brace_free s | Hole _ => True end) ps.

(** One pass of [str.replace] over a plain template. *)
Definition pass (p : placeholder) (new : string) (pc : piece) : piece :=
  match pc with
  | Text s => Text s
  | Hole q => if decide (q = p) then Text new else Hole q
  end.

(** *** Types that the registry can construct *)

(** The registry keys that are their own lower-case form. *)
Definition constructible_types : list string :=
  ["user_query"; "input"; "knowledge_base"; "llm_engine"; "llm"; "output"].

(** The recognized types that the registry holds only in camel case. *)
Definition camel_case_types : list string :=
  ["userquery"; "knowledgebase"; "llmengine"].

(** The class a constructible type stands for. *)
Definition class_of_type (t : string) : component_class :=
  if bool_decide (t ∈ ["user_query"; "input"]) then UserQueryComponent
  else if bool_decide (t = "knowledge_base") then KnowledgeBaseComponent
  else if bool_decide (t ∈ ["llm_engine"; "llm"]) then LLMEngineComponent
  else OutputComponent.

(** The constructible types whose class opens a client in its constructor. *)
Definition client_types : list string := ["knowledge_base"; "llm_engine"; "llm"].

(** The instance built for a stage of the lower-cased type [t]. *)
Definition instance_of (t node_id : string) (node_data : dict PyValue) : Component :=
  {| component_class_of := class_of_type t;
     component_node_id := node_id;
     config := node_data |}.

(** What the construction of a stage of the recognized lower-cased type [t]
    comes to: the unknown-type error for a type that the registry holds only
    in camel case, the outcome of the client constructor for a retrieval or
    generation stage, and success for an input or output stage. *)
Definition construction_outcome (OpenAI : res unit) (t node_id : string)
    (node_data : dict PyValue) : res Component :=
  if bool_decide (t ∈ camel_case_types)
  then Raise (ValueError ("Unknown component type: " +:+ t))
  else if bool_decide (t ∈ client_types)
  then do openai_client <- OpenAI; Ret (instance_of t node_id node_data)
  else Ret (instance_of t node_id node_data).

(** The construction of the stage succeeds. *)
Definition constructs (OpenAI : res unit) (node : Node) : Prop :=
  ∃ component,
    create_component OpenAI (node_id node) (node_data node) = Ret component.

(** The connection with its direction turned around. *)
Definition reversed (e : Edge) : Edge :=
  {| source := target e; target := source e |}.

(** * Properties *)

(** ** Dictionaries *)

Section dict_facts.
Context {V : Type}.
Implicit Types (d : dict V) (k : string) (v : V).

Lemma dict_get_set_eq k v d : dict_get k (dict_set k v d) = Some v.
Proof.
  induction d as [|[k' v'] d IH]; csimpl.
  - by rewrite decide_True.
  - destruct (decide (k = k')); csimpl.
    + by rewrite decide_True.
    + by rewrite decide_False.
Qed.

Lemma dict_get_set_ne k k' v d :
  k ≠ k' → dict_get k' (dict_set k v d) = dict_get k' d.
Proof.
  intros Hne. induction d as [|[k0 v0] d IH]; csimpl.
  - by rewrite decide_False.
  - destruct (decide (k = k0)) as [->|]; csimpl.
    + by rewrite !decide_False.
    + by rewrite IH.
Qed.

Lemma dict_get_is_Some k d : is_Some (dict_get k d) ↔ k ∈ dict_keys d.
Proof.
  unfold dict_keys. induction d as [|[k' v'] d IH]; csimpl.
  - split; [by intros [? ?] | by intros ?%elem_of_nil].
  - rewrite elem_of_cons. destruct (decide (k = k')) as [->|Hne].
    + split; eauto.
    + rewrite IH. naive_solver.
Qed.

Lemma dict_get_None k d : dict_get k d = None ↔ k ∉ dict_keys d.
Proof. rewrite <- dict_get_is_Some, eq_None_not_Some. done. Qed.

Lemma dict_keys_set_in k v d :
  k ∈ dict_keys d → dict_keys (dict_set k v d) = dict_keys d.
Proof.
  unfold dict_keys. induction d as [|[k' v'] d IH]; csimpl.
  - by intros ?%elem_of_nil.
  - intros Hin. destruct (decide (k = k')) as [->|Hne]; csimpl; [done|].
    f_equal. apply IH. apply elem_of_cons in Hin. naive_solver.
Qed.

Lemma dict_keys_set_notin k v d :
  k ∉ dict_keys d → dict_keys (dict_set k v d) = dict_keys d ++ [k].
Proof.
  unfold dict_keys. induction d as [|[k' v'] d IH]; csimpl; [done|].
  intros Hin. apply not_elem_of_cons in Hin as [Hne Hin].
  rewrite decide_False by done. csimpl. by rewrite IH.
Qed.

Lemma dict_index_Ret k d x : dict_index k d = Ret x ↔ dict_get k d = Some x.
Proof. unfold dict_index. destruct (dict_get k d); naive_solver. Qed.

Lemma dict_keys_from_nodes_acc v nodes d :
  dict_keys (fold_left (λ d node, dict_set (node_id node) v d) nodes d)
  = dict_keys d ++ first_occurrences (dict_keys d) (ids nodes).
Proof.
  revert d. induction nodes as [|n nodes IH]; intros d; csimpl.
  - by rewrite app_nil_r.
  - rewrite IH. destruct (decide (node_id n ∈ dict_keys d)) as [Hin|Hin].
    + by rewrite dict_keys_set_in.
    + rewrite dict_keys_set_notin by done. by rewrite <- app_assoc.
Qed.

Lemma dict_keys_from_nodes v nodes :
  dict_keys (dict_from_nodes v nodes) = first_occurrences [] (ids nodes).
Proof. unfold dict_from_nodes. by rewrite dict_keys_from_nodes_acc. Qed.

Lemma dict_get_from_nodes_acc v nodes d k :
  dict_get k (fold_left (λ d node, dict_set (node_id node) v d) nodes d)
  = if decide (k ∈ ids nodes) then Some v else dict_get k d.
Proof.
  revert d. induction nodes as [|n nodes IH]; intros d; csimpl; [done|].
  rewrite IH. destruct (decide (k ∈ ids nodes)) as [Hin|Hin].
  - rewrite decide_True; [done | by apply elem_of_cons; right].
  - destruct (decide (node_id n = k)) as [<-|Hne].
    + rewrite dict_get_set_eq. rewrite decide_True; [done | by left].
    + rewrite dict_get_set_ne by done. rewrite decide_False; [done|].
      intros [?|?]%elem_of_cons; congruence.
Qed.

Lemma dict_get_from_nodes v nodes k :
  dict_get k (dict_from_nodes v nodes)
  = if decide (k ∈ ids nodes) then Some v else None.
Proof. unfold dict_from_nodes. by rewrite dict_get_from_nodes_acc. Qed.
End dict_facts.

(** ** Order of first occurrences *)

Lemma before_In l u v : before l u v = true → u ∈ l ∧ v ∈ l.
Proof.
  induction l as [|x l IH]; simpl; [done|].
  destruct (decide (x = u)) as [->|Hu].
  - intros [_ Hv%bool_decide_eq_true]%andb_true_iff.
    split; [by left | by right].
  - destruct (decide (x = v)); [done|].
    intros [? ?]%IH. split; by right.
Qed.

Lemma before_irrefl l u : before l u u = false.
Proof.
  induction l as [|x l IH]; simpl; [done|].
  destruct (decide (x = u)) as [->|Hu]; [|done].
  by rewrite bool_decide_eq_false_2 by (intros ?; done).
Qed.

Lemma before_trans l u v w :
  before l u v = true → before l v w = true → before l u w = true.
Proof.
  induction l as [|x l IH]; simpl; [done|].
  destruct (decide (x = u)) as [->|Hu].
  - intros [Huv%bool_decide_eq_true Hv%bool_decide_eq_true]%andb_true_iff.
    rewrite decide_False by done.
    destruct (decide (u = w)) as [->|Hw]; [done|].
    intros [_ ?]%before_In.
    apply andb_true_iff; split; by apply bool_decide_eq_true.
  - destruct (decide (x = v)) as [->|Hv]; [done|].
    destruct (decide (x = w)) as [->|Hw]; [|by apply IH].
    intros _ ?. done.
Qed.

Lemma before_app_l l l' u v :
  before l u v = true → before (l ++ l') u v = true.
Proof.
  induction l as [|x l IH]; simpl; [done|].
  destruct (decide (x = u)) as [->|Hu].
  - intros [Huv Hv%bool_decide_eq_true]%andb_true_iff.
    rewrite Huv. simpl. apply bool_decide_eq_true, elem_of_app. by left.
  - destruct (decide (x = v)); [done | apply IH].
Qed.

Lemma before_snoc l u v : u ∈ l → v ∉ l → before (l ++ [v]) u v = true.
Proof.
  induction l as [|x l IH]; simpl.
  - by intros ?%elem_of_nil.
  - intros Hu Hv. apply not_elem_of_cons in Hv as [Hxv Hv].
    destruct (decide (x = u)) as [->|Hxu].
    + apply andb_true_iff; split; apply bool_decide_eq_true; [done|].
      apply elem_of_app; right. by left.
    + rewrite decide_False by done. apply IH; [|done].
      apply elem_of_cons in Hu. naive_solver.
Qed.



Lemma first_occurrences_elem seen l x :
  x ∈ first_occurrences seen l ↔ x ∈ l ∧ x ∉ seen.
Proof.
  revert seen. induction l as [|y l IH]; intros seen; simpl.
  - rewrite elem_of_nil. naive_solver.
  - destruct (decide (y ∈ seen)) as [Hy|Hy].
    + rewrite IH, elem_of_cons. naive_solver.
    + rewrite elem_of_cons, IH, elem_of_cons, elem_of_app, list_elem_of_singleton.
      destruct (decide (x = y)); naive_solver.
Qed.

Lemma first_occurrences_NoDup seen l : NoDup (first_occurrences seen l).
Proof.
  revert seen. induction l as [|y l IH]; intros seen; simpl.
  - constructor.
  - destruct (decide (y ∈ seen)); [done|].
    constructor; [|done].
    rewrite first_occurrences_elem, elem_of_app, list_elem_of_singleton.
    naive_solver.
Qed.

Lemma first_occurrences_length seen l :
  length (first_occurrences seen l) ≤ length l.
Proof.
  revert seen. induction l as [|y l IH]; intros seen; simpl; [done|].
  destruct (decide (y ∈ seen)); simpl.
  - specialize (IH seen). lia.
  - specialize (IH (seen ++ [y])). lia.
Qed.


(** ** Building the adjacency and in-degree dictionaries *)

Lemma succs_cons e es n :
  succs (e :: es) n = if decide (source e = n) then target e :: succs es n else succs es n.
Proof. unfold succs. rewrite filter_cons. by destruct (decide (source e = n)). Qed.

Lemma indeg_cons e es m :
  indeg (e :: es) m = if decide (target e = m) then S (indeg es m) else indeg es m.
Proof. unfold indeg. rewrite filter_cons. by destruct (decide (target e = m)). Qed.

Lemma elem_of_succs es n m : m ∈ succs es n ↔ edge_rel es n m.
Proof.
  unfold succs, edge_rel. rewrite list_elem_of_fmap. split.
  - intros ([s t] & -> & [Hs Hin]%list_elem_of_filter). simpl in *. by subst.
  - intros Hin. exists {| source := n; target := m |}. split; [done|].
    by apply list_elem_of_filter.
Qed.

Lemma build_graph_Ret es g d g' d' :
  build_graph es g d = Ret (g', d') →
  dict_keys g' = dict_keys g ∧ dict_keys d' = dict_keys d ∧
  (∀ n, dict_get n g' = (λ l, l ++ succs es n) <$> dict_get n g) ∧
  (∀ m, dict_get m d' = (λ z, (z + Z.of_nat (indeg es m))%Z) <$> dict_get m d) ∧
  Forall (λ e, source e ∈ dict_keys g ∧ target e ∈ dict_keys d) es.
Proof.
  revert g d. induction es as [|e es IH]; intros g d; simpl.
  - intros [= <- <-]. split_and!; try done.
    + intros n. destruct (dict_get n g); simpl; [|done]. by rewrite app_nil_r.
    + intros m. destruct (dict_get m d); simpl; [|done]. f_equal.
      unfold indeg. simpl. lia.
  - unfold dict_index.
    destruct (dict_get (source e) g) as [ts|] eqn:Hs; simpl; [|done].
    destruct (dict_get (target e) d) as [z|] eqn:Ht; simpl; [|done].
    intros (Hkg & Hkd & Hg & Hd & Hall)%IH.
    assert (source e ∈ dict_keys g) as Hsin by (apply dict_get_is_Some; eauto).
    assert (target e ∈ dict_keys d) as Htin by (apply dict_get_is_Some; eauto).
    rewrite dict_keys_set_in in Hkg, Hall by done.
    rewrite dict_keys_set_in in Hkd, Hall by done.
    split_and!; try done.
    + intros n. rewrite Hg, succs_cons.
      destruct (decide (source e = n)) as [<-|Hne].
      * rewrite dict_get_set_eq, Hs. simpl. by rewrite <- app_assoc.
      * by rewrite dict_get_set_ne.
    + intros m. rewrite Hd, indeg_cons.
      destruct (decide (target e = m)) as [<-|Hne].
      * rewrite dict_get_set_eq, Ht. simpl. f_equal. lia.
      * by rewrite dict_get_set_ne.
    + by constructor.
Qed.

Lemma build_graph_closed es g d :
  Forall (λ e, source e ∈ dict_keys g ∧ target e ∈ dict_keys d) es →
  ∃ g' d', build_graph es g d = Ret (g', d').
Proof.
  revert g d. induction es as [|e es IH]; intros g d Hall; simpl; [eauto|].
  inversion Hall as [|? ? [Hs Ht] Hall']; subst.
  apply dict_get_is_Some in Hs as Hs'. destruct Hs' as [ts Hts].
  apply dict_get_is_Some in Ht as Ht'. destruct Ht' as [z Hz].
  unfold dict_index. rewrite Hts. simpl. rewrite Hz. simpl.
  apply IH. by rewrite !dict_keys_set_in.
Qed.

Lemma build_graph_not_closed es g d :
  ¬ Forall (λ e, source e ∈ dict_keys g ∧ target e ∈ dict_keys d) es →
  ∃ k, build_graph es g d = Raise (KeyError k).
Proof.
  revert g d. induction es as [|e es IH]; intros g d Hall; simpl.
  - destruct Hall. constructor.
  - unfold dict_index.
    destruct (dict_get (source e) g) as [ts|] eqn:Hs; simpl; [|eauto].
    destruct (dict_get (target e) d) as [z|] eqn:Ht; simpl; [|eauto].
    assert (source e ∈ dict_keys g) as Hsin by (apply dict_get_is_Some; eauto).
    assert (target e ∈ dict_keys d) as Htin by (apply dict_get_is_Some; eauto).
    apply IH. rewrite !dict_keys_set_in by done.
    intros Hall'. apply Hall. by constructor.
Qed.

Lemma occ_cons x l m :
  occ m (x :: l) = if decide (x = m) then S (occ m l) else occ m l.
Proof. unfold occ. rewrite filter_cons. by destruct (decide (x = m)). Qed.

Lemma pending_snoc es ord n m :
  n ∉ ord →
  pending es ord m = pending es (ord ++ [n]) m + occ m (succs es n).
Proof.
  intros Hn. unfold pending. induction es as [|e es IH]; [done|].
  rewrite succs_cons, !filter_cons.
  destruct (decide (source e = n)) as [Hs|Hs].
  - rewrite occ_cons. rewrite (decide_False (P := _ ∧ source e ∉ ord ++ [n])).
    2:{ intros [_ H]. apply H. apply elem_of_app; right. rewrite Hs. by left. }
    destruct (decide (target e = m)) as [Ht|Ht].
    + rewrite decide_True by (split; [done | by rewrite Hs]). simpl. lia.
    + rewrite decide_False by naive_solver. done.
  - destruct (decide (target e = m ∧ source e ∉ ord)) as [[Ht Ho]|Hno].
    + rewrite decide_True; [simpl; lia|].
      split; [done|]. rewrite elem_of_app, list_elem_of_singleton. naive_solver.
    + rewrite decide_False; [done|].
      intros [Ht Ho]. apply Hno. split; [done|].
      intros ?. apply Ho. apply elem_of_app. by left.
Qed.

Lemma filter_none {A : Type} (P : A → Prop) `{!∀ x, Decision (P x)} (l : list A) :
  (∀ x, x ∈ l → ¬ P x) → filter P l = [].
Proof.
  induction l as [|x l IH]; intros Hall; [done|].
  rewrite filter_cons_False by (apply Hall; by left).
  apply IH. intros y Hy. apply Hall. by right.
Qed.

Lemma pending_zero es ord m :
  pending es ord m = 0 ↔ ∀ e, e ∈ es → target e = m → source e ∈ ord.
Proof.
  unfold pending. rewrite length_zero_iff_nil. split.
  - intros Hnil e He Ht. destruct (decide (source e ∈ ord)) as [|Hno]; [done|].
    assert (e ∈ filter (λ e, target e = m ∧ source e ∉ ord) es) as Hin
      by (by apply list_elem_of_filter).
    rewrite Hnil in Hin. by apply elem_of_nil in Hin.
  - intros Hall. apply filter_none.
    intros e He [Ht Hs]. apply Hs. by apply Hall.
Qed.

Lemma pending_nil es m : pending es [] m = indeg es m.
Proof.
  unfold pending, indeg. f_equal. apply list_filter_iff.
  intros e. rewrite elem_of_nil. naive_solver.
Qed.

(** ** Kahn's algorithm: the loop invariant *)

Section kahn.
Variable edges : list Edge.
Variable graph : dict (list string).
Let K : list string := dict_keys graph.
Hypothesis graph_succs : ∀ n, n ∈ K → dict_get n graph = Some (succs edges n).
Hypothesis closed : ∀ e, e ∈ edges → source e ∈ K ∧ target e ∈ K.

Lemma relax_spec ord ns : ∀ deg q,
  dict_keys deg = K →
  NoDup (ord ++ q) →
  (∀ x, x ∈ ord ++ q → x ∈ K) →
  (∀ x, x ∈ ns → x ∈ K) →
  (∀ m, m ∈ K → dict_get m deg = Some (Z.of_nat (pending edges ord m + occ m ns))) →
  (∀ m, m ∈ K → (m ∈ ord ++ q ↔ pending edges ord m + occ m ns = 0)) →
  ∃ deg' new, relax ns deg q = Ret (deg', q ++ new) ∧
    dict_keys deg' = K ∧
    NoDup (ord ++ q ++ new) ∧
    (∀ x, x ∈ ord ++ q ++ new → x ∈ K) ∧
    (∀ m, m ∈ K → dict_get m deg' = Some (Z.of_nat (pending edges ord m))) ∧
    (∀ m, m ∈ K → (m ∈ ord ++ q ++ new ↔ pending edges ord m = 0)).
Proof.
  induction ns as [|n ns IH]; intros deg q Hkeys Hnd Hsub Hns Hdeg Hready.
  - exists deg, []. simpl. rewrite !app_nil_r. split_and!; try done.
    + intros m Hm. rewrite Hdeg by done. unfold occ. simpl. by rewrite Nat.add_0_r.
    + intros m Hm. rewrite Hready by done. unfold occ. simpl. by rewrite Nat.add_0_r.
  - assert (n ∈ K) as HnK by (apply Hns; by left).
    simpl. unfold dict_index. rewrite (Hdeg n HnK). simpl.
    rewrite occ_cons, decide_True by done.
    assert (n ∉ ord ++ q) as Hnq.
    { rewrite (Hready n HnK), occ_cons, decide_True by done. lia. }
    set (deg1 := dict_set n _ deg).
    assert (dict_keys deg1 = K) as Hkeys1.
    { unfold deg1. rewrite dict_keys_set_in; [done|]. by rewrite Hkeys. }
    assert (∀ m, m ∈ K →
      dict_get m deg1 = Some (Z.of_nat (pending edges ord m + occ m ns))) as Hdeg1.
    { intros m Hm. unfold deg1. destruct (decide (n = m)) as [<-|Hne].
      - rewrite dict_get_set_eq. f_equal. lia.
      - rewrite dict_get_set_ne by done. rewrite Hdeg by done.
        by rewrite occ_cons, decide_False. }
    assert (∀ x, x ∈ ns → x ∈ K) as Hns1 by (intros x Hx; apply Hns; by right).
    case_bool_decide as Hz.
    + destruct (IH deg1 (q ++ [n])) as (deg' & new & Hrun & ? & Hnd' & Hsub' & ? & Hready');
        try done.
      * rewrite app_assoc. apply NoDup_app. split_and!; [done| |apply NoDup_singleton].
        intros x Hx ->%list_elem_of_singleton. done.
      * intros x. rewrite app_assoc, elem_of_app, list_elem_of_singleton.
        intros [?| ->]; [by apply Hsub | done].
      * intros m Hm. rewrite app_assoc, elem_of_app, list_elem_of_singleton.
        destruct (decide (m = n)) as [->|Hne].
        -- split; [intros _; lia | by right].
        -- rewrite (Hready m Hm), occ_cons, decide_False by done. naive_solver.
      * exists deg', ([n] ++ new). rewrite Hrun.
        rewrite <- !app_assoc in *. simpl in *. done.
    + destruct (IH deg1 q) as (deg' & new & Hrun & ? & Hnd' & Hsub' & ? & Hready');
        try done.
      * intros m Hm. destruct (decide (m = n)) as [->|Hne].
        -- split; [done | intros ?; lia].
        -- by rewrite (Hready m Hm), occ_cons, decide_False.
      * exists deg', new. done.
Qed.


Lemma kahn_step_spec st n q :
  kahn_inv edges K st → queue st = n :: q →
  ∃ st' new, kahn_step graph st = Ret st' ∧ kahn_inv edges K st' ∧
    order st' = order st ++ [n] ∧ queue st' = q ++ new.
Proof.
  intros [Hkeys Hnd Hsub Hdeg Hready Htopo] Hq. rewrite Hq in *.
  assert (n ∈ K) as HnK.
  { apply Hsub, elem_of_app; right. by left. }
  assert (n ∉ order st) as Hno.
  { apply NoDup_app in Hnd as (_ & Hdis & _). intros Hin.
    apply (Hdis n Hin). by left. }
  assert (pending edges (order st) n = 0) as Hpn.
  { apply Hready; [done|]. apply elem_of_app; right. by left. }
  destruct (relax_spec (order st ++ [n]) (succs edges n) (in_degree st) q)
    as (deg' & new & Hrun & Hkeys' & Hnd' & Hsub' & Hdeg' & Hready'); try done.
  - rewrite <- app_assoc. done.
  - intros x. rewrite <- app_assoc. apply Hsub.
  - intros x Hx%elem_of_succs.
    by destruct (closed _ Hx) as [_ ?].
  - intros m Hm. by rewrite <- pending_snoc, Hdeg.
  - intros m Hm. rewrite <- pending_snoc by done.
    rewrite <- app_assoc. by apply Hready.
  - exists {| in_degree := deg'; queue := q ++ new; order := order st ++ [n] |}, new.
    unfold kahn_step. rewrite Hq. unfold dict_index.
    rewrite (graph_succs n HnK). simpl. rewrite Hrun. simpl.
    split_and!; try done. constructor; simpl; try done.
    intros e He. rewrite elem_of_app, list_elem_of_singleton.
    intros [Hin|Heq].
    + by apply before_app_l, Htopo.
    + rewrite Heq. apply before_snoc; [|done].
      by eapply pending_zero.
Qed.

Lemma kahn_inv_length st : kahn_inv edges K st →
  length (order st) + length (queue st) ≤ length K.
Proof.
  intros [_ Hnd Hsub _ _ _]. rewrite <- length_app.
  apply submseteq_length, NoDup_submseteq; done.
Qed.

(** With enough fuel the loop returns, and the result extends the
    order and the queue it started from. *)
Lemma kahn_loop_spec fuel : ∀ st,
  kahn_inv edges K st →
  length K < fuel + length (order st) →
  ∃ stf rest, kahn_loop fuel graph st = Ret (order stf) ∧
    kahn_inv edges K stf ∧ queue stf = [] ∧
    order stf = order st ++ queue st ++ rest.
Proof.
  induction fuel as [|fuel IH]; intros st Hinv Hfuel.
  - apply kahn_inv_length in Hinv. simpl in *. lia.
  - simpl. destruct (queue st) as [|n q] eqn:Hq; simpl.
    + exists st, []. by rewrite Hq, !app_nil_r.
    + destruct (kahn_step_spec st n q Hinv Hq)
        as (st' & new & Hstep & Hinv' & Hord & Hqueue).
      rewrite Hstep. simpl.
      destruct (IH st' Hinv') as (stf & rest & Hrun & Hinvf & Hqf & Hordf).
      { rewrite Hord, length_app. simpl. lia. }
      exists stf, (new ++ rest). rewrite Hrun. split_and!; try done.
      rewrite Hordf, Hord, Hqueue, <- !app_assoc. done.
Qed.
End kahn.

(** ** [get_execution_order]: entry state and result *)

Lemma elem_of_declared_keys nodes x : x ∈ declared_keys nodes ↔ x ∈ ids nodes.
Proof.
  unfold declared_keys. rewrite first_occurrences_elem, elem_of_nil. naive_solver.
Qed.

Lemma declared_keys_NoDup nodes : NoDup (declared_keys nodes).
Proof. apply first_occurrences_NoDup. Qed.

Lemma declared_keys_length nodes : length (declared_keys nodes) ≤ length nodes.
Proof.
  unfold declared_keys. etrans; [apply first_occurrences_length|].
  unfold ids. by rewrite length_fmap.
Qed.

Lemma filter_dict_keys (f : string → Z) (d : dict Z) :
  NoDup (dict_keys d) →
  (∀ k, k ∈ dict_keys d → dict_get k d = Some (f k)) →
  (filter (λ kv : string * Z, kv.2 = 0%Z) d).*1
  = filter (λ k, f k = 0%Z) (dict_keys d).
Proof.
  unfold dict_keys. induction d as [|[k v] d IH]; csimpl; [done|].
  intros [Hk Hnd]%NoDup_cons Hf.
  assert (v = f k) as ->.
  { specialize (Hf k). rewrite decide_True in Hf by done.
    injection Hf; [done | by left]. }
  assert ((filter (λ kv : string * Z, kv.2 = 0%Z) d).*1
          = filter (λ k, f k = 0%Z) d.*1) as Htl.
  { apply IH; [done|]. intros k' Hk'. specialize (Hf k').
    rewrite decide_False in Hf by (intros ->; done). apply Hf. by right. }
  destruct (decide (f k = 0%Z)).
  - rewrite (filter_cons_True (λ k, f k = 0%Z)) by done.
    rewrite (filter_cons_True (λ kv : string * Z, kv.2 = 0%Z)) by done.
    csimpl. by rewrite Htl.
  - rewrite (filter_cons_False (λ k, f k = 0%Z)) by done.
    by rewrite (filter_cons_False (λ kv : string * Z, kv.2 = 0%Z)) by done.
Qed.

Lemma endpoint_closed_keys nodes edges :
  endpoint_closed nodes edges ↔
  Forall (λ e, source e ∈ dict_keys (dict_from_nodes ([] : list string) nodes)
             ∧ target e ∈ dict_keys (dict_from_nodes 0%Z nodes)) edges.
Proof.
  unfold endpoint_closed. rewrite !dict_keys_from_nodes.
  apply Forall_proper; [|done]. intros e.
  by rewrite !(elem_of_declared_keys nodes).
Qed.

Lemma kahn_init_spec nodes edges :
  endpoint_closed nodes edges →
  ∃ graph st, kahn_init nodes edges = Ret (graph, st) ∧
    dict_keys graph = declared_keys nodes ∧
    (∀ n, n ∈ declared_keys nodes → dict_get n graph = Some (succs edges n)) ∧
    kahn_inv edges (declared_keys nodes) st ∧
    order st = [] ∧ queue st = initial_queue nodes edges.
Proof.
  intros Hcl. apply endpoint_closed_keys in Hcl.
  destruct (build_graph_closed _ _ _ Hcl) as (graph & deg & Hbuild).
  destruct (build_graph_Ret _ _ _ _ _ Hbuild) as (Hkg & Hkd & Hg & Hd & _).
  rewrite dict_keys_from_nodes in Hkg. rewrite dict_keys_from_nodes in Hkd.
  fold (declared_keys nodes) in Hkg, Hkd.
  assert (∀ m, m ∈ declared_keys nodes →
            dict_get m deg = Some (Z.of_nat (indeg edges m))) as Hdeg.
  { intros m Hm. rewrite Hd, dict_get_from_nodes.
    rewrite decide_True by (by apply elem_of_declared_keys). done. }
  assert ((filter (λ kv : string * Z, kv.2 = 0%Z) deg).*1
          = initial_queue nodes edges) as Hqueue.
  { rewrite (filter_dict_keys (λ m, Z.of_nat (indeg edges m))).
    - rewrite Hkd. unfold initial_queue. apply list_filter_iff. intros m. lia.
    - rewrite Hkd. apply declared_keys_NoDup.
    - by rewrite Hkd. }
  eexists graph, _. unfold kahn_init. rewrite Hbuild. simpl.
  split_and!; try done.
  - intros n Hn. rewrite Hg, dict_get_from_nodes.
    rewrite decide_True by (by apply elem_of_declared_keys). done.
  - constructor; simpl; try done.
    + rewrite Hqueue. apply NoDup_filter, declared_keys_NoDup.
    + intros x. rewrite Hqueue. unfold initial_queue.
      by intros [_ ?]%list_elem_of_filter.
    + intros m Hm. by rewrite pending_nil, Hdeg.
    + intros m Hm. rewrite Hqueue, pending_nil. unfold initial_queue.
      rewrite list_elem_of_filter. naive_solver.
    + intros e _ []%elem_of_nil.
Qed.

Lemma get_execution_order_spec nodes edges :
  endpoint_closed nodes edges →
  ∃ stf rest, get_execution_order nodes edges = Ret (order stf) ∧
    kahn_inv edges (declared_keys nodes) stf ∧ queue stf = [] ∧
    order stf = initial_queue nodes edges ++ rest.
Proof.
  intros Hcl.
  destruct (kahn_init_spec nodes edges Hcl)
    as (graph & st & Hinit & Hkeys & Hg & Hinv & Hord & Hq).
  assert (∀ e, e ∈ edges → source e ∈ declared_keys nodes
                          ∧ target e ∈ declared_keys nodes) as Hcl'.
  { intros e He. rewrite !elem_of_declared_keys.
    unfold endpoint_closed in Hcl. rewrite Forall_forall in Hcl. by apply Hcl. }
  rewrite <- Hkeys in Hg, Hinv, Hcl'.
  destruct (kahn_loop_spec edges graph Hg Hcl' (S (length nodes)) st Hinv)
    as (stf & rest & Hrun & Hinvf & Hqf & Hordf).
  { rewrite Hkeys. pose proof (declared_keys_length nodes). lia. }
  exists stf, rest. unfold get_execution_order. rewrite Hinit. cbn [res_bind].
  rewrite Hrun, <- Hkeys. split_and!; try done.
  by rewrite Hordf, Hord, Hq.
Qed.

Lemma get_execution_order_not_closed nodes edges :
  ¬ endpoint_closed nodes edges →
  ∃ k, get_execution_order nodes edges = Raise (KeyError k).
Proof.
  rewrite endpoint_closed_keys. intros [k Hk]%build_graph_not_closed.
  exists k. unfold get_execution_order, kahn_init. by rewrite Hk.
Qed.

(** ** Finite graphs: no infinite descent without a cycle *)

Lemma descent_bounded (E : relation string) (Q : string → Prop) (A : list string) :
  (∀ x, ¬ tc E x x) →
  (∀ x, Q x → x ∈ A) →
  (∀ x, Q x → ∃ y, Q y ∧ E y x) →
  ∀ n l x, length A < n + length l →
    NoDup l → (∀ a, a ∈ l → Q a) → Q x → (∀ a, a ∈ l → tc E x a) → False.
Proof.
  intros Hacyc HQA Hpred. induction n as [|n IH]; intros l x Hlen Hnd HlQ Hx Hreach.
  - assert (length l ≤ length A); [|simpl in *; lia].
    apply submseteq_length, NoDup_submseteq; [done|]. intros a Ha. by apply HQA, HlQ.
  - destruct (Hpred x Hx) as (y & Hy & Hyx).
    apply (IH (x :: l) y); simpl; try done.
    + lia.
    + constructor; [|done]. intros Hin. by apply (Hacyc x), Hreach.
    + intros a [->|?]%elem_of_cons; [done | by apply HlQ].
    + intros a [->|?]%elem_of_cons; [by apply tc_once|].
      eapply tc_l; [done | by apply Hreach].
Qed.

Lemma no_descent (E : relation string) (Q : string → Prop) (A : list string) :
  (∀ x, ¬ tc E x x) →
  (∀ x, Q x → x ∈ A) →
  (∀ x, Q x → ∃ y, Q y ∧ E y x) →
  ∀ x, ¬ Q x.
Proof.
  intros Hacyc HQA Hpred x Hx.
  apply (descent_bounded E Q A Hacyc HQA Hpred (S (length A)) [] x); simpl;
    try done; [lia | constructor | |]; by intros a ?%elem_of_nil.
Qed.

(** ** What the final state of Kahn's loop says about the graph *)

Section kahn_final.
Variables (edges : list Edge) (K : list string) (stf : kahn_state).
Hypothesis inv : kahn_inv edges K stf.
Hypothesis done_ : queue stf = [].
Hypothesis closed : ∀ e, e ∈ edges → source e ∈ K ∧ target e ∈ K.

Lemma final_NoDup : NoDup (order stf).
Proof. pose proof (inv_nodup _ _ _ inv) as H. by rewrite done_, app_nil_r in H. Qed.

Lemma final_sub x : x ∈ order stf → x ∈ K.
Proof.
  intros Hx. apply (inv_sub _ _ _ inv). by rewrite done_, app_nil_r.
Qed.

Lemma final_paths u v :
  tc (edge_rel edges) u v → v ∈ order stf → before (order stf) u v = true.
Proof.
  induction 1 as [u v Huv|u y v Huy Hyv IH]; intros Hv.
  - by apply (inv_topo _ _ _ inv _ Huv).
  - specialize (IH Hv). eapply before_trans; [|done].
    apply (inv_topo _ _ _ inv _ Huy). simpl. by apply before_In in IH as [? _].
Qed.

Lemma final_no_cycle_node x : on_cycle edges x → x ∉ order stf.
Proof.
  intros Hc Hx. pose proof (final_paths x x Hc Hx) as Hb.
  by rewrite before_irrefl in Hb.
Qed.

Lemma final_complete : acyclic edges → ∀ x, x ∈ K → x ∈ order stf.
Proof.
  intros Hacyc x Hx. destruct (decide (x ∈ order stf)) as [|Hno]; [done|].
  exfalso.
  apply (no_descent (edge_rel edges) (λ y, y ∈ K ∧ y ∉ order stf) K Hacyc)
    with (x := x); [naive_solver| |done].
  intros y [Hy Hyo].
  assert (pending edges (order stf) y ≠ 0) as Hp.
  { intros Hz. apply Hyo. apply (inv_ready _ _ _ inv y Hy) in Hz.
    by rewrite done_, app_nil_r in Hz. }
  rewrite pending_zero in Hp.
  destruct (decide (Forall (λ e, target e = y → source e ∈ order stf) edges))
    as [Hall|Hex].
  { destruct Hp. intros e He. rewrite Forall_forall in Hall. by apply Hall. }
  apply not_Forall_Exists in Hex; [|apply _].
  apply Exists_exists in Hex as ([s t] & He & Hne). simpl in Hne.
  destruct (decide (t = y)) as [->|]; [|naive_solver].
  exists s. split_and!.
  - by destruct (closed _ He).
  - naive_solver.
  - done.
Qed.
End kahn_final.

(** ** The depth-first search of [_check_for_cycles] *)

Section dfs.
Variable graph : dict (list string).
Variable U : gset string.
Let nbrs (n : string) : list string := default [] (dict_get n graph).
Let E : relation string := graph_rel graph.
Hypothesis U_closed : ∀ u v, E u v → v ∈ U.

Lemma finished_mono st st' x : dfs_post graph U st st' → finished st x → finished st' x.
Proof. intros (HR & HV & _) [Hv Hr]. split; [set_solver | by rewrite HR]. Qed.

Lemma dfs_post_refl st : dfs_ok graph U st → dfs_post graph U st st.
Proof. by intros ?. Qed.

Lemma dfs_post_trans st1 st2 st3 :
  dfs_post graph U st1 st2 → dfs_post graph U st2 st3 → dfs_post graph U st1 st3.
Proof.
  intros (HR & HV & _) (HR' & HV' & Hok). split_and!; [congruence | set_solver | done].
Qed.

Lemma scan_spec rec bound :
  call_spec graph U rec bound →
  ∀ ns st n, dfs_ok graph U st → n ∈ rec_stack st →
    size (U ∖ visited st) ≤ bound →
    (∀ x, x ∈ rec_stack st → rtc E x n) →
    (∀ m, m ∈ ns → E n m) →
    ∃ b st', scan_neighbors rec ns st = Ret (b, st') ∧
      if b : bool then ∃ x, tc E x x
      else dfs_post graph U st st' ∧ ∀ m, m ∈ ns → finished st' m.
Proof.
  intros Hrec. induction ns as [|m ns IH]; intros st n Hok Hn Hsize Hstack Hns; simpl.
  - exists false, st. split_and!; [done | by apply dfs_post_refl |].
    by intros m ?%elem_of_nil.
  - assert (E n m) as Hnm by (apply Hns; by left).
    assert (∀ m', m' ∈ ns → E n m') as Hns' by (intros m' ?; apply Hns; by right).
    case_bool_decide as Hvis.
    + destruct (Hrec m st Hvis) as (b & st1 & Hcall & Hres); try done.
      { by eapply U_closed. }
      { intros x Hx. eapply rtc_r; [by apply Hstack | done]. }
      rewrite Hcall. simpl. destruct b; [by exists true, st1|].
      destruct Hres as [Hpost Hm].
      destruct Hpost as (HR & HV & Hok1).
      destruct (IH st1 n Hok1) as (b & st2 & Hscan & Hres2); try done.
      { by rewrite HR. }
      { etrans; [|exact Hsize]. apply subseteq_size. set_solver. }
      { intros x. rewrite HR. apply Hstack. }
      exists b, st2. split; [done|]. destruct b; [done|].
      destruct Hres2 as [Hpost2 Hfin]. split.
      * eapply dfs_post_trans; [|done]. done.
      * intros m' [->|?]%elem_of_cons; [|by apply Hfin].
        apply (finished_mono st1); [done|]. split; [done|].
        rewrite HR. destruct Hok as (Hsub & _). set_solver.
    + case_bool_decide as Hst.
      * exists true, st. split; [done|]. exists m.
        eapply tc_rtc_l; [by apply Hstack | by apply tc_once].
      * destruct (IH st n Hok) as (b & st2 & Hscan & Hres2); try done.
        exists b, st2. split; [done|]. destruct b; [done|].
        destruct Hres2 as [Hpost2 Hfin]. split; [done|].
        intros m' [->|?]%elem_of_cons; [|by apply Hfin].
        by apply (finished_mono st).
Qed.

Lemma has_cycle_spec fuel : call_spec graph U (has_cycle fuel graph) fuel.
Proof.
  induction fuel as [|fuel IH]; intros n st Hvis HnU Hok Hsize Hstack.
  - exfalso. assert (size (U ∖ visited st) ≠ 0); [|lia].
    apply size_non_empty_iff. set_solver.
  - destruct Hok as (Hsub & HVU & Hcl & Hac).
    simpl. fold (nbrs n).
    set (st1 := {| visited := {[n]} ∪ visited st; rec_stack := {[n]} ∪ rec_stack st |}).
    assert (∀ x, finished st1 x ↔ finished st x) as Hfin1.
    { intros x. unfold finished, st1. simpl. set_solver. }
    destruct (scan_spec _ fuel IH (nbrs n) st1 n) as (b & st2 & Hscan & Hres).
    { unfold dfs_ok. split_and!.
      - simpl. set_solver.
      - simpl. set_solver.
      - intros u v Hu Huv. apply Hfin1. eapply Hcl; [|done]. by apply Hfin1.
      - intros u Hu. by apply Hac, Hfin1. }
    { simpl. set_solver. }
    { simpl. assert (size (U ∖ ({[n]} ∪ visited st)) < size (U ∖ visited st)); [|lia].
      apply subset_size. set_solver. }
    { simpl. intros x [->%elem_of_singleton|Hx]%elem_of_union; [done|].
      by apply Hstack. }
    { done. }
    rewrite Hscan. simpl. destruct b; [by exists true, st2|].
    destruct Hres as [(HR & HV & Hsub2 & HVU2 & Hcl2 & Hac2) Hnb].
    simpl in HR, HV.
    rewrite bool_decide_eq_true_2 by (rewrite HR; set_solver).
    eexists false, _. split; [done|].
    assert (n ∉ rec_stack st) as Hnr by set_solver.
    assert (rec_stack st2 ∖ {[n]} = rec_stack st) as HR3.
    { rewrite HR. set_solver. }
    assert (∀ x, finished {| visited := visited st2;
                             rec_stack := rec_stack st2 ∖ {[n]} |} x
                 ↔ finished st2 x ∨ x = n) as Hfin3.
    { intros x. unfold finished. simpl. rewrite HR3, HR.
      destruct (decide (x = n)) as [->|]; set_solver. }
    split; [|simpl; set_solver].
    split_and!; simpl; [done | set_solver |].
    unfold dfs_ok. simpl. split_and!; [set_solver | done | |].
    + intros u v [Hu| ->]%Hfin3 Huv; apply Hfin3; left.
      * by eapply Hcl2.
      * by apply Hnb.
    + intros u [Hu| ->]%Hfin3; [by apply Hac2|].
      intros Hcyc. apply tc_rtc in Hcyc as Hcyc'.
      inversion Hcyc as [? ? Hnn|? m ? Hnm Hmn]; subst.
      * specialize (Hnb n Hnn). destruct Hnb as [_ Hnb]. rewrite HR in Hnb. set_solver.
      * assert (finished st2 n) as [_ Hbad].
        { specialize (Hnb m Hnm). apply tc_rtc in Hmn.
          clear -Hnb Hmn Hcl2. induction Hmn as [|x y z Hxy Hyz IH]; [done|].
          apply IH. by eapply Hcl2. }
        rewrite HR in Hbad. set_solver.
Qed.

Lemma roots_loop_spec fuel : ∀ roots st,
  dfs_ok graph U st → rec_stack st = ∅ → size U ≤ fuel →
  (∀ r, r ∈ roots → r ∈ U) →
  ∃ r, roots_loop fuel graph roots st = Ret r ∧
    ((r = (false, "Workflow contains a cycle") ∧ ∃ x, tc E x x) ∨
     (r = (true, "") ∧ ∀ x, x ∈ roots → ¬ tc E x x)).
Proof.
  intros roots. induction roots as [|n roots IH]; intros st Hok HR Hsize Hroots; simpl.
  - eexists. split; [done|]. right. split; [done|]. by intros x ?%elem_of_nil.
  - assert (∀ st', dfs_post graph U st st' → finished st' n →
      ∃ r, roots_loop fuel graph roots st' = Ret r ∧
        ((r = (false, "Workflow contains a cycle") ∧ ∃ x, tc E x x) ∨
         (r = (true, "") ∧ ∀ x, x ∈ n :: roots → ¬ tc E x x))) as Hrest.
    { intros st' Hpost Hn.
      assert (Hpost' := Hpost). destruct Hpost' as (HR' & HV' & Hok').
      destruct (IH st' Hok') as (r & Hrun & Hres).
      - by rewrite HR'.
      - done.
      - intros r ?. apply Hroots. by right.
      - exists r. split; [done|]. destruct Hres as [?|[-> Hres]]; [by left|].
        right. split; [done|].
        intros x [->|Hx]%elem_of_cons; [|by apply Hres].
        destruct Hpost as (_ & _ & _ & _ & _ & Hac). by apply Hac. }
    case_bool_decide as Hvis.
    + destruct (has_cycle_spec fuel n st Hvis) as (b & st1 & Hcall & Hres); try done.
      { apply Hroots. by left. }
      { etrans; [|exact Hsize]. apply subseteq_size. set_solver. }
      { intros x. rewrite HR. set_solver. }
      rewrite Hcall. simpl. destruct b.
      * eexists. split; [done|]. by left.
      * destruct Hres as [Hpost Hn]. apply Hrest; [done|].
        split; [done|]. destruct Hpost as (-> & _). rewrite HR. set_solver.
    + apply Hrest; [by apply dfs_post_refl|].
      split; [done|]. rewrite HR. set_solver.
Qed.
End dfs.

(** ** [_check_for_cycles] against the connection relation *)

Lemma tc_mono {A : Type} (R R' : relation A) x y :
  (∀ a b, R a b → R' a b) → tc R x y → tc R' x y.
Proof.
  intros Hsub. induction 1 as [x y Hxy|x y z Hxy _ IH].
  - by apply tc_once, Hsub.
  - eapply tc_l; [by apply Hsub | done].
Qed.

Lemma size_list_to_set_le (l : list string) :
  size (list_to_set l : gset string) ≤ length l.
Proof.
  induction l as [|x l IH].
  - by rewrite list_to_set_nil, size_empty.
  - rewrite list_to_set_cons, size_union_alt, size_singleton. simpl.
    assert (size (list_to_set l ∖ {[x]} : gset string) ≤ size (list_to_set l : gset string));
      [|lia].
    apply subseteq_size. set_solver.
Qed.

Lemma add_edges_Ret es g g' :
  add_edges es g = Ret g' →
  dict_keys g' = dict_keys g ∧
  (∀ n, dict_get n g' = (λ l, l ++ succs es n) <$> dict_get n g) ∧
  (∀ e, e ∈ es → source e ∈ dict_keys g).
Proof.
  revert g. induction es as [|e es IH]; intros g; simpl.
  - intros [= <-]. split_and!; [done| |by intros e ?%elem_of_nil].
    intros n. destruct (dict_get n g); simpl; [|done]. by rewrite app_nil_r.
  - unfold dict_index.
    destruct (dict_get (source e) g) as [ts|] eqn:Hs; simpl; [|done].
    intros (Hkg & Hg & Hall)%IH.
    assert (source e ∈ dict_keys g) as Hsin by (apply dict_get_is_Some; eauto).
    rewrite dict_keys_set_in in Hkg, Hall by done.
    split_and!; [done| |].
    + intros n. rewrite Hg, succs_cons.
      destruct (decide (source e = n)) as [<-|Hne].
      * rewrite dict_get_set_eq, Hs. simpl. by rewrite <- app_assoc.
      * by rewrite dict_get_set_ne.
    + intros e' [->|?]%elem_of_cons; [done | by apply Hall].
Qed.

Lemma add_edges_closed es g :
  (∀ e, e ∈ es → source e ∈ dict_keys g) → ∃ g', add_edges es g = Ret g'.
Proof.
  revert g. induction es as [|e es IH]; intros g Hall; simpl; [eauto|].
  assert (source e ∈ dict_keys g) as Hs by (apply Hall; by left).
  apply dict_get_is_Some in Hs as Hs'. destruct Hs' as [ts Hts].
  unfold dict_index. rewrite Hts. simpl. apply IH.
  intros e' He'. rewrite dict_keys_set_in by done. apply Hall. by right.
Qed.

(** The search answers the question it is asked: with every connection's
    source declared, it reports a cycle exactly when the connection relation
    has one, and it always returns. *)
Lemma check_for_cycles_spec nodes edges :
  (∀ e, e ∈ edges → source e ∈ ids nodes) →
  (_check_for_cycles nodes edges = Ret (false, "Workflow contains a cycle")
     ∧ ∃ x, on_cycle edges x)
  ∨ (_check_for_cycles nodes edges = Ret (true, "") ∧ acyclic edges).
Proof.
  intros Hsrc.
  destruct (add_edges_closed edges (dict_from_nodes [] nodes)) as [graph Hadd].
  { intros e He. rewrite dict_keys_from_nodes. by apply elem_of_declared_keys, Hsrc. }
  destruct (add_edges_Ret _ _ _ Hadd) as (Hkeys & Hg & _).
  rewrite dict_keys_from_nodes in Hkeys.
  assert (∀ u v, v ∈ default [] (dict_get u graph) ↔ edge_rel edges u v) as HE.
  { intros u v. rewrite Hg, dict_get_from_nodes.
    destruct (decide (u ∈ ids nodes)) as [Hu|Hu]; simpl.
    - apply elem_of_succs.
    - split; [by intros ?%elem_of_nil|]. intros He. destruct Hu.
      by apply (Hsrc _ He). }
  set (U := (list_to_set (ids nodes) ∪ list_to_set (target <$> edges) : gset string)).
  destruct (roots_loop_spec graph U) with
    (fuel := S (length nodes + length edges)) (roots := dict_keys graph)
    (st := {| visited := ∅; rec_stack := ∅ |}) as (r & Hrun & Hres).
  - intros u v Huv%HE. unfold U. apply elem_of_union; right.
    apply elem_of_list_to_set, list_elem_of_fmap.
    by exists {| source := u; target := v |}.
  - unfold dfs_ok, finished. simpl. set_solver.
  - done.
  - unfold U. rewrite size_union_alt.
    pose proof (size_list_to_set_le (ids nodes)) as H1.
    pose proof (size_list_to_set_le (target <$> edges)) as H2.
    unfold ids in H1. rewrite length_fmap in H1. rewrite length_fmap in H2.
    assert (size (list_to_set (target <$> edges) ∖ list_to_set (ids nodes) : gset string)
            ≤ size (list_to_set (target <$> edges) : gset string)); [|unfold ids in *; lia].
    apply subseteq_size. set_solver.
  - intros x. rewrite Hkeys. intros Hx%elem_of_declared_keys. unfold U. set_solver.
  - unfold _check_for_cycles. rewrite Hadd. cbn [res_bind]. rewrite Hrun.
    destruct Hres as [[-> [x Hx]]|[-> Hno]].
    + left. split; [done|]. exists x. eapply tc_mono; [|done].
      intros a b. apply HE.
    + right. split; [done|]. intros u Hu. apply (Hno u).
      * rewrite Hkeys. apply elem_of_declared_keys.
        unfold on_cycle in Hu. inversion Hu as [? ? He|? ? ? He _]; by apply (Hsrc _ He).
      * eapply tc_mono; [|done]. intros a b. apply HE.
Qed.

(** ** The queue is first-in first-out *)






(** ** Claims about [get_execution_order] *)




Lemma endpoint_closed_elem nodes edges e :
  endpoint_closed nodes edges → e ∈ edges →
  source e ∈ ids nodes ∧ target e ∈ ids nodes.
Proof. unfold endpoint_closed. rewrite Forall_forall. auto. Qed.

Lemma on_cycle_source edges x : on_cycle edges x → ∃ y, edge_rel edges x y.
Proof. intros H. inversion H; eauto. Qed.

(** What the search's answer means for a graph whose endpoints are declared. *)
Lemma acyclic_by_check nodes edges msg :
  endpoint_closed nodes edges →
  _check_for_cycles nodes edges = Ret (true, msg) → acyclic edges.
Proof.
  intros Hcl Hrun. destruct (check_for_cycles_spec nodes edges) as [[H _]|[_ H]].
  - intros e He. by destruct (endpoint_closed_elem _ _ _ Hcl He).
  - congruence.
  - done.
Qed.

Lemma cyclic_by_check nodes edges msg :
  endpoint_closed nodes edges →
  _check_for_cycles nodes edges = Ret (false, msg) → cyclic nodes edges.
Proof.
  intros Hcl Hrun. destruct (check_for_cycles_spec nodes edges) as [[_ [x Hx]]|[H _]].
  - intros e He. by destruct (endpoint_closed_elem _ _ _ Hcl He).
  - exists x. split; [|done]. destruct (on_cycle_source _ _ Hx) as [y Hy].
    by destruct (endpoint_closed_elem _ _ _ Hcl Hy).
  - congruence.
Qed.

(** C4: on a graph whose connections join declared stages and form no cycle,
    [get_execution_order] returns a list without repetition that holds
    exactly the declared stage ids (a permutation of the id list when the ids
    are pairwise distinct), in which the source of every connection stands
    strictly before its target; the result is a function of the graph. *)
Theorem execution_order_topological (nodes : list Node) (edges : list Edge) :
  endpoint_closed nodes edges → acyclic edges →
  ∃ o, get_execution_order nodes edges = Ret o ∧
    NoDup o ∧
    (∀ x, x ∈ o ↔ x ∈ ids nodes) ∧
    (NoDup (ids nodes) → o ≡ₚ ids nodes) ∧
    (∀ e, e ∈ edges → before o (source e) (target e) = true) ∧
    (∀ o', get_execution_order nodes edges = Ret o' → o' = o).
Proof.
  intros Hcl Hacyc.
  destruct (get_execution_order_spec nodes edges Hcl)
    as (stf & rest & Hrun & Hinv & Hq & _).
  assert (∀ e, e ∈ edges → source e ∈ declared_keys nodes
                          ∧ target e ∈ declared_keys nodes) as Hcl'.
  { intros e He. rewrite !elem_of_declared_keys. by apply (endpoint_closed_elem _ edges). }
  pose proof (final_NoDup _ _ _ Hinv Hq) as Hnd.
  assert (∀ x, x ∈ order stf ↔ x ∈ ids nodes) as Hmem.
  { intros x. rewrite <- elem_of_declared_keys. split.
    - by apply (final_sub _ _ _ Hinv Hq).
    - by apply (final_complete _ _ _ Hinv Hq Hcl' Hacyc). }
  exists (order stf). split_and!; try done.
  - intros Hids. by apply NoDup_Permutation.
  - intros e He. apply (inv_topo _ _ _ Hinv _ He).
    apply Hmem. by destruct (endpoint_closed_elem _ _ _ Hcl He).
  - intros o'. rewrite Hrun. by intros [= <-].
Qed.

(** C4, witness: Input → Retrieval → Output, declared out of order. *)
Lemma execution_order_topological_witness :
  let nodes := [stage "out" "output"; stage "kb" "knowledge_base";
                stage "in" "input"] in
  let edges := [connection "kb" "out"; connection "in" "kb"] in
  (endpoint_closed nodes edges ∧ acyclic edges) ∧
  ∃ o, get_execution_order nodes edges = Ret o ∧
    NoDup o ∧
    (∀ x, x ∈ o ↔ x ∈ ids nodes) ∧
    (NoDup (ids nodes) → o ≡ₚ ids nodes) ∧
    (∀ e, e ∈ edges → before o (source e) (target e) = true) ∧
    (∀ o', get_execution_order nodes edges = Ret o' → o' = o).
Proof.
  assert (endpoint_closed
            [stage "out" "output"; stage "kb" "knowledge_base"; stage "in" "input"]
            [connection "kb" "out"; connection "in" "kb"]) as Hcl.
  { apply (bool_decide_unpack _). vm_compute. exact I. }
  assert (acyclic [connection "kb" "out"; connection "in" "kb"]) as Hac.
  { apply (acyclic_by_check _ _ "" Hcl). vm_compute. reflexivity. }
  split; [by split|]. exact (execution_order_topological _ _ Hcl Hac).
Defined.

(** C5, counterexample: a graph with the cycle A→A among its declared ids
    and a connection to the undeclared id Z; [get_execution_order] raises
    [KeyError] while it builds the in-degree dictionary. *)
Lemma cyclic_input_can_raise :
  let nodes := [stage "A" "input"] in
  let edges := [connection "A" "A"; connection "A" "Z"] in
  cyclic nodes edges ∧ get_execution_order nodes edges = Raise (KeyError "Z").
Proof.
  split; [|reflexivity]. exists "A". split.
  - apply list_elem_of_singleton. reflexivity.
  - apply tc_once. unfold edge_rel. left.
Qed.

(** C5, amended: on a graph whose connections join declared stages and
    contain a directed cycle, [get_execution_order] returns (it raises nothing)
    a list strictly shorter than the list of declared stages; no stage on a
    cycle is in it. *)
Theorem execution_order_cyclic (nodes : list Node) (edges : list Edge) :
  endpoint_closed nodes edges → cyclic nodes edges →
  ∃ o, get_execution_order nodes edges = Ret o ∧
    length o < length nodes ∧
    (∀ x, on_cycle edges x → x ∉ o).
Proof.
  intros Hcl (x & Hx & Hcyc).
  destruct (get_execution_order_spec nodes edges Hcl)
    as (stf & rest & Hrun & Hinv & Hq & _).
  exists (order stf). split_and!; [done| |].
  - pose proof (final_no_cycle_node _ _ _ Hinv x Hcyc) as Hno.
    pose proof (final_NoDup _ _ _ Hinv Hq) as Hnd.
    assert (length (x :: order stf) ≤ length (declared_keys nodes)) as Hlen.
    { apply submseteq_length, NoDup_submseteq; [by constructor|].
      intros y [->|Hy]%elem_of_cons.
      - by apply elem_of_declared_keys.
      - by apply (final_sub _ _ _ Hinv Hq). }
    pose proof (declared_keys_length nodes). simpl in Hlen. lia.
  - intros y Hy. by apply (final_no_cycle_node _ _ _ Hinv).
Qed.

(** C5, witness: the two-stage cycle A→B→A. *)
Lemma execution_order_cyclic_witness :
  let nodes := [stage "A" "input"; stage "B" "output"] in
  let edges := [connection "A" "B"; connection "B" "A"] in
  (endpoint_closed nodes edges ∧ cyclic nodes edges) ∧
  ∃ o, get_execution_order nodes edges = Ret o ∧
    length o < length nodes ∧
    (∀ x, on_cycle edges x → x ∉ o).
Proof.
  assert (endpoint_closed [stage "A" "input"; stage "B" "output"]
            [connection "A" "B"; connection "B" "A"]) as Hcl.
  { apply (bool_decide_unpack _). vm_compute. exact I. }
  assert (cyclic [stage "A" "input"; stage "B" "output"]
            [connection "A" "B"; connection "B" "A"]) as Hcyc.
  { apply (cyclic_by_check _ _ "Workflow contains a cycle" Hcl). vm_compute. reflexivity. }
  split; [by split|]. exact (execution_order_cyclic _ _ Hcl Hcyc).
Defined.

(** ** The checks of [validate] in terms of the graph *)

Lemma recognized_typed node : recognized node → typed node.
Proof. intros (t & Ht & _). by exists t. Qed.

Lemma validate_node_types_Ret nodes :
  Forall typed nodes → ∃ b msg, _validate_node_types nodes = Ret (b, msg).
Proof.
  induction 1 as [|node nodes [t Ht] _ IH]; simpl; [eauto|].
  unfold stage_type in Ht. rewrite Ht. simpl.
  repeat case_bool_decide; eauto.
Qed.

Lemma validate_node_types_true nodes msg :
  _validate_node_types nodes = Ret (true, msg) → msg = "" ∧ types_recognized nodes.
Proof.
  induction nodes as [|node nodes IH]; simpl.
  - intros [= <-]. split; [done | constructor].
  - destruct (get_type (node_data node)) as [t| |] eqn:Ht; simpl; [|done..].
    case_bool_decide as Hne; [done|]. case_bool_decide as Hin; [done|].
    intros [-> Hrest]%IH. split; [done|]. constructor; [|done].
    by exists t.
Qed.

Lemma validate_node_types_ok nodes :
  types_recognized nodes → _validate_node_types nodes = Ret (true, "").
Proof.
  induction 1 as [|node nodes (t & Ht & Hin) _ IH]; simpl; [done|].
  unfold stage_type in Ht. rewrite Ht. simpl.
  rewrite bool_decide_eq_false_2.
  2:{ intros ->. revert Hin. unfold valid_types. set_solver. }
  rewrite bool_decide_eq_false_2 by (by intros ?). done.
Qed.

Lemma connections_loop_true (S : gset string) edges msg :
  connections_loop S edges = (true, msg) →
  msg = "" ∧ Forall (λ e, source e ∈ S ∧ target e ∈ S) edges.
Proof.
  induction edges as [|e edges IH]; simpl.
  - intros [= <-]. split; [done | constructor].
  - case_bool_decide as Hs; [done|]. case_bool_decide as Ht; [done|].
    intros [-> Hrest]%IH. split; [done|]. constructor; [|done].
    done.
Qed.

Lemma connections_loop_ok (S : gset string) edges :
  Forall (λ e, source e ∈ S ∧ target e ∈ S) edges →
  connections_loop S edges = (true, "").
Proof.
  induction 1 as [|e edges [Hs Ht] _ IH]; simpl; [done|].
  rewrite !bool_decide_eq_false_2 by (by intros ?). done.
Qed.

Lemma validate_connections_true nodes edges msg :
  _validate_connections nodes edges = (true, msg) →
  msg = "" ∧ endpoint_closed nodes edges.
Proof.
  unfold _validate_connections. intros [-> H]%connections_loop_true.
  split; [done|]. unfold endpoint_closed, ids.
  eapply Forall_impl; [exact H|]. intros e. simpl. by rewrite !elem_of_list_to_set.
Qed.

Lemma validate_connections_ok nodes edges :
  endpoint_closed nodes edges → _validate_connections nodes edges = (true, "").
Proof.
  intros H. unfold _validate_connections. apply connections_loop_ok.
  eapply Forall_impl; [exact H|]. intros e. simpl.
  unfold ids. by rewrite !elem_of_list_to_set.
Qed.

Lemma validate_component_configs_Ret nodes :
  Forall typed nodes → ∃ b msg, _validate_component_configs nodes = Ret (b, msg).
Proof.
  induction 1 as [|node nodes [t Ht] _ IH]; simpl; [eauto|].
  unfold stage_type in Ht. rewrite Ht. simpl.
  destruct (_ && _); eauto.
Qed.

Lemma validate_component_configs_ok nodes :
  Forall typed nodes → parameters_present nodes →
  _validate_component_configs nodes = Ret (true, "").
Proof.
  induction 1 as [|node nodes [t Ht] _ IH]; intros Hp; simpl; [done|].
  inversion Hp as [|? ? Hnode Hrest]; subst.
  unfold stage_type in Ht. rewrite Ht. simpl.
  case_bool_decide as Hllm; simpl; [|by apply IH].
  rewrite Hnode; [by apply IH|]. by exists t.
Qed.

Lemma any_type_spec (p : string → bool) nodes :
  Forall typed nodes →
  let hit := λ node, ∃ t, stage_type node = Ret t ∧ p t = true in
  (any_type p nodes = Ret true ∧ Exists hit nodes)
  ∨ (any_type p nodes = Ret false ∧ ¬ Exists hit nodes).
Proof.
  intros Hty hit. induction Hty as [|node nodes [t Ht] _ IH]; simpl.
  - right. split; [done|]. by intros ?%Exists_nil.
  - unfold stage_type in Ht. rewrite Ht. simpl. destruct (p t) eqn:Hp.
    + left. split; [done|]. left. by exists t.
    + destruct IH as [[-> Hex]|[-> Hno]].
      * left. split; [done|]. by right.
      * right. split; [done|]. intros [(t' & Ht' & Hp')|?]%Exists_cons; [|done].
        unfold stage_type in Ht'. congruence.
Qed.

Lemma validate_workflow_flow_spec nodes :
  Forall typed nodes →
  (has_input_stage nodes ∧ has_output_stage nodes
   ∧ _validate_workflow_flow nodes = Ret (true, ""))
  ∨ (¬ (has_input_stage nodes ∧ has_output_stage nodes)
     ∧ ∃ msg, _validate_workflow_flow nodes = Ret (false, msg)).
Proof.
  intros Hty. unfold _validate_workflow_flow.
  assert (∀ ts, Exists (λ node, ∃ t, stage_type node = Ret t
                          ∧ bool_decide (t ∈ ts) = true) nodes
                ↔ Exists (classified ts) nodes) as Hin.
  { intros ts. apply Exists_proper; [|done]. intros node.
    unfold classified. setoid_rewrite bool_decide_eq_true. done. }
  assert (Exists (λ node, ∃ t, stage_type node = Ret t
                          ∧ bool_decide (t = "output") = true) nodes
          ↔ has_output_stage nodes) as Hout.
  { apply Exists_proper; [|done]. intros node.
    unfold classified. setoid_rewrite bool_decide_eq_true.
    setoid_rewrite list_elem_of_singleton. done. }
  destruct (any_type_spec (λ t, bool_decide (t ∈ input_types)) nodes Hty)
    as [[-> Hi]|[-> Hi]];
    destruct (any_type_spec (λ t, bool_decide (t = "output")) nodes Hty)
    as [[-> Ho]|[-> Ho]]; simpl.
  - left. split_and!; [by apply Hin | by apply Hout | done].
  - right. split; [|eauto]. intros [_ ?]. by apply Ho, Hout.
  - right. split; [|eauto]. intros [? _]. by apply Hi, Hin.
  - right. split; [|eauto]. intros [? _]. by apply Hi, Hin.
Qed.

Lemma is_empty_false {A : Type} (l : list A) : l ≠ [] → is_empty l = false.
Proof. by destruct l. Qed.

(** Every check passed in turn: the graph is valid. *)
Lemma validate_valid nodes edges :
  nodes ≠ [] → (length nodes ≤ 1 ∨ edges ≠ []) →
  types_recognized nodes → endpoint_closed nodes edges → acyclic edges →
  parameters_present nodes → has_input_stage nodes → has_output_stage nodes →
  validate nodes edges = Ret (true, "Workflow is valid").
Proof.
  intros Hn He Hty Hcl Hac Hp Hi Ho. unfold validate.
  assert (Forall typed nodes) as Htyped
    by (eapply Forall_impl; [exact Hty | apply recognized_typed]).
  rewrite is_empty_false by done.
  assert ((1 <? length nodes) && is_empty edges = false) as ->.
  { destruct He as [?|?].
    - rewrite (proj2 (Nat.ltb_ge _ _)) by done. done.
    - rewrite (is_empty_false edges) by done. apply andb_false_r. }
  rewrite validate_node_types_ok by done. simpl.
  rewrite validate_connections_ok by done. simpl.
  destruct (check_for_cycles_spec nodes edges) as [[_ [x Hx]]|[-> _]].
  { intros e H. by destruct (endpoint_closed_elem _ _ _ Hcl H). }
  { by destruct (Hac x). }
  simpl. rewrite validate_component_configs_ok by done. simpl.
  destruct (validate_workflow_flow_spec nodes Htyped) as [(_ & _ & ->)|[Hno _]].
  - done.
  - by destruct Hno.
Qed.

(** A cycle is reported, with its own message, once the types and the
    endpoints have passed. *)
Lemma validate_cyclic nodes edges :
  types_recognized nodes → endpoint_closed nodes edges → cyclic nodes edges →
  validate nodes edges = Ret (false, "Workflow contains a cycle").
Proof.
  intros Hty Hcl Hcyc. unfold validate.
  destruct Hcyc as (x & Hx & Hcyc).
  assert (nodes ≠ []) as Hn.
  { intros ->. by apply elem_of_nil in Hx. }
  assert (edges ≠ []) as He.
  { destruct (on_cycle_source _ _ Hcyc) as [y Hy]. intros ->.
    by apply elem_of_nil in Hy. }
  rewrite !is_empty_false by done. rewrite andb_false_r.
  rewrite validate_node_types_ok by done. simpl.
  rewrite validate_connections_ok by done. simpl.
  destruct (check_for_cycles_spec nodes edges) as [[-> _]|[_ Hac]].
  { intros e H. by destruct (endpoint_closed_elem _ _ _ Hcl H). }
  - done.
  - by destruct (Hac x).
Qed.

(** A graph without an Output-classified stage never passes. *)
Lemma validate_no_output nodes edges :
  Forall typed nodes → ¬ has_output_stage nodes →
  ∃ msg, validate nodes edges = Ret (false, msg).
Proof.
  intros Hty Hno. unfold validate.
  destruct (is_empty nodes); [eauto|].
  destruct (_ && _); [eauto|].
  destruct (validate_node_types_Ret nodes Hty) as (b & msg & ->). simpl.
  destruct b; simpl; [|eauto].
  destruct (_validate_connections nodes edges) as [[|] msg'] eqn:Hc; simpl; [|eauto].
  apply validate_connections_true in Hc as [-> Hcl].
  destruct (check_for_cycles_spec nodes edges) as [[-> _]|[-> _]].
  { intros e H. by destruct (endpoint_closed_elem _ _ _ Hcl H). }
  { simpl. eauto. }
  simpl. destruct (validate_component_configs_Ret nodes Hty) as (b & msg' & ->).
  simpl. destruct b; simpl; [|eauto].
  destruct (validate_workflow_flow_spec nodes Hty) as [(_ & ? & _)|[_ [msg'' ->]]].
  - done.
  - simpl. eauto.
Qed.

(** A graph that [validate] accepts has declared endpoints and no cycle:
    this is what [execute] knows when it asks for the execution order. *)
Lemma validate_true_inv nodes edges msg :
  validate nodes edges = Ret (true, msg) →
  types_recognized nodes ∧ endpoint_closed nodes edges ∧ acyclic edges.
Proof.
  unfold validate.
  destruct (is_empty nodes); [done|].
  destruct (_ && _); [done|].
  destruct (_validate_node_types nodes) as [[[] m1]| |] eqn:Hty; simpl; [|done..].
  apply validate_node_types_true in Hty as [_ Hty].
  destruct (_validate_connections nodes edges) as [[] m2] eqn:Hc; simpl; [|done].
  apply validate_connections_true in Hc as [_ Hcl].
  destruct (_check_for_cycles nodes edges) as [[[] m3]| |] eqn:Hcyc; simpl; [|done..].
  intros _. split_and!; [done | done |]. by eapply acyclic_by_check.
Qed.

(** ** Claims about [validate] *)

(** C6, counterexample: an input stage with a connection to itself and an
    output stage.  The graph has a cycle and [validate] reports it; with the
    connection A→A removed no connection is left between the two stages,
    and [validate] answers false although types, endpoints, input/output
    classification and parameters are all in order. *)
Lemma cycle_edge_removed_not_valid :
  let nodes := [stage "A" "input"; stage "B" "output"] in
  types_recognized nodes ∧ endpoint_closed nodes [connection "A" "A"]
  ∧ cyclic nodes [connection "A" "A"]
  ∧ validate nodes [connection "A" "A"] = Ret (false, "Workflow contains a cycle")
  ∧ acyclic [] ∧ parameters_present nodes
  ∧ has_input_stage nodes ∧ has_output_stage nodes
  ∧ validate nodes [] = Ret (false, "Workflow components must be connected").
Proof.
  assert (endpoint_closed [stage "A" "input"; stage "B" "output"]
            [connection "A" "A"]) as Hcl by by_evaluation.
  split_and!; try by_evaluation; try reflexivity.
  - by apply (cyclic_by_check _ _ "Workflow contains a cycle" Hcl).
  - intros u Hu. destruct (on_cycle_source _ _ Hu) as [y Hy].
    by apply elem_of_nil in Hy.
Qed.

(** C6, amended: on a graph with recognized types and declared endpoints
    that contains a directed cycle, [validate] returns false with the cycle
    message, wherever the cycle lies (the search starts from every stage not
    yet visited).  If removing one connection leaves the graph acyclic and
    still connected by at least one connection, and the required parameters
    and an input and an output stage are present, [validate] returns true on
    the graph without that connection. *)
Theorem validate_cycle_detection (nodes : list Node) (edges : list Edge) :
  types_recognized nodes → endpoint_closed nodes edges → cyclic nodes edges →
  validate nodes edges = Ret (false, "Workflow contains a cycle") ∧
  ∀ edges1 e edges2,
    edges = edges1 ++ e :: edges2 →
    acyclic (edges1 ++ edges2) → edges1 ++ edges2 ≠ [] →
    parameters_present nodes → has_input_stage nodes → has_output_stage nodes →
    validate nodes (edges1 ++ edges2) = Ret (true, "Workflow is valid").
Proof.
  intros Hty Hcl Hcyc. split; [by apply validate_cyclic|].
  intros edges1 e edges2 -> Hac Hne Hp Hi Ho.
  apply validate_valid; try done.
  - destruct Hcyc as (x & Hx & _). intros ->. by apply elem_of_nil in Hx.
  - by right.
  - unfold endpoint_closed in *. rewrite Forall_app in *.
    destruct Hcl as [H1 H2]. split; [done|]. by inversion H2.
Qed.

(** C6, witness: the cycle x→y→x lies in a part of the graph that is not
    connected to the first declared stages. *)
Lemma validate_cycle_detection_witness :
  let nodes := [stage "in" "Input"; stage "out" "output";
                stage "x" "knowledge_base"; stage "y" "knowledgeBase"] in
  let edges1 := [connection "in" "out"; connection "x" "y"] in
  let e := connection "y" "x" in
  (types_recognized nodes ∧ endpoint_closed nodes (edges1 ++ [e])
   ∧ cyclic nodes (edges1 ++ [e]) ∧ acyclic edges1 ∧ edges1 ≠ []
   ∧ parameters_present nodes ∧ has_input_stage nodes ∧ has_output_stage nodes)
  ∧ validate nodes (edges1 ++ [e]) = Ret (false, "Workflow contains a cycle")
  ∧ validate nodes edges1 = Ret (true, "Workflow is valid").
Proof.
  set (nodes := [stage "in" "Input"; stage "out" "output";
                 stage "x" "knowledge_base"; stage "y" "knowledgeBase"]).
  set (edges1 := [connection "in" "out"; connection "x" "y"]).
  set (e := connection "y" "x").
  assert (types_recognized nodes) as Hty by by_evaluation.
  assert (endpoint_closed nodes (edges1 ++ [e])) as Hcl by by_evaluation.
  assert (endpoint_closed nodes edges1) as Hcl1 by by_evaluation.
  assert (cyclic nodes (edges1 ++ [e])) as Hcyc.
  { apply (cyclic_by_check _ _ "Workflow contains a cycle" Hcl). by vm_compute. }
  assert (acyclic edges1) as Hac.
  { apply (acyclic_by_check nodes _ "" Hcl1). by vm_compute. }
  assert (parameters_present nodes) as Hp by by_evaluation.
  assert (has_input_stage nodes) as Hi by by_evaluation.
  assert (has_output_stage nodes) as Ho by by_evaluation.
  destruct (validate_cycle_detection nodes (edges1 ++ [e]) Hty Hcl Hcyc) as [H1 H2].
  split; [by split_and!|]. split; [exact H1|].
  rewrite <- (app_nil_r edges1).
  apply (H2 edges1 e []); rewrite ?app_nil_r; done.
Defined.

(** ** The registry *)

(** Construction succeeds exactly when the lower-cased type is, letter for
    letter, a key of the registry. *)
Lemma create_component_spec OpenAI node_id node_data t :
  get_type node_data = Ret t →
  match dict_get t COMPONENT_REGISTRY with
  | Some cls =>
      create_component OpenAI node_id node_data
      = construct OpenAI cls node_id node_data
  | None =>
      create_component OpenAI node_id node_data
      = Raise (ValueError ("Unknown component type: " +:+ t))
  end.
Proof.
  intros Ht. unfold create_component. rewrite Ht. cbn [res_bind].
  by destruct (dict_get t COMPONENT_REGISTRY).
Qed.

(** C2: the registry is looked up with the lower-cased type, but three of
    its keys are spelled in camel case.  The types "userQuery",
    "knowledgeBase" and "llmEngine" pass the validator's type check and
    are keys of the registry, yet [create_component] raises the
    unknown-component-type error for each of them. *)
Theorem create_component_rejects_camel_case_keys (OpenAI : res unit)
    (node_id : string) :
  Forall (λ t,
    recognized {| node_id := node_id; node_data := [("type", PStr t)] |}
    ∧ t ∈ dict_keys COMPONENT_REGISTRY
    ∧ create_component OpenAI node_id [("type", PStr t)]
      = Raise (ValueError ("Unknown component type: " +:+ lower t)))
    ["userQuery"; "knowledgeBase"; "llmEngine"].
Proof.
  repeat (apply List.Forall_cons;
    [split_and!; [by_evaluation | by_evaluation | reflexivity]|]).
  apply List.Forall_nil.
Qed.

(** ** Claims about [execute] *)

Lemma slice_to_length n s : String.length (slice_to n s) ≤ n.
Proof.
  revert s. induction n as [|n IH]; intros [|c s]; simpl; try lia.
  specialize (IH s). lia.
Qed.

Section execute_facts.
Variable World : Type.
Variable stage_execute : Component → PyValue → World → res PyValue * World.
Variable py_str : PyValue → string.
Variable clock : World → string * World.
Variable OpenAI : res unit.

Lemma run_stages_pipeline components order : ∀ payload log w payload' log' w',
  run_stages World stage_execute py_str clock order components payload log w
    = (Ret payload', log', w') →
  pipeline World stage_execute py_str clock components order payload log w payload' log' w'.
Proof.
  induction order as [|node_id rest IH]; intros payload log w payload' log' w'; simpl.
  - intros [= <- <- <-]. constructor.
  - destruct (dict_get node_id components) as [component|] eqn:Hc; [|done].
    unfold _log_execution.
    destruct (clock w) as [t1 w1] eqn:Hc1.
    destruct (stage_execute component payload w1) as [[result| |] w2] eqn:Hex;
      [|done..].
    destruct (clock w2) as [t2 w3] eqn:Hc2.
    intros Hrun%IH. econstructor; try done.
    by rewrite <- app_assoc in Hrun.
Qed.

Lemma pipeline_log components order payload log w payload' log' w' :
  pipeline World stage_execute py_str clock components order payload log w payload' log' w' →
  ∃ new, log' = log ++ new ∧
    (λ e, (log_node_id e, status e)) <$> new
      = order ≫= (λ n, [(n, "started"); (n, "completed")]) ∧
    Forall (λ e, ∃ data, data_preview e = preview py_str data) new.
Proof.
  induction 1 as [|node_id rest component payload log w t1 w1 result w2 t2 w3
                   payload' log' w' _ _ _ _ _ (new & -> & Hshape & Hprev)].
  - exists []. by rewrite app_nil_r.
  - eexists (_ :: _ :: new). rewrite <- app_assoc. split_and!; [done| |].
    + csimpl. by rewrite Hshape.
    + repeat constructor; [by exists payload | by exists result | done].
Qed.

Lemma preview_length data : String.length (preview py_str data) ≤ 200.
Proof.
  unfold preview. destruct (truthy data); [apply slice_to_length | simpl; lia].
Qed.

(** The stages of a pipeline, one after the other. *)
Lemma pipeline_runs components order payload log w payload' log' w' :
  pipeline World stage_execute py_str clock components order payload log w payload' log' w' →
  ∃ runs,
    run_node_id <$> runs = order
    ∧ log' = log ++ (runs ≫= entries_of py_str)
    ∧ chained payload runs payload'
    ∧ Forall (λ s, ∃ component w1 w2,
                dict_get (run_node_id s) components = Some component
                ∧ stage_execute component (run_input s) w1 = (Ret (run_output s), w2))
        runs.
Proof.
  induction 1 as [|node_id rest component payload log w t1 w1 result w2 t2 w3
                   payload' log' w' Hget _ Hex _ _ (runs & Hids & -> & Hchain & Hall)].
  - exists []. by rewrite app_nil_r.
  - exists ({| run_node_id := node_id; run_input := payload; run_output := result;
               started_at := t1; completed_at := t2 |} :: runs).
    split_and!.
    + csimpl. by rewrite Hids.
    + by rewrite <- app_assoc.
    + by split.
    + constructor; [|done]. by exists component, w1, w2.
Qed.

Lemma initialize_components_spec nodes : ∀ components0 components,
  _initialize_components OpenAI nodes components0 = (Ret (), components) →
  ∀ n component,
    dict_get n components = Some component →
    dict_get n components0 = Some component
    ∨ ∃ node, node ∈ nodes ∧ node_id node = n
        ∧ create_component OpenAI n (node_data node) = Ret component.
Proof.
  induction nodes as [|node nodes IH]; intros components0 components; simpl.
  - intros [= <-] n component ?. by left.
  - destruct (create_component OpenAI (node_id node) (node_data node))
      as [c| |] eqn:Hc; [|done..].
    intros Hinit n component Hget.
    destruct (IH _ _ Hinit n component Hget) as [Hold|(node' & Hin & Hid & Hcr)].
    + destruct (decide (node_id node = n)) as [<-|Hne].
      * rewrite dict_get_set_eq in Hold. injection Hold as <-.
        right. exists node. split_and!; [by left | done | done].
      * rewrite dict_get_set_ne in Hold by done. by left.
    + right. exists node'. split_and!; [by right | done | done].
Qed.

Lemma final_output_Ret payload final :
  final_output py_str payload = Ret final →
  ∃ d, payload = PDict d ∧ final = output_of py_str d.
Proof.
  destruct payload as [| | | | |d]; simpl; try done.
  intros [= <-]. exists d. split; [done|]. unfold output_of.
  by destruct (dict_get "response" d), (dict_get "output" d).
Qed.

(** What a successful return of [execute] went through. *)
Lemma execute_success_inv self query w r self' w' :
  execute World stage_execute py_str clock OpenAI self query w = (Ret r, self', w') →
  success r = true →
  ∃ order components payload d,
    validate (self_nodes self) (self_edges self) = Ret (true, "Workflow is valid") ∧
    get_execution_order (self_nodes self) (self_edges self) = Ret order ∧
    _initialize_components OpenAI (self_nodes self) (self_components self)
      = (Ret (), components) ∧
    run_stages World stage_execute py_str clock order components
      (PDict [("query", PStr query)]) (self_execution_log self) w
      = (Ret payload, execution_log r, w') ∧
    payload = PDict d ∧ output r = output_of py_str d ∧ full_output r = Some payload ∧
    self_components self' = components ∧
    self_execution_log self' = execution_log r.
Proof.
  unfold execute.
  destruct (validate _ _) as [[is_valid msg]| |] eqn:Hval; [|done..].
  destruct is_valid; simpl; [|by intros [= <- _ _]].
  assert (msg = "Workflow is valid") as ->.
  { revert Hval. unfold validate.
    repeat (match goal with
            | |- context [if ?b then _ else _] => destruct b
            | |- context [res_bind ?m _] => destruct m as [[[] ?]| |]; simpl
            | |- context [let '(_, _) := ?p in _] => destruct p as [[] ?]; simpl
            end; try done); by intros [= <-]. }
  destruct (get_execution_order _ _) as [order| |]; [|done..].
  destruct (_initialize_components OpenAI _ _) as [[[]| |] components] eqn:Hinit; [|done..].
  destruct (run_stages _ _ _ _ _ _ _ _ _) as [[rp log] w1] eqn:Hrun.
  destruct rp as [payload| |]; simpl; [|by intros [= <- _ _]|done].
  destruct (final_output py_str payload) as [final| |] eqn:Hfin; simpl;
    [|by intros [= <- _ _]|done].
  intros [= <- <- <-] _. simpl.
  destruct (final_output_Ret _ _ Hfin) as (d & -> & ->).
  exists order, components, (PDict d), d. by split_and!.
Qed.
(** Once the stages are constructed nothing escapes [execute]: whatever the
    stage loop ends with, short of not ending, is returned as a dictionary
    that carries the log written so far; a failure has a message. *)
Lemma execute_structured_after_construction self query w order components :
  validate (self_nodes self) (self_edges self) = Ret (true, "Workflow is valid") →
  get_execution_order (self_nodes self) (self_edges self) = Ret order →
  _initialize_components OpenAI (self_nodes self) (self_components self)
    = (Ret (), components) →
  ∀ rp log w1,
    run_stages World stage_execute py_str clock order components
      (PDict [("query", PStr query)]) (self_execution_log self) w = (rp, log, w1) →
    rp ≠ Timeout →
    ∃ r self',
      execute World stage_execute py_str clock OpenAI self query w = (Ret r, self', w1) ∧
      execution_log r = log ∧
      (success r = false → ∃ msg, error r = Some msg ∧ output r = PNone).
Proof.
  intros Hval Hord Hinit rp log w1 Hrun Hrp. unfold execute.
  rewrite Hval, Hord, Hinit. cbn [negb]. rewrite Hrun.
  destruct rp as [payload|e|]; [| |done].
  - cbn [res_bind]. destruct (final_output py_str payload) as [final|e|] eqn:Hfin;
      cbn [res_bind].
    + eexists _, _. split; [done|]. by split.
    + eexists _, _. split; [done|]. split; [done|]. simpl. by eauto.
    + by destruct payload.
  - cbn [res_bind]. eexists _, _. split; [done|]. split; [done|]. simpl. by eauto.
Qed.

(** On an executor that has run before, the log of the earlier runs stays
    in front: [execute] never clears [self.execution_log]. *)
Lemma execute_log_extends self query w r self' w' :
  execute World stage_execute py_str clock OpenAI self query w = (Ret r, self', w') →
  success r = true →
  ∃ order new,
    get_execution_order (self_nodes self) (self_edges self) = Ret order ∧
    execution_log r = self_execution_log self ++ new ∧
    (λ e, (log_node_id e, status e)) <$> new
      = order ≫= (λ n, [(n, "started"); (n, "completed")]).
Proof.
  intros Hrun Hok.
  destruct (execute_success_inv _ _ _ _ _ _ Hrun Hok)
    as (order & components & payload & d & _ & Hord & _ & Hstages & _).
  apply run_stages_pipeline, pipeline_log in Hstages as (new & Hlog & Hshape & _).
  by exists order, new.
Qed.
End execute_facts.

(** C1: [_initialize_components] is called before the [try] block of
    [execute].  On the graph Input → Output whose input stage is declared
    with the type "userQuery", validation passes, the construction of the
    first stage raises [ValueError], and the exception leaves [execute]: no
    result dictionary is returned. *)
Theorem execute_construction_failure_escapes
    (World : Type)
    (stage_execute : Component → PyValue → World → res PyValue * World)
    (py_str : PyValue → string) (clock : World → string * World) (OpenAI : res unit)
    (query : string) (w : World) :
  let nodes := [stage "q" "userQuery"; stage "out" "output"] in
  let edges := [connection "q" "out"] in
  validate nodes edges = Ret (true, "Workflow is valid")
  ∧ get_execution_order nodes edges = Ret ["q"; "out"]
  ∧ execute World stage_execute py_str clock OpenAI (WorkflowExecutor nodes edges) query w
    = (Raise (ValueError "Unknown component type: userquery"),
       WorkflowExecutor nodes edges, w).
Proof. split_and!; reflexivity. Qed.

(** C7: when [validate] answers false, [execute] returns at once the
    failure dictionary with the validator's message, no output and an empty
    log; the executor (its components in particular) and the world are as
    before, whatever the stages would do.  A graph whose declared types are
    strings and that has no Output-classified stage is such a graph. *)
Theorem execute_invalid_graph
    (World : Type)
    (stage_execute : Component → PyValue → World → res PyValue * World)
    (py_str : PyValue → string) (clock : World → string * World) (OpenAI : res unit)
    (self : Executor) (query : string) (w : World) :
  (∀ msg, validate (self_nodes self) (self_edges self) = Ret (false, msg) →
     execute World stage_execute py_str clock OpenAI self query w
     = (Ret {| success := false; error := Some msg; output := PNone;
               execution_log := []; full_output := None |}, self, w))
  ∧ (Forall typed (self_nodes self) → ¬ has_output_stage (self_nodes self) →
     ∃ msg, validate (self_nodes self) (self_edges self) = Ret (false, msg)).
Proof.
  split.
  - intros msg Hval. unfold execute. by rewrite Hval.
  - apply validate_no_output.
Qed.

(** C7, witness: Input → Retrieval, with no output stage. *)
Lemma execute_invalid_graph_witness :
  let nodes := [stage "in" "input"; stage "kb" "knowledge_base"] in
  let edges := [connection "in" "kb"] in
  let self := WorkflowExecutor nodes edges in
  let run := execute unit (λ _ data w, (Ret data, w)) (λ _, "payload")
               (λ w, ("0", w)) (Ret ()) self "hello" () in
  (validate nodes edges = Ret (false, "Workflow must have an Output component")
   ∧ Forall typed nodes ∧ ¬ has_output_stage nodes)
  ∧ run = (Ret {| success := false;
                  error := Some "Workflow must have an Output component";
                  output := PNone; execution_log := []; full_output := None |},
           self, ()).
Proof.
  set (nodes := [stage "in" "input"; stage "kb" "knowledge_base"]).
  set (edges := [connection "in" "kb"]).
  assert (validate nodes edges
          = Ret (false, "Workflow must have an Output component")) as Hval
    by reflexivity.
  split.
  - split_and!; [exact Hval | |by_evaluation].
    repeat constructor; by eexists.
  - exact (proj1 (execute_invalid_graph unit (λ _ data w, (Ret data, w))
                    (λ _, "payload") (λ w, ("0", w)) (Ret ())
                    (WorkflowExecutor nodes edges) "hello" ()) _ Hval).
Defined.

(** C8: a successful run of a freshly constructed executor is the pipeline
    over the computed order, started from the payload [{"query": query}] and
    the empty log; every stage used was built by [create_component] from a
    declaration with its id; the output is taken from the final payload. *)
Theorem execute_success_pipeline
    (World : Type)
    (stage_execute : Component → PyValue → World → res PyValue * World)
    (py_str : PyValue → string) (clock : World → string * World) (OpenAI : res unit)
    (nodes : list Node) (edges : list Edge) (query : string) (w : World)
    (r : RunResult) (self' : Executor) (w' : World) :
  execute World stage_execute py_str clock OpenAI (WorkflowExecutor nodes edges) query w
    = (Ret r, self', w') →
  success r = true →
  ∃ order d,
    get_execution_order nodes edges = Ret order ∧
    pipeline World stage_execute py_str clock (self_components self') order
      (PDict [("query", PStr query)]) [] w
      (PDict d) (execution_log r) w' ∧
    (∀ n component, dict_get n (self_components self') = Some component →
       ∃ node, node ∈ nodes ∧ node_id node = n
         ∧ create_component OpenAI n (node_data node) = Ret component) ∧
    full_output r = Some (PDict d) ∧
    output r = match dict_get "response" d with
               | Some v => v
               | None => match dict_get "output" d with
                         | Some v => v
                         | None => PStr (py_str (PDict d))
                         end
               end.
Proof.
  intros Hrun Hok.
  destruct (execute_success_inv _ _ _ _ _ _ _ _ _ _ _ Hrun Hok)
    as (order & components & payload & d & _ & Hord & Hinit & Hstages
        & -> & Hout & Hfull & Hcomp & _).
  simpl in *. exists order, d. rewrite Hcomp. split_and!; try done.
  - by apply run_stages_pipeline.
  - intros n component Hget.
    destruct (initialize_components_spec _ _ _ _ Hinit n component Hget)
      as [Hold|?]; [done|done].
Qed.

(** C10, counterexample: Input → Output run twice on one executor, every
    stage handing its payload on.  Both runs succeed; two stages are
    executed in the second run, and the log of its result has eight entries:
    the four of the first run are still in front. *)
Lemma second_run_log_keeps_first_run :
  let nodes := [stage "in" "input"; stage "out" "output"] in
  let edges := [connection "in" "out"] in
  let run := execute unit (λ _ data w, (Ret data, w)) (λ _, "payload")
               (λ w, ("0", w)) (Ret ()) in
  let first := run (WorkflowExecutor nodes edges) "hello" () in
  let second := run first.1.2 "again" () in
  get_execution_order nodes edges = Ret ["in"; "out"]
  ∧ ∃ r1 r2,
      first.1.1 = Ret r1 ∧ success r1 = true
      ∧ second.1.1 = Ret r2 ∧ success r2 = true
      ∧ length (execution_log r1) = 4
      ∧ length (execution_log r2) = 8
      ∧ (λ e, (log_node_id e, status e)) <$> execution_log r2
        = [("in", "started"); ("in", "completed");
           ("out", "started"); ("out", "completed");
           ("in", "started"); ("in", "completed");
           ("out", "started"); ("out", "completed")].
Proof. split; [reflexivity|]. eexists _, _. split_and!; reflexivity. Qed.

(** C10, amended: a successful run appends to the executor's log exactly
    two entries per executed stage, in execution order: a started entry with
    the preview of the payload the stage was given, immediately followed by a
    completed entry for the same stage id with the preview of the result the
    stage returned.  The payload given to the first stage is
    [{"query": query}], every later stage is given the result of the stage
    before it, and the last result is the full output.  A preview is the
    first 200 characters of the string of the logged payload, and empty when
    that payload is falsy.  The log of the result is the executor's log
    before the run followed by these entries; for a freshly constructed
    executor it holds these entries and nothing else. *)
Theorem execute_success_log
    (World : Type)
    (stage_execute : Component → PyValue → World → res PyValue * World)
    (py_str : PyValue → string) (clock : World → string * World) (OpenAI : res unit)
    (self : Executor) (query : string) (w : World)
    (r : RunResult) (self' : Executor) (w' : World) :
  execute World stage_execute py_str clock OpenAI self query w = (Ret r, self', w') →
  success r = true →
  ∃ order runs final,
    get_execution_order (self_nodes self) (self_edges self) = Ret order
    ∧ run_node_id <$> runs = order
    ∧ execution_log r = self_execution_log self ++ (runs ≫= entries_of py_str)
    ∧ (self_execution_log self = [] →
       execution_log r = runs ≫= entries_of py_str
       ∧ length (execution_log r) = 2 * length order)
    ∧ chained (PDict [("query", PStr query)]) runs final
    ∧ full_output r = Some final
    ∧ Forall (λ s, ∃ component w1 w2,
                dict_get (run_node_id s) (self_components self') = Some component
                ∧ stage_execute component (run_input s) w1 = (Ret (run_output s), w2))
        runs
    ∧ Forall (λ e,
        (status e = "started" ∨ status e = "completed")
        ∧ String.length (data_preview e) ≤ 200
        ∧ ∃ data, (truthy data = true → data_preview e = slice_to 200 (py_str data))
                  ∧ (truthy data = false → data_preview e = "")
                  ∧ Exists (λ s, data = run_input s ∨ data = run_output s) runs)
        (runs ≫= entries_of py_str).
Proof.
  intros Hrun Hok.
  destruct (execute_success_inv _ _ _ _ _ _ _ _ _ _ _ Hrun Hok)
    as (order & components & payload & d & _ & Hord & _ & Hstages
        & _ & _ & Hfull & Hcomp & _).
  apply run_stages_pipeline, pipeline_runs in Hstages
    as (runs & Hids & Hlog & Hchain & Hex).
  exists order, runs, payload. rewrite Hcomp.
  assert (length (runs ≫= entries_of py_str) = 2 * length order) as Hlen.
  { rewrite <- Hids, length_fmap. clear. induction runs as [|s runs IH]; [done|].
    csimpl. rewrite IH. lia. }
  split_and!; try done.
  - intros Hnil. rewrite Hnil in Hlog. simpl in Hlog. by rewrite Hlog.
  - apply Forall_forall. intros e He.
    apply list_elem_of_bind in He as (s & He & Hs).
    assert (Exists (λ s', run_input s = run_input s' ∨ run_input s = run_output s') runs)
      as Hin by (apply Exists_exists; exists s; auto).
    assert (Exists (λ s', run_output s = run_input s' ∨ run_output s = run_output s') runs)
      as Hout by (apply Exists_exists; exists s; auto).
    unfold entries_of in He.
    apply elem_of_cons in He as [->|He];
      [|apply list_elem_of_singleton in He as ->];
      (split_and!; [auto | apply preview_length |]).
    + exists (run_input s). unfold log_entry, preview. cbn [data_preview].
      split_and!; [by intros -> | by intros -> | done].
    + exists (run_output s). unfold log_entry, preview. cbn [data_preview].
      split_and!; [by intros -> | by intros -> | done].
Qed.

(** C8, witness: Input → Output on the query "hello"; the world counts the
    clock readings and every stage answers with a response naming itself. *)
Lemma execute_success_pipeline_witness :
  let nodes := [stage "in" "input"; stage "out" "output"] in
  let edges := [connection "in" "out"] in
  let stage_execute := λ (c : Component) (_ : PyValue) (w : nat),
    (Ret (PDict [("response", PStr ("from " +:+ component_node_id c))]), w) in
  let py_str := λ _ : PyValue, "payload" in
  let clock := λ w : nat, ("t", S w) in
  ∃ r self' w',
    (execute nat stage_execute py_str clock (Ret ())
       (WorkflowExecutor nodes edges) "hello" 0
       = (Ret r, self', w')
     ∧ success r = true)
    ∧ output r = PStr "from out"
    ∧ ∃ order d,
        get_execution_order nodes edges = Ret order ∧
        pipeline nat stage_execute py_str clock (self_components self') order
          (PDict [("query", PStr "hello")]) [] 0
          (PDict d) (execution_log r) w' ∧
        (∀ n component, dict_get n (self_components self') = Some component →
           ∃ node, node ∈ nodes ∧ node_id node = n
             ∧ create_component (Ret ()) n (node_data node) = Ret component) ∧
        full_output r = Some (PDict d) ∧
        output r = match dict_get "response" d with
                   | Some v => v
                   | None => match dict_get "output" d with
                             | Some v => v
                             | None => PStr (py_str (PDict d))
                             end
                   end.
Proof.
  intros nodes edges stage_execute py_str clock.
  destruct (execute nat stage_execute py_str clock (Ret ())
              (WorkflowExecutor nodes edges) "hello" 0)
    as [[[r| |] self'] w'] eqn:Hrun; try (by vm_compute in Hrun).
  assert (success r = true) as Hok.
  { vm_compute in Hrun. by injection Hrun as <- _ _. }
  exists r, self', w'. split; [done|]. split.
  - vm_compute in Hrun. by injection Hrun as <- _ _.
  - exact (execute_success_pipeline nat stage_execute py_str clock (Ret ())
             nodes edges "hello" 0 r self' w' Hrun Hok).
Defined.

(** C10, witness: the same run; its log has four entries. *)
Lemma execute_success_log_witness :
  let nodes := [stage "in" "input"; stage "out" "output"] in
  let edges := [connection "in" "out"] in
  let stage_execute := λ (c : Component) (_ : PyValue) (w : nat),
    (Ret (PDict [("response", PStr ("from " +:+ component_node_id c))]), w) in
  let py_str := λ _ : PyValue, "payload" in
  let clock := λ w : nat, ("t", S w) in
  ∃ r self' w',
    (execute nat stage_execute py_str clock (Ret ())
       (WorkflowExecutor nodes edges) "hello" 0
       = (Ret r, self', w')
     ∧ success r = true)
    ∧ length (execution_log r) = 4
    ∧ ∃ order runs final,
        get_execution_order nodes edges = Ret order
        ∧ run_node_id <$> runs = order
        ∧ execution_log r = [] ++ (runs ≫= entries_of py_str)
        ∧ (@nil LogEntry = [] →
           execution_log r = runs ≫= entries_of py_str
           ∧ length (execution_log r) = 2 * length order)
        ∧ chained (PDict [("query", PStr "hello")]) runs final
        ∧ full_output r = Some final
        ∧ Forall (λ s, ∃ component w1 w2,
                    dict_get (run_node_id s) (self_components self') = Some component
                    ∧ stage_execute component (run_input s) w1
                      = (Ret (run_output s), w2))
            runs
        ∧ Forall (λ e,
            (status e = "started" ∨ status e = "completed")
            ∧ String.length (data_preview e) ≤ 200
            ∧ ∃ data, (truthy data = true → data_preview e = slice_to 200 (py_str data))
                      ∧ (truthy data = false → data_preview e = "")
                      ∧ Exists (λ s, data = run_input s ∨ data = run_output s) runs)
            (runs ≫= entries_of py_str).
Proof.
  intros nodes edges stage_execute py_str clock.
  destruct (execute nat stage_execute py_str clock (Ret ())
              (WorkflowExecutor nodes edges) "hello" 0)
    as [[[r| |] self'] w'] eqn:Hrun; try (by vm_compute in Hrun).
  assert (success r = true) as Hok.
  { vm_compute in Hrun. by injection Hrun as <- _ _. }
  exists r, self', w'. split; [done|]. split.
  - vm_compute in Hrun. by injection Hrun as <- _ _.
  - exact (execute_success_log nat stage_execute py_str clock (Ret ())
             (WorkflowExecutor nodes edges) "hello" 0 r self' w' Hrun Hok).
Defined.

(** ** The prompt builder *)

Lemma str_app_assoc (s t u : string) : (s +:+ t) +:+ u = s +:+ (t +:+ u).
Proof. induction s as [|c s IH]; [done|]. cbv [String.append] in *. by f_equal. Qed.

Lemma str_app_nil_r (s : string) : s +:+ "" = s.
Proof. induction s as [|c s IH]; [done|]. cbv [String.append] in *. by f_equal. Qed.

Lemma brace_free_cons c s :
  brace_free (String c s) ↔ c ≠ "{"%char ∧ brace_free s.
Proof.
  unfold brace_free. simpl. rewrite andb_true_r, orb_false_iff.
  rewrite bool_decide_eq_false. naive_solver.
Qed.

Lemma brace_free_app s t : brace_free s → brace_free t → brace_free (s +:+ t).
Proof.
  intros Hs Ht. induction s as [|c s IH]; [done|].
  apply brace_free_cons in Hs as [Hc Hs].
  change (brace_free (String c (s +:+ t))). apply brace_free_cons. auto.
Qed.

Lemma token_starts_with_brace p : ∃ body, token p = String "{"%char body.
Proof. destruct p; eauto. Qed.

(** A string without an opening brace holds no placeholder token. *)
Lemma brace_free_no_token p s : brace_free s → contains (token p) s = false.
Proof.
  destruct (token_starts_with_brace p) as [body ->].
  induction s as [|c s IH]; [done|].
  intros [Hc Hs]%brace_free_cons. simpl.
  rewrite bool_decide_eq_false_2 by done. simpl. by apply IH.
Qed.

(** The scan copies text without an opening brace. *)
Lemma replace_from_text p new s rest :
  brace_free s →
  replace_from (token p) new 0 (s +:+ rest)
  = s +:+ replace_from (token p) new 0 rest.
Proof.
  destruct (token_starts_with_brace p) as [body ->].
  induction s as [|c s IH]; [done|].
  intros [Hc Hs]%brace_free_cons.
  change (String c s +:+ rest) with (String c (s +:+ rest)).
  cbn [replace_from starts_with].
  rewrite bool_decide_eq_false_2 by done. cbn [andb].
  rewrite IH by done. done.
Qed.

(** At a placeholder the scan substitutes the one it looks for and copies
    any other. *)
Lemma replace_from_hole p q new rest :
  replace_from (token p) new 0 (token q +:+ rest)
  = (if decide (q = p) then new else token q)
    +:+ replace_from (token p) new 0 rest.
Proof. destruct p, q; reflexivity. Qed.

Lemma str_replace_token s p new :
  str_replace s (token p) new = replace_from (token p) new 0 s.
Proof. by destruct p. Qed.

Lemma replace_pass p new ps :
  plain_template ps →
  str_replace (template_text ps) (token p) new
  = template_text (pass p new <$> ps).
Proof.
  rewrite str_replace_token. unfold template_text.
  induction 1 as [|pc ps Hpc _ IH]; csimpl; [done|].
  destruct pc as [s|q]; simpl.
  - by rewrite replace_from_text, IH.
  - rewrite replace_from_hole, IH. by destruct (decide (q = p)).
Qed.

Lemma pass_plain p new ps :
  brace_free new → plain_template ps → plain_template (pass p new <$> ps).
Proof.
  intros Hnew. unfold plain_template. rewrite Forall_fmap.
  intros H. eapply Forall_impl; [exact H|]. intros [s|q]; simpl; [done|].
  by destruct (decide (q = p)).
Qed.

Lemma four_passes query context pc :
  pass ContextUpper context
    (pass QueryTitle query (pass ContextLower context (pass QueryLower query pc)))
  = Text (fill query context pc).
Proof. destruct pc as [s|[]]; reflexivity. Qed.

Lemma template_text_of_text (l : list string) :
  template_text (Text <$> l) = str_concat l.
Proof. unfold template_text. by rewrite <- list_fmap_compose, list_fmap_id. Qed.

Lemma str_concat_brace_free l : Forall brace_free l → brace_free (str_concat l).
Proof.
  induction 1 as [|s l Hs _ IH]; [done|]. simpl. by apply brace_free_app.
Qed.

Lemma str_truthy_decide s :
  str_truthy s = if decide (s = "") then false else true.
Proof. unfold str_truthy. by destruct (decide (s = "")); case_bool_decide. Qed.

(** C9, counterexample: the template "{context}" with the query "q" and
    the context "{query}".  The passes run one after the other and the pass
    for "{query}" is over when the context is put in: the produced text is
    "{query}", a literal placeholder token. *)
Lemma placeholder_token_can_remain :
  str_truthy "{context}" = true
  ∧ _build_prompt "{context}" "q" "{query}" "" = "{query}"
  ∧ contains (token QueryLower) (_build_prompt "{context}" "q" "{query}" "") = true.
Proof. split_and!; reflexivity. Qed.

(** C9, amended: with a non-empty custom template the prompt is the
    template after the passes for "{query}", "{context}", "{User Query}" and
    "{CONTEXT}", in this order.  When the only opening braces of the template
    are those of its placeholders and neither value contains an opening
    brace, every placeholder is replaced by its value, the text around them
    is kept verbatim, and no placeholder token is left.  With an empty custom
    template the prompt is the context section (only for a non-empty
    context), the search section (only for a non-empty search result), the
    query line and the closing instruction sentence, joined by newlines. *)
Theorem build_prompt_spec (query context web_context : string) :
  (∀ ps, plain_template ps → template_text ps ≠ "" →
     brace_free query → brace_free context →
     let prompt := _build_prompt (template_text ps) query context web_context in
     prompt = str_concat (fill query context <$> ps)
     ∧ ∀ p, contains (token p) prompt = false)
  ∧ (∀ custom_prompt, custom_prompt ≠ "" →
     _build_prompt custom_prompt query context web_context
     = str_replace
         (str_replace
            (str_replace (str_replace custom_prompt "{query}" query)
               "{context}" context)
            "{User Query}" query)
         "{CONTEXT}" context)
  ∧ _build_prompt "" query context web_context
    = (if decide (context = "") then ""
       else "Context from documents:" +:+ nl +:+ context +:+ nl +:+ nl)
      +:+ (if decide (web_context = "") then ""
           else "Web search results:" +:+ nl +:+ web_context +:+ nl +:+ nl)
      +:+ "User query: " +:+ query +:+ nl +:+ nl
      +:+ "Please provide a helpful response based on the above information.".
Proof.
  split_and!.
  - intros ps Hplain Hne Hq Hc prompt.
    assert (prompt = str_concat (fill query context <$> ps)) as Heq.
    { unfold prompt, _build_prompt, str_truthy.
      rewrite bool_decide_eq_false_2 by done. cbn [negb].
      change "{query}" with (token QueryLower).
      change "{context}" with (token ContextLower).
      change "{User Query}" with (token QueryTitle).
      change "{CONTEXT}" with (token ContextUpper).
      rewrite (replace_pass QueryLower) by done.
      rewrite (replace_pass ContextLower) by (by apply pass_plain).
      rewrite (replace_pass QueryTitle) by (by repeat apply pass_plain).
      rewrite (replace_pass ContextUpper) by (by repeat apply pass_plain).
      rewrite <- !list_fmap_compose.
      rewrite <- template_text_of_text, <- list_fmap_compose.
      f_equal. apply list_fmap_ext. intros _ pc _. simpl. apply four_passes. }
    split; [done|]. intros p. apply brace_free_no_token. rewrite Heq.
    apply str_concat_brace_free. rewrite Forall_fmap.
    eapply Forall_impl; [exact Hplain|]. intros [s|[]]; simpl; done.
  - intros custom_prompt Hne. unfold _build_prompt, str_truthy.
    by rewrite bool_decide_eq_false_2 by done.
  - unfold _build_prompt. change (str_truthy "") with false. cbn iota.
    rewrite !str_truthy_decide.
    destruct (decide (context = "")), (decide (web_context = ""));
      cbn [app str_join]; rewrite ?str_app_assoc; reflexivity.
Qed.

(** C9, witness: a template with all four placeholder spellings. *)
Lemma build_prompt_spec_witness :
  let ps := [Text "Answer "; Hole QueryLower; Text " using "; Hole ContextUpper;
             Text ". Asked: "; Hole QueryTitle; Text " / "; Hole ContextLower] in
  (plain_template ps ∧ template_text ps ≠ ""
   ∧ brace_free "hi" ∧ brace_free "docs")
  ∧ template_text ps
    = "Answer {query} using {CONTEXT}. Asked: {User Query} / {context}"
  ∧ _build_prompt (template_text ps) "hi" "docs" ""
    = "Answer hi using docs. Asked: hi / docs"
  ∧ ∀ p, contains (token p) (_build_prompt (template_text ps) "hi" "docs" "") = false.
Proof.
  intros ps.
  assert (plain_template ps) as Hplain by (repeat constructor).
  assert (template_text ps ≠ "") as Hne by done.
  assert (brace_free "hi") as Hq by reflexivity.
  assert (brace_free "docs") as Hc by reflexivity.
  destruct (proj1 (build_prompt_spec "hi" "docs" "") ps Hplain Hne Hq Hc)
    as [Heq Hno].
  split; [by split_and!|]. split; [reflexivity|]. split; [|exact Hno].
  rewrite Heq. reflexivity.
Defined.

(** * Further properties of the code *)

(** ** [validate]: what it accepts, when it answers, when it raises *)

Lemma validate_component_configs_true nodes msg :
  _validate_component_configs nodes = Ret (true, msg) → parameters_present nodes.
Proof.
  induction nodes as [|node nodes IH]; simpl; [constructor|].
  destruct (get_type (node_data node)) as [t| |] eqn:Ht; simpl; [|done..].
  destruct (bool_decide (t ∈ llm_types)) eqn:Hllm; simpl.
  - destruct (truthy _) eqn:Hm; simpl; [|done].
    intros H%IH. by constructor.
  - intros H%IH. constructor; [|done].
    intros (t' & Ht' & Hin). unfold stage_type in Ht'.
    rewrite Ht in Ht'. injection Ht' as <-.
    by apply bool_decide_eq_false in Hllm.
Qed.

Lemma types_recognized_typed nodes : types_recognized nodes → Forall typed nodes.
Proof. intros H. eapply Forall_impl; [exact H | apply recognized_typed]. Qed.

(** What an accepting answer of [validate] went through. *)
Lemma validate_true_full nodes edges msg :
  validate nodes edges = Ret (true, msg) →
  msg = "Workflow is valid"
  ∧ nodes ≠ []
  ∧ (1 < length nodes → edges ≠ [])
  ∧ types_recognized nodes
  ∧ endpoint_closed nodes edges
  ∧ acyclic edges
  ∧ parameters_present nodes
  ∧ has_input_stage nodes ∧ has_output_stage nodes.
Proof.
  intros Hval.
  destruct (validate_true_inv _ _ _ Hval) as (Hty & Hcl & Hac).
  pose proof (types_recognized_typed _ Hty) as Htyped.
  revert Hval. unfold validate.
  destruct nodes as [|node nodes']; [done|]. cbn [is_empty].
  destruct ((1 <? length (node :: nodes')) && is_empty edges) eqn:Hguard; [done|].
  rewrite validate_node_types_ok by done. cbn [res_bind negb].
  rewrite validate_connections_ok by done. cbn [negb].
  destruct (_check_for_cycles _ _) as [[[] m3]| |]; cbn [res_bind negb]; [|done..].
  destruct (_validate_component_configs _) as [[[] m4]| |] eqn:Hcfg;
    cbn [res_bind negb]; [|done..].
  destruct (validate_workflow_flow_spec _ Htyped) as [(Hi & Ho & ->)|[_ [m5 ->]]];
    cbn [res_bind negb]; [|done].
  intros [= <-]. split_and!; try done.
  - intros Hlen Hnil. apply Nat.ltb_lt in Hlen. rewrite Hlen, Hnil in Hguard. done.
  - by eapply validate_component_configs_true.
Qed.

(** One stage alone is not both an input and an output stage. *)
Lemma single_stage_not_input_and_output node :
  has_input_stage [node] → has_output_stage [node] → False.
Proof.
  intros Hi Ho.
  apply Exists_cons in Hi as [(t & Ht & Hin)|Hi]; [|by apply Exists_nil in Hi].
  apply Exists_cons in Ho as [(t' & Ht' & Hin')|Ho]; [|by apply Exists_nil in Ho].
  rewrite Ht in Ht'. injection Ht' as <-.
  apply list_elem_of_singleton in Hin' as ->. revert Hin. unfold input_types.
  set_solver.
Qed.

Lemma validate_no_connections_false nodes b msg :
  validate nodes [] = Ret (b, msg) → b = false.
Proof.
  destruct b; [|done]. intros Hval. exfalso.
  apply validate_true_full in Hval
    as (_ & Hn & Hedges & _ & _ & _ & _ & Hi & Ho).
  destruct nodes as [|node [|node' nodes]]; [done| |].
  - by eapply single_stage_not_input_and_output.
  - apply Hedges; simpl; [lia | done].
Qed.

(** X1: [validate] answers true, and then with the message "Workflow is
    valid", exactly for the graphs that have a stage, have a connection when
    they have more than one stage, declare only recognized types, connect only
    declared stages, have no cycle, give every generation stage a model, and
    have an input stage and an output stage. *)
Theorem validate_accepts_exactly (nodes : list Node) (edges : list Edge) (msg : string) :
  validate nodes edges = Ret (true, msg) ↔
  msg = "Workflow is valid"
  ∧ nodes ≠ []
  ∧ (1 < length nodes → edges ≠ [])
  ∧ types_recognized nodes
  ∧ endpoint_closed nodes edges
  ∧ acyclic edges
  ∧ parameters_present nodes
  ∧ has_input_stage nodes ∧ has_output_stage nodes.
Proof.
  split; [apply validate_true_full|].
  intros (-> & Hn & Hedges & Hty & Hcl & Hac & Hp & Hi & Ho).
  apply validate_valid; try done.
  destruct (decide (1 < length nodes)); [right; auto | left; lia].
Qed.




Lemma validate_node_types_raises pre node post v :
  Forall recognized pre →
  dict_get "type" (node_data node) = Some v → (∀ s, v ≠ PStr s) →
  _validate_node_types (pre ++ node :: post) = Raise (no_attribute v "lower").
Proof.
  intros Hpre Hv Hns. induction Hpre as [|n pre (t & Ht & Hin) _ IH]; simpl.
  - unfold get_type. rewrite Hv. destruct v; try done. by destruct (Hns s).
  - unfold stage_type in Ht. rewrite Ht. simpl.
    rewrite bool_decide_eq_false_2.
    2:{ intros ->. revert Hin. unfold valid_types. set_solver. }
    rewrite bool_decide_eq_false_2 by (by intros ?). done.
Qed.

(** X3: a declared type that is not a string makes the type check raise
    [AttributeError] (the value has no [lower]); when the stages before it
    have recognized types and the connection guard lets the check run, the
    exception leaves [validate], and it leaves [execute] too, which calls
    [validate] outside its [try]. *)
Theorem validate_raises_on_non_string_type
    (World : Type)
    (stage_execute : Component → PyValue → World → res PyValue * World)
    (py_str : PyValue → string) (clock : World → string * World) (OpenAI : res unit)
    (pre post : list Node) (node : Node) (edges : list Edge) (v : PyValue)
    (self : Executor) (query : string) (w : World) :
  Forall recognized pre →
  dict_get "type" (node_data node) = Some v → (∀ s, v ≠ PStr s) →
  (pre ++ post ≠ [] → edges ≠ []) →
  self_nodes self = pre ++ node :: post → self_edges self = edges →
  validate (pre ++ node :: post) edges = Raise (no_attribute v "lower")
  ∧ execute World stage_execute py_str clock OpenAI self query w
    = (Raise (no_attribute v "lower"), self, w).
Proof.
  intros Hpre Hv Hns Hguard Hnodes Hedges.
  assert (validate (pre ++ node :: post) edges = Raise (no_attribute v "lower")) as Hval.
  { unfold validate. rewrite is_empty_false by (by destruct pre).
    assert ((1 <? length (pre ++ node :: post)) && is_empty edges = false) as ->.
    { destruct edges; [|apply andb_false_r]. rewrite andb_true_r.
      apply Nat.ltb_ge. rewrite length_app. simpl.
      destruct pre, post; simpl; try lia; by destruct Hguard. }
    by rewrite (validate_node_types_raises pre node post v). }
  split; [done|]. unfold execute. by rewrite Hnodes, Hedges, Hval.
Qed.

(** X3, witness: the second stage declares the type 5. *)
Lemma validate_raises_on_non_string_type_witness :
  let node := {| node_id := "b"; node_data := [("type", PInt 5)] |} in
  let nodes := [stage "a" "input"; node] in
  let edges := [connection "a" "b"] in
  validate nodes edges = Raise (AttributeError "'int' object has no attribute 'lower'")
  ∧ execute unit (λ _ data w, (Ret data, w)) (λ _, "payload") (λ w, ("0", w)) (Ret ())
      (WorkflowExecutor nodes edges) "hello" ()
    = (Raise (AttributeError "'int' object has no attribute 'lower'"),
       WorkflowExecutor nodes edges, ()).
Proof.
  intros node nodes edges.
  apply (validate_raises_on_non_string_type unit (λ _ data w, (Ret data, w))
           (λ _, "payload") (λ w, ("0", w)) (Ret ())
           [stage "a" "input"] [] node edges (PInt 5)
           (WorkflowExecutor nodes edges) "hello" ()); try done.
  repeat constructor. by_evaluation.
Defined.

(** X4: a graph without connections is never valid: whatever [validate]
    answers on it is false (one stage alone cannot be both the input and the
    output stage).  With more than one stage the message is the one about
    missing connections, with no stage the one about the missing component. *)
Theorem validate_without_connections (nodes : list Node) (b : bool) (msg : string) :
  validate nodes [] = Ret (b, msg) →
  b = false
  ∧ (1 < length nodes → msg = "Workflow components must be connected")
  ∧ (nodes = [] → msg = "Workflow must have at least one component").
Proof.
  intros Hval. split; [by eapply validate_no_connections_false|].
  split.
  - intros Hlen. destruct nodes as [|n nodes']; [simpl in Hlen; lia|].
    apply Nat.ltb_lt in Hlen. revert Hval. unfold validate. cbn [is_empty].
    rewrite Hlen. cbn [andb]. by intros [= _ <-].
  - intros ->. revert Hval. unfold validate. cbn [is_empty]. by intros [= _ <-].
Qed.

(** X4, witness: two stages and no connection. *)
Lemma validate_without_connections_witness :
  let nodes := [stage "in" "input"; stage "out" "output"] in
  validate nodes [] = Ret (false, "Workflow components must be connected")
  ∧ (false = false
     ∧ (1 < length nodes →
        "Workflow components must be connected" = "Workflow components must be connected")
     ∧ (nodes = [] →
        "Workflow components must be connected"
        = "Workflow must have at least one component")).
Proof.
  intros nodes.
  assert (validate nodes [] = Ret (false, "Workflow components must be connected"))
    as H by reflexivity.
  split; [exact H|]. exact (validate_without_connections _ _ _ H).
Defined.



(** ** [get_execution_order]: its error, and its result on any graph *)

Lemma build_graph_app pre rest g d :
  build_graph (pre ++ rest) g d
  = do '(g', d') <- build_graph pre g d; build_graph rest g' d'.
Proof.
  revert g d. induction pre as [|e pre IH]; intros g d; simpl; [done|].
  destruct (dict_index (source e) g) as [ts| |]; simpl; [|done..].
  destruct (dict_index (target e) d) as [z| |]; simpl; [|done..].
  apply IH.
Qed.

(** X6: [get_execution_order] raises [KeyError] at the first connection, in
    list order, that names an undeclared stage; the key is the source when
    the source is undeclared and the target otherwise. *)
Theorem execution_order_key_error (nodes : list Node)
    (pre post : list Edge) (e : Edge) :
  endpoint_closed nodes pre →
  ¬ (source e ∈ ids nodes ∧ target e ∈ ids nodes) →
  get_execution_order nodes (pre ++ e :: post)
  = Raise (KeyError (if decide (source e ∈ ids nodes) then target e else source e)).
Proof.
  intros Hpre He. unfold get_execution_order, kahn_init.
  rewrite build_graph_app.
  apply endpoint_closed_keys in Hpre as Hpre'.
  destruct (build_graph_closed _ _ _ Hpre') as (g & d & Hbuild).
  destruct (build_graph_Ret _ _ _ _ _ Hbuild) as (Hkg & Hkd & _).
  rewrite dict_keys_from_nodes in Hkg. rewrite dict_keys_from_nodes in Hkd.
  rewrite Hbuild. cbn [res_bind build_graph]. unfold dict_index.
  destruct (decide (source e ∈ ids nodes)) as [Hs|Hs].
  - assert (source e ∈ dict_keys g) as Hsg
      by (rewrite Hkg; by apply elem_of_declared_keys).
    apply dict_get_is_Some in Hsg as [ts ->]. cbn [res_bind].
    assert (dict_get (target e) d = None) as ->; [|done].
    apply dict_get_None. rewrite Hkd. intros Ht%elem_of_declared_keys. auto.
  - assert (dict_get (source e) g = None) as ->; [|done].
    apply dict_get_None. rewrite Hkg. by intros Ht%elem_of_declared_keys.
Qed.

(** X6, witness: the second connection leads to the undeclared stage Z. *)
Lemma execution_order_key_error_witness :
  let nodes := [stage "A" "input"; stage "B" "output"] in
  (endpoint_closed nodes [connection "A" "B"]
   ∧ ¬ ("B" ∈ ids nodes ∧ "Z" ∈ ids nodes))
  ∧ get_execution_order nodes
      ([connection "A" "B"] ++ connection "B" "Z" :: [connection "Y" "A"])
    = Raise (KeyError "Z").
Proof.
  intros nodes.
  assert (endpoint_closed nodes [connection "A" "B"]) as H1 by by_evaluation.
  assert (¬ ("B" ∈ ids nodes ∧ "Z" ∈ ids nodes)) as H2 by by_evaluation.
  split; [by split|].
  exact (execution_order_key_error nodes [connection "A" "B"]
           [connection "Y" "A"] (connection "B" "Z") H1 H2).
Defined.

(** In a finite graph, following predecessors from a node for ever must
    run into a cycle that reaches the node. *)
Lemma descent_reaches_cycle (E : relation string) (Q : string → Prop)
    (A : list string) (x : string) :
  (∀ y, Q y → y ∈ A) →
  (∀ y, Q y → ∃ z, Q z ∧ E z y) →
  ∀ n l y, length A < n + length l →
    NoDup l → (∀ a, a ∈ l → Q a) → Q y →
    (∀ a, a ∈ l → tc E y a) → rtc E y x →
    ∃ c, tc E c c ∧ rtc E c x.
Proof.
  intros HQA Hpred. induction n as [|n IH]; intros l y Hlen Hnd HlQ Hy Hreach Hyx.
  - assert (length l ≤ length A); [|simpl in *; lia].
    apply submseteq_length, NoDup_submseteq; [done|]. intros a Ha. by apply HQA, HlQ.
  - destruct (decide (y ∈ l)) as [Hin|Hin].
    + exists y. split; [by apply Hreach | done].
    + destruct (Hpred y Hy) as (z & Hz & Hzy).
      apply (IH (y :: l) z); simpl; try done.
      * lia.
      * by constructor.
      * intros a [->|?]%elem_of_cons; [done | by apply HlQ].
      * intros a [->|?]%elem_of_cons; [by apply tc_once|].
        eapply tc_l; [done | by apply Hreach].
      * by eapply rtc_l.
Qed.

(** X7: on every graph whose connections join declared stages, with or
    without cycles, [get_execution_order] returns a list without repetition;
    a stage is in it exactly when it is declared and no stage on a cycle
    reaches it; and every connection into a returned stage has its source
    earlier in the list. *)
Theorem execution_order_on_any_closed_graph (nodes : list Node) (edges : list Edge) :
  endpoint_closed nodes edges →
  ∃ o, get_execution_order nodes edges = Ret o ∧
    NoDup o ∧
    (∀ x, x ∈ o ↔
       x ∈ ids nodes ∧ ¬ ∃ c, on_cycle edges c ∧ rtc (edge_rel edges) c x) ∧
    (∀ e, e ∈ edges → target e ∈ o → before o (source e) (target e) = true).
Proof.
  intros Hcl.
  destruct (get_execution_order_spec nodes edges Hcl)
    as (stf & rest & Hrun & Hinv & Hq & _).
  assert (∀ e, e ∈ edges → source e ∈ declared_keys nodes
                          ∧ target e ∈ declared_keys nodes) as Hcl'.
  { intros e He. rewrite !elem_of_declared_keys.
    by apply (endpoint_closed_elem _ edges). }
  exists (order stf). split_and!; [done | by eapply final_NoDup | |].
  - intros x. split.
    + intros Hx. split.
      * apply elem_of_declared_keys. by eapply final_sub.
      * intros (c & Hc & Hcx).
        assert (c ∈ order stf) as Hin.
        { apply rtc_tc in Hcx as [->|Hcx]; [done|].
          pose proof (final_paths _ _ _ Hinv c x Hcx Hx) as Hb.
          by apply before_In in Hb as [? _]. }
        by apply (final_no_cycle_node _ _ _ Hinv c Hc).
    + intros [Hx Hno]. apply elem_of_declared_keys in Hx.
      destruct (decide (x ∈ order stf)) as [|Hxo]; [done|]. destruct Hno.
      apply (descent_reaches_cycle (edge_rel edges)
               (λ y, y ∈ declared_keys nodes ∧ y ∉ order stf)
               (declared_keys nodes) x)
        with (n := S (length (declared_keys nodes))) (l := []) (y := x);
        simpl; try done; try lia; try (by intros a ?%elem_of_nil);
        [naive_solver | | constructor].
      intros y [Hy Hyo].
      assert (pending edges (order stf) y ≠ 0) as Hp.
      { intros Hz. apply Hyo. apply (inv_ready _ _ _ Hinv y Hy) in Hz.
        by rewrite Hq, app_nil_r in Hz. }
      rewrite pending_zero in Hp.
      destruct (decide (Forall (λ e, target e = y → source e ∈ order stf) edges))
        as [Hall|Hex].
      { destruct Hp. intros e He. rewrite Forall_forall in Hall. by apply Hall. }
      apply not_Forall_Exists in Hex; [|apply _].
      apply Exists_exists in Hex as ([s t] & He & Hne). simpl in Hne.
      destruct (decide (t = y)) as [->|]; [|naive_solver].
      exists s. split_and!; [by destruct (Hcl' _ He) | naive_solver | done].
  - intros e He Ht. by apply (inv_topo _ _ _ Hinv).
Qed.

(** X7, witness: A→B, a cycle C→D→C, and E downstream of the cycle. *)
Lemma execution_order_on_any_closed_graph_witness :
  let nodes := [stage "A" "input"; stage "B" "output"; stage "C" "llm";
                stage "D" "llm"; stage "E" "output"] in
  let edges := [connection "A" "B"; connection "C" "D"; connection "D" "C";
                connection "D" "E"] in
  endpoint_closed nodes edges
  ∧ get_execution_order nodes edges = Ret ["A"; "B"]
  ∧ ∃ o, get_execution_order nodes edges = Ret o ∧
      NoDup o ∧
      (∀ x, x ∈ o ↔
         x ∈ ids nodes ∧ ¬ ∃ c, on_cycle edges c ∧ rtc (edge_rel edges) c x) ∧
      (∀ e, e ∈ edges → target e ∈ o → before o (source e) (target e) = true).
Proof.
  intros nodes edges.
  assert (endpoint_closed nodes edges) as H by by_evaluation.
  split; [exact H|]. split; [reflexivity|].
  exact (execution_order_on_any_closed_graph nodes edges H).
Defined.

(** X8: once [validate] has accepted a graph, [get_execution_order] cannot
    raise: it returns every declared stage id exactly once, with the source
    of every connection before its target.  This is the order [execute]
    runs. *)
Theorem execution_order_after_validate (nodes : list Node) (edges : list Edge)
    (msg : string) :
  validate nodes edges = Ret (true, msg) →
  ∃ o, get_execution_order nodes edges = Ret o ∧
    NoDup o ∧
    (∀ x, x ∈ o ↔ x ∈ ids nodes) ∧
    (∀ e, e ∈ edges → before o (source e) (target e) = true).
Proof.
  intros (_ & Hcl & Hac)%validate_true_inv.
  destruct (get_execution_order_spec nodes edges Hcl)
    as (stf & rest & Hrun & Hinv & Hq & _).
  assert (∀ e, e ∈ edges → source e ∈ declared_keys nodes
                          ∧ target e ∈ declared_keys nodes) as Hcl'.
  { intros e He. rewrite !elem_of_declared_keys.
    by apply (endpoint_closed_elem _ edges). }
  assert (∀ x, x ∈ order stf ↔ x ∈ ids nodes) as Hmem.
  { intros x. rewrite <- elem_of_declared_keys. split.
    - by apply (final_sub _ _ _ Hinv Hq).
    - by apply (final_complete _ _ _ Hinv Hq Hcl' Hac). }
  exists (order stf). split_and!; [done | by eapply final_NoDup | done |].
  intros e He. apply (inv_topo _ _ _ Hinv _ He).
  apply Hmem. by destruct (endpoint_closed_elem _ _ _ Hcl He).
Qed.

(** X8, witness: Input → Generation → Output, declared out of order. *)
Lemma execution_order_after_validate_witness :
  let gen := {| node_id := "gen";
                node_data := [("type", PStr "llm"); ("model", PStr "gpt-4o-mini")] |} in
  let nodes := [stage "out" "output"; gen; stage "in" "input"] in
  let edges := [connection "gen" "out"; connection "in" "gen"] in
  validate nodes edges = Ret (true, "Workflow is valid")
  ∧ get_execution_order nodes edges = Ret ["in"; "gen"; "out"]
  ∧ ∃ o, get_execution_order nodes edges = Ret o ∧
      NoDup o ∧
      (∀ x, x ∈ o ↔ x ∈ ids nodes) ∧
      (∀ e, e ∈ edges → before o (source e) (target e) = true).
Proof.
  intros gen nodes edges.
  assert (validate nodes edges = Ret (true, "Workflow is valid")) as H by reflexivity.
  split; [exact H|]. split; [reflexivity|].
  exact (execution_order_after_validate nodes edges _ H).
Defined.

(** ** The registry and the construction step of [execute] *)

Lemma lower_ascii_idemp c : lower_ascii (lower_ascii c) = lower_ascii c.
Proof. by destruct c as [[] [] [] [] [] [] [] []]. Qed.

Lemma lower_idemp s : lower (lower s) = lower s.
Proof. induction s as [|c s IH]; simpl; [done|]. by rewrite lower_ascii_idemp, IH. Qed.

Lemma get_type_lower d t : get_type d = Ret t → lower t = t.
Proof.
  unfold get_type. destruct (dict_get "type" d) as [[]|]; try done.
  - intros [= <-]. apply lower_idemp.
  - by intros [= <-].
Qed.

(** X9: [create_component] builds an instance, with the class the registry
    gives and the declaration as configuration, for the types that lower-case
    to "user_query", "input" or "output"; for the types that lower-case to
    "knowledge_base", "llm_engine" or "llm" its outcome is that of the
    [OpenAI] client constructor which these classes call: the instance when
    the client is built, the constructor's exception when it raises; for
    every other type, the three camel-case registry keys included, it raises
    the unknown-component-type error with the lower-cased type in the
    message. *)
Theorem create_component_constructs (OpenAI : res unit) (node_id : string)
    (node_data : dict PyValue) (t : string) :
  get_type node_data = Ret t →
  (t ∈ ["user_query"; "input"; "output"] →
     create_component OpenAI node_id node_data = Ret (instance_of t node_id node_data))
  ∧ (t ∈ client_types →
     (OpenAI = Ret () →
      create_component OpenAI node_id node_data = Ret (instance_of t node_id node_data))
     ∧ (∀ e, OpenAI = Raise e →
        create_component OpenAI node_id node_data = Raise e))
  ∧ (t ∉ constructible_types →
     create_component OpenAI node_id node_data
     = Raise (ValueError ("Unknown component type: " +:+ t))).
Proof.
  intros Ht. pose proof (get_type_lower _ _ Ht) as Hl.
  unfold create_component. rewrite Ht. cbn [res_bind]. split_and!.
  - intros Hin.
    repeat (apply elem_of_cons in Hin as [->|Hin]; [reflexivity|]).
    by apply elem_of_nil in Hin.
  - unfold client_types. intros Hin. split.
    + intros ->.
      repeat (apply elem_of_cons in Hin as [->|Hin]; [reflexivity|]).
      by apply elem_of_nil in Hin.
    + intros e ->.
      repeat (apply elem_of_cons in Hin as [->|Hin]; [reflexivity|]).
      by apply elem_of_nil in Hin.
  - intros Hnot.
    assert (dict_get t COMPONENT_REGISTRY = None) as ->; [|done].
    apply dict_get_None. unfold dict_keys, COMPONENT_REGISTRY. csimpl.
    intros Hin. unfold constructible_types in Hnot.
    repeat (apply elem_of_cons in Hin as [->|Hin];
            [first [discriminate Hl | by (destruct Hnot; set_solver)]|]).
    by apply elem_of_nil in Hin.
Qed.

(** X9, witness: a generation stage declared as "LLM" when the client
    constructor raises. *)
Lemma create_component_constructs_witness :
  let node_data := [("type", PStr "LLM"); ("model", PStr "gpt-4o-mini")] in
  let OpenAI := Raise (StageError "The api_key client option must be set") in
  get_type node_data = Ret "llm"
  ∧ create_component OpenAI "gen" node_data
    = Raise (StageError "The api_key client option must be set")
  ∧ create_component (Ret ()) "gen" node_data
    = Ret {| component_class_of := LLMEngineComponent;
             component_node_id := "gen"; config := node_data |}.
Proof.
  intros node_data OpenAI.
  assert (get_type node_data = Ret "llm") as H by reflexivity.
  assert ("llm" ∈ client_types) as Hin by by_evaluation.
  split_and!; [exact H| |].
  - by apply (proj1 (proj2 (create_component_constructs OpenAI "gen" node_data "llm" H))).
  - by apply (proj1 (proj2 (create_component_constructs (Ret ()) "gen" node_data
                              "llm" H))).
Defined.

(** Construction on a recognized type. *)
Lemma create_component_outcome OpenAI node t :
  stage_type node = Ret t → t ∈ valid_types →
  create_component OpenAI (node_id node) (node_data node)
  = construction_outcome OpenAI t (node_id node) (node_data node).
Proof.
  intros Ht Hin. unfold stage_type in Ht.
  unfold create_component. rewrite Ht. cbn [res_bind].
  unfold valid_types in Hin.
  repeat (apply elem_of_union in Hin as [Hin|Hin]);
    apply elem_of_singleton in Hin as ->; reflexivity.
Qed.

Lemma initialize_components_ok OpenAI nodes : ∀ components0,
  Forall (constructs OpenAI) nodes →
  ∃ components, _initialize_components OpenAI nodes components0 = (Ret (), components).
Proof.
  induction nodes as [|node nodes IH]; intros components0 Hall; simpl; [eauto|].
  inversion Hall as [|? ? [c Hnode] Hrest]; subst.
  rewrite Hnode. by apply IH.
Qed.

Lemma initialize_components_fails OpenAI pre node post e : ∀ components0,
  Forall (constructs OpenAI) pre →
  create_component OpenAI (node_id node) (node_data node) = Raise e →
  ∃ components,
    _initialize_components OpenAI (pre ++ node :: post) components0
    = (Raise e, components).
Proof.
  induction pre as [|n pre IH]; intros components0 Hall Hfail; simpl.
  - rewrite Hfail. eauto.
  - inversion Hall as [|? ? [c Hn] Hrest]; subst.
    rewrite Hn. by apply IH.
Qed.

(** X10: on a graph that [validate] accepts, an exception leaves [execute]
    exactly when the construction of a declared stage fails.  The exception
    of the first declaration, in declaration order, whose construction
    raises leaves [execute] before any stage runs (the world and the log are
    untouched, since [_initialize_components] is called outside the [try]);
    when every construction succeeds, no exception leaves [execute],
    whatever the stages do.  On such a graph the construction of a stage
    raises the unknown-type [ValueError] when its type lower-cases to
    "userquery", "knowledgebase" or "llmengine", has the outcome of the
    [OpenAI] client constructor when it is a retrieval or generation stage,
    and succeeds otherwise. *)
Theorem execute_raises_exactly_on_construction_failure
    (World : Type)
    (stage_execute : Component → PyValue → World → res PyValue * World)
    (py_str : PyValue → string) (clock : World → string * World) (OpenAI : res unit)
    (self : Executor) (query : string) (w : World) (msg : string) :
  validate (self_nodes self) (self_edges self) = Ret (true, msg) →
  (∀ pre node post e,
     self_nodes self = pre ++ node :: post →
     Forall (constructs OpenAI) pre →
     create_component OpenAI (node_id node) (node_data node) = Raise e →
     ∃ self',
       execute World stage_execute py_str clock OpenAI self query w
       = (Raise e, self', w)
       ∧ self_execution_log self' = self_execution_log self)
  ∧ (Forall (constructs OpenAI) (self_nodes self) →
     ∀ e, (execute World stage_execute py_str clock OpenAI self query w).1.1 ≠ Raise e)
  ∧ Forall (λ node, ∃ t,
      stage_type node = Ret t
      ∧ create_component OpenAI (node_id node) (node_data node)
        = construction_outcome OpenAI t (node_id node) (node_data node))
      (self_nodes self).
Proof.
  intros Hval.
  destruct (validate_true_inv _ _ _ Hval) as (Hty & Hcl & _).
  destruct (get_execution_order_spec _ _ Hcl) as (stf & rest & Hord & _).
  split_and!.
  - intros pre node post e Hnodes Hpre Hfail.
    destruct (initialize_components_fails OpenAI pre node post _
                (self_components self) Hpre Hfail) as [components Hinit].
    eexists. unfold execute. rewrite Hval, Hord. cbn [negb].
    rewrite Hnodes, Hinit. split; [reflexivity | done].
  - intros Hall e.
    destruct (initialize_components_ok OpenAI _ (self_components self) Hall)
      as [components Hinit].
    unfold execute. rewrite Hval, Hord, Hinit. cbn [negb].
    destruct (run_stages _ _ _ _ _ _ _ _ _) as [[rp log] w1].
    destruct rp as [payload| |]; cbn [res_bind]; [|done..].
    by destruct (final_output py_str payload) as [final| |].
  - eapply Forall_impl; [exact Hty|]. intros node (t & Ht & Hin).
    exists t. split; [done|]. by apply create_component_outcome.
Qed.

(** X10, witness: a valid graph with a generation stage, when the client
    constructor raises. *)
Lemma execute_raises_exactly_on_construction_failure_witness :
  let gen := {| node_id := "gen";
                node_data := [("type", PStr "llm"); ("model", PStr "gpt-4o-mini")] |} in
  let nodes := [stage "in" "input"; gen; stage "out" "output"] in
  let edges := [connection "in" "gen"; connection "gen" "out"] in
  let OpenAI := Raise (StageError "The api_key client option must be set") in
  validate nodes edges = Ret (true, "Workflow is valid")
  ∧ ∃ self',
      execute unit (λ _ data w, (Ret data, w)) (λ _, "payload") (λ w, ("0", w)) OpenAI
        (WorkflowExecutor nodes edges) "hello" ()
      = (Raise (StageError "The api_key client option must be set"), self', ())
      ∧ self_execution_log self' = [].
Proof.
  intros gen nodes edges OpenAI.
  assert (validate nodes edges = Ret (true, "Workflow is valid")) as H by reflexivity.
  split; [exact H|].
  apply (proj1 (execute_raises_exactly_on_construction_failure unit
                  (λ _ data w, (Ret data, w)) (λ _, "payload") (λ w, ("0", w)) OpenAI
                  (WorkflowExecutor nodes edges) "hello" () _ H)
           [stage "in" "input"] gen [stage "out" "output"]); try done.
  repeat constructor. by eexists.
Defined.

(** ** The executor beyond the successful run *)

Section execute_more.
Variable World : Type.
Variable stage_execute : Component → PyValue → World → res PyValue * World.
Variable py_str : PyValue → string.
Variable clock : World → string * World.
Variable OpenAI : res unit.

(** A pipeline over a prefix of the order is how the loop starts. *)
Lemma pipeline_run_stages components pre payload log w payload' log' w' :
  pipeline World stage_execute py_str clock components pre payload log w payload' log' w' →
  ∀ rest,
    run_stages World stage_execute py_str clock (pre ++ rest) components payload log w
    = run_stages World stage_execute py_str clock rest components payload' log' w'.
Proof.
  induction 1 as [|node_id rest0 component payload log w t1 w1 result w2 t2 w3
                   payload' log' w' Hget Hc1 Hex Hc2 _ IH]; intros rest; [done|].
  cbn [app run_stages]. rewrite Hget. unfold _log_execution.
  rewrite Hc1, Hex, Hc2. rewrite <- app_assoc. apply IH.
Qed.

(** What the loop appends to the log, whatever its outcome. *)
Lemma run_stages_log components order : ∀ payload log w r log' w',
  run_stages World stage_execute py_str clock order components payload log w = (r, log', w') →
  ∃ new, log' = log ++ new
    ∧ Forall (λ e, (status e = "started" ∨ status e = "completed")
                   ∧ String.length (data_preview e) ≤ 200
                   ∧ log_node_id e ∈ order) new
    ∧ length new ≤ 2 * length order.
Proof.
  induction order as [|node_id rest IH]; intros payload log w r log' w';
    cbn [run_stages].
  - intros [= <- <- <-]. exists []. rewrite app_nil_r. split_and!; [done..|simpl; lia].
  - destruct (dict_get node_id components) as [component|] eqn:Hc.
    2:{ intros [= <- <- <-]. exists []. rewrite app_nil_r. split_and!; [done..|simpl; lia]. }
    unfold _log_execution.
    destruct (clock w) as [t1 w1] eqn:Hc1.
    assert (∀ data, String.length
              (if truthy data then slice_to 200 (py_str data) else "") ≤ 200) as Hlen.
    { intros data. destruct (truthy data); [apply slice_to_length | simpl; lia]. }
    destruct (stage_execute component payload w1) as [[result| |] w2] eqn:Hex.
    + destruct (clock w2) as [t2 w3] eqn:Hc2.
      intros (new & -> & Hall & Hn)%IH.
      eexists (_ :: _ :: new). rewrite <- !app_assoc. split_and!; [done| |simpl; lia].
      repeat apply Forall_cons_2.
      * split_and!; [by left | apply Hlen | by left].
      * split_and!; [by right | apply Hlen | by left].
      * eapply Forall_impl; [done|]. intros e (? & ? & ?). split_and!; [done..|by right].
    + intros [= <- <- <-]. eexists [_]. split_and!; [done| |simpl; lia].
      apply Forall_singleton. split_and!; [by left | apply Hlen | by left].
    + intros [= <- <- <-]. eexists [_]. split_and!; [done| |simpl; lia].
      apply Forall_singleton. split_and!; [by left | apply Hlen | by left].
Qed.

(** [_initialize_components] keeps the entries of the ids it does not declare. *)
Lemma initialize_components_other nodes n : ∀ components0 r components,
  _initialize_components OpenAI nodes components0 = (r, components) →
  n ∉ ids nodes →
  dict_get n components = dict_get n components0.
Proof.
  induction nodes as [|node nodes IH]; intros components0 r components; simpl.
  - by intros [= _ <-].
  - intros Hinit Hn. apply not_elem_of_cons in Hn as [Hne Hn].
    destruct (create_component OpenAI (node_id node) (node_data node)) as [c| |].
    + rewrite (IH _ _ _ Hinit Hn). by rewrite dict_get_set_ne.
    + by injection Hinit as _ <-.
    + by injection Hinit as _ <-.
Qed.

(** [execute] never changes the graph of the executor, and only appends to
    its log. *)
Lemma execute_frame self query w r self' w' :
  execute World stage_execute py_str clock OpenAI self query w = (r, self', w') →
  self_nodes self' = self_nodes self ∧ self_edges self' = self_edges self
  ∧ ∃ new, self_execution_log self' = self_execution_log self ++ new
      ∧ Forall (λ e, (status e = "started" ∨ status e = "completed")
                     ∧ String.length (data_preview e) ≤ 200
                     ∧ log_node_id e ∈ ids (self_nodes self)) new
      ∧ (∀ order, get_execution_order (self_nodes self) (self_edges self) = Ret order →
         length new ≤ 2 * length order)
      ∧ ∀ res, r = Ret res →
          execution_log res = [] ∧ new = [] ∧ success res = false
          ∨ execution_log res = self_execution_log self'.
Proof.
  unfold execute.
  destruct (validate _ _) as [[is_valid msg]| |] eqn:Hval.
  2,3: intros [= <- <- <-]; split_and!; [done..|]; exists [];
       cbn [self_execution_log]; rewrite app_nil_r;
       (split_and!; [done..|intros; simpl; lia|done]).
  destruct is_valid; cbn [negb].
  2:{ intros [= <- <- <-]. split_and!; [done..|]. exists []. rewrite app_nil_r.
      split_and!; [done..| |].
      - intros; simpl; lia.
      - intros res [= <-]. by left. }
  destruct (validate_true_inv _ _ _ Hval) as (_ & Hcl & Hac).
  destruct (get_execution_order_spec _ _ Hcl) as (stf & rest & Hord & Hinv & Hq & _).
  rewrite Hord.
  destruct (_initialize_components OpenAI _ _) as [ri components] eqn:Hinit.
  destruct ri as [[]| |].
  2,3: intros [= <- <- <-]; split_and!; [done..|]; exists [];
       cbn [self_execution_log]; rewrite app_nil_r;
       (split_and!; [done..|intros; simpl; lia|done]).
  destruct (run_stages _ _ _ _ _ _ _ _ _) as [[rp log] w1] eqn:Hrun.
  destruct (run_stages_log _ _ _ _ _ _ _ _ Hrun) as (new & -> & Hall & Hlen).
  assert (Forall (λ e, (status e = "started" ∨ status e = "completed")
                       ∧ String.length (data_preview e) ≤ 200
                       ∧ log_node_id e ∈ ids (self_nodes self)) new) as Hall'.
  { eapply Forall_impl; [done|]. intros e (? & ? & Hin). split_and!; [done..|].
    apply elem_of_declared_keys, (inv_sub _ _ _ Hinv). rewrite Hq, app_nil_r. done. }
  destruct rp as [payload|e|]; cbn [res_bind].
  - destruct (final_output py_str payload) as [final|e|] eqn:Hfin; cbn [res_bind].
    + intros [= <- <- <-]. split_and!; [done..|]. exists new. split_and!; [done..| |].
      * by intros order [= <-].
      * intros res [= <-]. by right.
    + intros [= <- <- <-]. split_and!; [done..|]. exists new. split_and!; [done..| |].
      * by intros order [= <-].
      * intros res [= <-]. by right.
    + by destruct payload.
  - intros [= <- <- <-]. split_and!; [done..|]. exists new. split_and!; [done..| |].
    + by intros order [= <-].
    + intros res [= <-]. by right.
  - intros [= <- <- <-]. split_and!; [done..|]. exists new. split_and!; [done..| |].
    + by intros order [= <-].
    + done.
Qed.

End execute_more.

Lemma initialize_components_app OpenAI pre : ∀ rest components0 components1,
  _initialize_components OpenAI pre components0 = (Ret (), components1) →
  _initialize_components OpenAI (pre ++ rest) components0
  = _initialize_components OpenAI rest components1.
Proof.
  induction pre as [|node pre IH]; intros rest components0 components1; simpl.
  - by intros [= <-].
  - destruct (create_component OpenAI (node_id node) (node_data node)) as [c| |];
      [|done..].
    apply IH.
Qed.

Lemma initialize_components_prefix OpenAI pre : ∀ rest components0 components,
  _initialize_components OpenAI (pre ++ rest) components0 = (Ret (), components) →
  ∃ components1, _initialize_components OpenAI pre components0 = (Ret (), components1).
Proof.
  induction pre as [|node pre IH]; intros rest components0 components; simpl.
  - eauto.
  - destruct (create_component OpenAI (node_id node) (node_data node)) as [c| |];
      [|done..].
    apply IH.
Qed.

Lemma execution_order_length nodes edges order :
  endpoint_closed nodes edges →
  get_execution_order nodes edges = Ret order →
  length order ≤ length nodes.
Proof.
  intros Hcl Hord.
  destruct (get_execution_order_spec _ _ Hcl) as (stf & rest & Hord' & Hinv & Hq & _).
  rewrite Hord in Hord'. injection Hord' as ->.
  etrans; [|apply declared_keys_length].
  apply submseteq_length, NoDup_submseteq.
  - pose proof (inv_nodup _ _ _ Hinv) as Hnd. by rewrite Hq, app_nil_r in Hnd.
  - intros x Hx. apply (inv_sub _ _ _ Hinv). by rewrite Hq, app_nil_r.
Qed.

(** X11: whatever [execute] does (a result, an exception that leaves it, a
    stage that does not return), it leaves the graph of the executor as it
    was and only appends to the executor's log.  The appended entries have
    the status "started" or "completed" (never "error"), a preview of at most
    200 characters and the id of a declared stage, and there are at most two
    of them per declared stage.  A returned result carries the whole log of
    the executor, entries of earlier runs included, unless validation
    failed: then its log is empty and nothing was appended. *)
Theorem execute_only_appends_to_log
    (World : Type)
    (stage_execute : Component → PyValue → World → res PyValue * World)
    (py_str : PyValue → string) (clock : World → string * World) (OpenAI : res unit)
    (self : Executor) (query : string) (w : World)
    (r : res RunResult) (self' : Executor) (w' : World) :
  execute World stage_execute py_str clock OpenAI self query w = (r, self', w') →
  self_nodes self' = self_nodes self
  ∧ self_edges self' = self_edges self
  ∧ ∃ new,
      self_execution_log self' = self_execution_log self ++ new
      ∧ Forall (λ e, (status e = "started" ∨ status e = "completed")
                     ∧ String.length (data_preview e) ≤ 200
                     ∧ log_node_id e ∈ ids (self_nodes self)) new
      ∧ length new ≤ 2 * length (self_nodes self)
      ∧ ∀ result, r = Ret result →
          success result = false ∧ execution_log result = [] ∧ new = []
          ∨ execution_log result = self_execution_log self ++ new.
Proof.
  intros Hrun.
  destruct (execute_frame _ _ _ _ _ _ _ _ _ _ _ Hrun)
    as (Hn & He & new & Hlog & Hall & Hlen & Hres).
  split_and!; [done..|]. exists new. split_and!; [done..| |].
  - destruct (validate (self_nodes self) (self_edges self))
      as [[[] msg]| |] eqn:Hval.
    + destruct (validate_true_inv _ _ _ Hval) as (_ & Hcl & _).
      destruct (get_execution_order_spec _ _ Hcl) as (stf & rest & Hord & _).
      pose proof (execution_order_length _ _ _ Hcl Hord).
      specialize (Hlen _ Hord). lia.
    + revert Hrun. unfold execute. rewrite Hval. cbn [negb].
      intros [= <- <- <-].
      assert (new = []) as ->; [|simpl; lia].
      apply (app_inv_head (self_execution_log self)). by rewrite app_nil_r.
    + revert Hrun. unfold execute. rewrite Hval. intros [= <- <- <-].
      assert (new = []) as ->; [|simpl; lia].
      apply (app_inv_head (self_execution_log self)). by rewrite app_nil_r.
    + revert Hrun. unfold execute. rewrite Hval. intros [= <- <- <-].
      assert (new = []) as ->; [|simpl; lia].
      apply (app_inv_head (self_execution_log self)). by rewrite app_nil_r.
  - intros result ->. destruct (Hres _ eq_refl) as [(? & ? & ?)|Heq].
    + left. by split_and!.
    + right. by rewrite Heq.
Qed.

(** X11, witness: Input → Output, every stage handing its payload on. *)
Lemma execute_only_appends_to_log_witness :
  let nodes := [stage "in" "input"; stage "out" "output"] in
  let edges := [connection "in" "out"] in
  let self := WorkflowExecutor nodes edges in
  ∃ r self' w',
    execute unit (λ _ data w, (Ret data, w)) (λ _, "payload") (λ w, ("0", w)) (Ret ())
      self "hello" () = (r, self', w')
    ∧ self_nodes self' = nodes
    ∧ self_edges self' = edges
    ∧ ∃ new,
        self_execution_log self' = [] ++ new
        ∧ Forall (λ e, (status e = "started" ∨ status e = "completed")
                       ∧ String.length (data_preview e) ≤ 200
                       ∧ log_node_id e ∈ ids nodes) new
        ∧ length new ≤ 2 * length nodes
        ∧ ∀ result, r = Ret result →
            success result = false ∧ execution_log result = [] ∧ new = []
            ∨ execution_log result = [] ++ new.
Proof.
  intros nodes edges self. eexists _, _, _. split; [reflexivity|].
  exact (execute_only_appends_to_log unit (λ _ data w, (Ret data, w))
           (λ _, "payload") (λ w, ("0", w)) (Ret ()) self "hello" () _ _ _ eq_refl).
Defined.

(** X12: when a stage raises, [execute] returns a failure result whose error
    is the string of the exception and whose output is None.  The log holds
    the started and completed entries of the stages before it and then the
    started entry of the failing stage, with no entry after it: the stages
    after the failing one are not run. *)
Theorem execute_stage_failure
    (World : Type)
    (stage_execute : Component → PyValue → World → res PyValue * World)
    (py_str : PyValue → string) (clock : World → string * World) (OpenAI : res unit)
    (self : Executor) (query : string) (w : World) (msg : string)
    (pre : list string) (n : string) (post : list string)
    (components : dict Component) (payload : PyValue) (log1 : list LogEntry)
    (w1 : World) (c : Component) (t : string) (w2 : World) (e : exn) (w3 : World) :
  validate (self_nodes self) (self_edges self) = Ret (true, msg) →
  get_execution_order (self_nodes self) (self_edges self) = Ret (pre ++ n :: post) →
  _initialize_components OpenAI (self_nodes self) (self_components self)
    = (Ret (), components) →
  pipeline World stage_execute py_str clock components pre
    (PDict [("query", PStr query)]) (self_execution_log self) w payload log1 w1 →
  dict_get n components = Some c →
  clock w1 = (t, w2) →
  stage_execute c payload w2 = (Raise e, w3) →
  ∃ self',
    execute World stage_execute py_str clock OpenAI self query w
    = (Ret {| success := false; error := Some (str_exn e); output := PNone;
              execution_log := log1 ++ [log_entry py_str n "started" t payload];
              full_output := None |}, self', w3)
    ∧ self_execution_log self'
      = log1 ++ [log_entry py_str n "started" t payload]
    ∧ (λ e, (log_node_id e, status e)) <$> log1
      = ((λ e, (log_node_id e, status e)) <$> self_execution_log self)
        ++ (pre ≫= (λ n, [(n, "started"); (n, "completed")])).
Proof.
  intros Hval Hord Hinit Hpipe Hget Hclock Hex.
  eexists. unfold execute. rewrite Hval, Hord, Hinit. cbn [negb].
  rewrite (pipeline_run_stages _ _ _ _ _ _ _ _ _ _ _ _ Hpipe (n :: post)).
  cbn [run_stages]. rewrite Hget. unfold _log_execution. rewrite Hclock, Hex.
  cbn [res_bind]. split_and!; [reflexivity..|].
  apply pipeline_log in Hpipe as (new & -> & Hshape & _).
  by rewrite fmap_app, Hshape.
Qed.

(** X13: when every stage of the computed order returns, the result of
    [execute] is decided by the last payload.  A dictionary gives the success
    result with the output taken from it; any other payload gives a failure
    result, because the final [.get] on it raises inside the [try], with the
    attribute-error message as error, no output, and the complete log. *)
Theorem execute_result_of_pipeline
    (World : Type)
    (stage_execute : Component → PyValue → World → res PyValue * World)
    (py_str : PyValue → string) (clock : World → string * World) (OpenAI : res unit)
    (self : Executor) (query : string) (w : World) (msg : string)
    (order : list string) (components : dict Component)
    (payload : PyValue) (log1 : list LogEntry) (w1 : World) :
  validate (self_nodes self) (self_edges self) = Ret (true, msg) →
  get_execution_order (self_nodes self) (self_edges self) = Ret order →
  _initialize_components OpenAI (self_nodes self) (self_components self)
    = (Ret (), components) →
  pipeline World stage_execute py_str clock components order
    (PDict [("query", PStr query)]) (self_execution_log self) w payload log1 w1 →
  ∃ self',
    execute World stage_execute py_str clock OpenAI self query w
    = (Ret match payload with
           | PDict d =>
               {| success := true; error := None; output := output_of py_str d;
                  execution_log := log1; full_output := Some payload |}
           | v =>
               {| success := false;
                  error := Some (str_exn (no_attribute v "get"));
                  output := PNone; execution_log := log1; full_output := None |}
           end, self', w1)
    ∧ self_execution_log self' = log1.
Proof.
  intros Hval Hord Hinit Hpipe.
  eexists. unfold execute. rewrite Hval, Hord, Hinit. cbn [negb].
  pose proof (pipeline_run_stages _ _ _ _ _ _ _ _ _ _ _ _ Hpipe []) as Hrun.
  rewrite app_nil_r in Hrun. rewrite Hrun. cbn [run_stages res_bind].
  destruct payload as [| | | | |d]; cbn [final_output res_bind];
    (split; [reflexivity|done]).
Qed.

(** X14: [self.components] is keyed by the stage id, so when an id is
    declared more than once the instance built from the last declaration is
    the one the loop runs; an id that is not declared keeps the instance it
    had before. *)
Theorem components_of_last_declaration (OpenAI : res unit)
    (pre : list Node) (node : Node) (post : list Node)
    (components0 components : dict Component) :
  _initialize_components OpenAI (pre ++ node :: post) components0 = (Ret (), components) →
  node_id node ∉ ids post →
  (∃ c, create_component OpenAI (node_id node) (node_data node) = Ret c
        ∧ dict_get (node_id node) components = Some c)
  ∧ ∀ n, n ∉ ids (pre ++ node :: post) →
      dict_get n components = dict_get n components0.
Proof.
  intros Hinit Hlast. split.
  - destruct (initialize_components_prefix _ _ _ _ _ Hinit) as [components1 Hpre].
    rewrite (initialize_components_app _ _ _ _ _ Hpre) in Hinit.
    cbn [_initialize_components] in Hinit.
    destruct (create_component OpenAI (node_id node) (node_data node)) as [c| |];
      [|done..].
    exists c. split; [done|].
    rewrite (initialize_components_other _ _ _ _ _ _ Hinit Hlast).
    apply dict_get_set_eq.
  - intros n Hn. by eapply initialize_components_other.
Qed.

(** X12, witness: Input → Output where the output stage raises. *)
Lemma execute_stage_failure_witness :
  let nodes := [stage "in" "input"; stage "out" "output"] in
  let edges := [connection "in" "out"] in
  let run := λ (c : Component) (data : PyValue) (w : unit),
    match component_class_of c with
    | OutputComponent => (Raise (StageError "no display"), w)
    | _ => (Ret data, w)
    end in
  let payload := PDict [("query", PStr "hello")] in
  validate nodes edges = Ret (true, "Workflow is valid")
  ∧ get_execution_order nodes edges = Ret (["in"] ++ "out" :: [])
  ∧ ∃ self',
      execute unit run (λ _, "payload") (λ w, ("0", w)) (Ret ())
        (WorkflowExecutor nodes edges) "hello" ()
      = (Ret {| success := false; error := Some "no display"; output := PNone;
                execution_log :=
                  [log_entry (λ _, "payload") "in" "started" "0" payload;
                   log_entry (λ _, "payload") "in" "completed" "0" payload]
                  ++ [log_entry (λ _, "payload") "out" "started" "0" payload];
                full_output := None |}, self', ()).
Proof.
  intros nodes edges run payload.
  assert (validate nodes edges = Ret (true, "Workflow is valid")) as Hval
    by reflexivity.
  assert (get_execution_order nodes edges = Ret (["in"] ++ "out" :: [])) as Hord
    by reflexivity.
  split_and!; [exact Hval | exact Hord|].
  destruct (execute_stage_failure unit run (λ _, "payload") (λ w, ("0", w)) (Ret ())
              (WorkflowExecutor nodes edges) "hello" () _ ["in"] "out" []
              (_initialize_components (Ret ()) nodes []).2 payload
              [log_entry (λ _, "payload") "in" "started" "0" payload;
               log_entry (λ _, "payload") "in" "completed" "0" payload] ()
              {| component_class_of := OutputComponent; component_node_id := "out";
                 config := [("type", PStr "output")] |}
              "0" () (StageError "no display") () Hval Hord)
    as (self' & Hrun & _); try reflexivity.
  - by apply run_stages_pipeline.
  - by exists self'.
Defined.

(** X13, witness: Input → Output where the output stage answers with a bare
    string: the final [.get] fails and the run is reported as failed. *)
Lemma execute_result_of_pipeline_witness :
  let nodes := [stage "in" "input"; stage "out" "output"] in
  let edges := [connection "in" "out"] in
  let run := λ (c : Component) (data : PyValue) (w : unit),
    match component_class_of c with
    | OutputComponent => (Ret (PStr "done"), w)
    | _ => (Ret data, w)
    end in
  let payload := PDict [("query", PStr "hello")] in
  validate nodes edges = Ret (true, "Workflow is valid")
  ∧ get_execution_order nodes edges = Ret ["in"; "out"]
  ∧ ∃ self',
      execute unit run (λ _, "payload") (λ w, ("0", w)) (Ret ())
        (WorkflowExecutor nodes edges) "hello" ()
      = (Ret {| success := false;
                error := Some "'str' object has no attribute 'get'";
                output := PNone;
                execution_log :=
                  [log_entry (λ _, "payload") "in" "started" "0" payload;
                   log_entry (λ _, "payload") "in" "completed" "0" payload;
                   log_entry (λ _, "payload") "out" "started" "0" payload;
                   log_entry (λ _, "payload") "out" "completed" "0" (PStr "done")];
                full_output := None |}, self', ()).
Proof.
  intros nodes edges run payload.
  assert (validate nodes edges = Ret (true, "Workflow is valid")) as Hval
    by reflexivity.
  assert (get_execution_order nodes edges = Ret ["in"; "out"]) as Hord
    by reflexivity.
  split_and!; [exact Hval | exact Hord|].
  destruct (execute_result_of_pipeline unit run (λ _, "payload") (λ w, ("0", w)) (Ret ())
              (WorkflowExecutor nodes edges) "hello" () _ ["in"; "out"]
              (_initialize_components (Ret ()) nodes []).2 (PStr "done")
              [log_entry (λ _, "payload") "in" "started" "0" payload;
               log_entry (λ _, "payload") "in" "completed" "0" payload;
               log_entry (λ _, "payload") "out" "started" "0" payload;
               log_entry (λ _, "payload") "out" "completed" "0" (PStr "done")]
              () Hval Hord)
    as (self' & Hrun & _); try reflexivity.
  - by apply run_stages_pipeline.
  - by exists self'.
Defined.

(** X14, witness: the id "a" declared twice, first as an input stage and
    then as an output stage. *)
Lemma components_of_last_declaration_witness :
  let pre := [stage "a" "input"; stage "b" "llm"] in
  let node := stage "a" "output" in
  _initialize_components (Ret ()) (pre ++ node :: []) []
  = (Ret (), (_initialize_components (Ret ()) (pre ++ node :: []) []).2)
  ∧ (∃ c, create_component (Ret ()) "a" [("type", PStr "output")] = Ret c
          ∧ dict_get "a" (_initialize_components (Ret ()) (pre ++ node :: []) []).2 = Some c)
  ∧ ∀ n, n ∉ ids (pre ++ node :: []) →
      dict_get n (_initialize_components (Ret ()) (pre ++ node :: []) []).2 = dict_get n [].
Proof.
  intros pre node.
  assert (_initialize_components (Ret ()) (pre ++ node :: []) []
          = (Ret (), (_initialize_components (Ret ()) (pre ++ node :: []) []).2)) as H
    by reflexivity.
  split; [exact H|].
  apply (components_of_last_declaration (Ret ()) pre node [] [] _ H).
  simpl. apply not_elem_of_nil.
Defined.

(** X15: the log of an executor is never reset.  When [execute] succeeds
    twice on the same executor, the log of the second result is the log of
    the first followed by the entries of the second run, so it holds four
    entries per stage of the order, not two. *)
Theorem execute_again_extends_log
    (World : Type)
    (stage_execute : Component → PyValue → World → res PyValue * World)
    (py_str : PyValue → string) (clock : World → string * World) (OpenAI : res unit)
    (nodes : list Node) (edges : list Edge) (query1 query2 : string) (w : World)
    (r1 : RunResult) (self1 : Executor) (w1 : World)
    (r2 : RunResult) (self2 : Executor) (w2 : World) :
  execute World stage_execute py_str clock OpenAI (WorkflowExecutor nodes edges) query1 w
    = (Ret r1, self1, w1) →
  success r1 = true →
  execute World stage_execute py_str clock OpenAI self1 query2 w1 = (Ret r2, self2, w2) →
  success r2 = true →
  ∃ order new,
    get_execution_order nodes edges = Ret order
    ∧ execution_log r2 = execution_log r1 ++ new
    ∧ (λ e, (log_node_id e, status e)) <$> new
      = order ≫= (λ n, [(n, "started"); (n, "completed")])
    ∧ length (execution_log r1) = 2 * length order
    ∧ length (execution_log r2) = 4 * length order.
Proof.
  intros Hrun1 Hok1 Hrun2 Hok2.
  destruct (execute_frame _ _ _ _ _ _ _ _ _ _ _ Hrun1) as (Hn & He & _).
  destruct (execute_success_inv _ _ _ _ _ _ _ _ _ _ _ Hrun1 Hok1)
    as (_ & _ & _ & _ & _ & _ & _ & _ & _ & _ & _ & _ & Hlog1).
  destruct (execute_log_extends _ _ _ _ _ _ _ _ _ _ _ Hrun1 Hok1)
    as (order & new1 & Hord & Hnew1 & Hshape1).
  destruct (execute_log_extends _ _ _ _ _ _ _ _ _ _ _ Hrun2 Hok2)
    as (order' & new2 & Hord' & Hnew2 & Hshape2).
  simpl in Hn, He, Hord, Hnew1. rewrite Hn, He, Hord in Hord'.
  injection Hord' as <-. rewrite Hlog1 in Hnew2.
  assert (∀ l : list string,
            length (l ≫= (λ n, [(n, "started"); (n, "completed")])) = 2 * length l)
    as Hlen.
  { induction l as [|x l IH]; csimpl; [done|]. rewrite IH. lia. }
  assert (length new1 = 2 * length order) as Hl1.
  { rewrite <- Hlen, <- Hshape1. by rewrite length_fmap. }
  assert (length new2 = 2 * length order) as Hl2.
  { rewrite <- Hlen, <- Hshape2. by rewrite length_fmap. }
  exists order, new2. split_and!; [done..| |].
  - by rewrite Hnew1.
  - rewrite Hnew2, length_app, Hnew1. lia.
Qed.

(** X15, witness: Input → Output run twice on one executor. *)
Lemma execute_again_extends_log_witness :
  let nodes := [stage "in" "input"; stage "out" "output"] in
  let edges := [connection "in" "out"] in
  let run := λ (c : Component) (data : PyValue) (w : unit), (Ret data, w) in
  let first := execute unit run (λ _, "payload") (λ w, ("0", w)) (Ret ())
                 (WorkflowExecutor nodes edges) "hello" () in
  let second := execute unit run (λ _, "payload") (λ w, ("0", w)) (Ret ())
                  first.1.2 "again" () in
  ∃ r1 r2,
    first.1.1 = Ret r1 ∧ second.1.1 = Ret r2
    ∧ ∃ order new,
        get_execution_order nodes edges = Ret order
        ∧ execution_log r2 = execution_log r1 ++ new
        ∧ (λ e, (log_node_id e, status e)) <$> new
          = order ≫= (λ n, [(n, "started"); (n, "completed")])
        ∧ length (execution_log r1) = 2 * length order
        ∧ length (execution_log r2) = 4 * length order.
Proof.
  intros nodes edges run first second.
  eexists _, _. split; [reflexivity|]. split; [reflexivity|].
  eapply (execute_again_extends_log unit run (λ _, "payload") (λ w, ("0", w)) (Ret ())
            nodes edges "hello" "again" () _ first.1.2 () _ second.1.2 ());
    reflexivity.
Defined.

(** ** Chunking *)

Lemma slice_to_length_eq n s :
  String.length (slice_to n s) = n `min` String.length s.
Proof.
  revert s. induction n as [|n IH]; intros [|c s]; simpl; try done.
  by rewrite IH.
Qed.

Lemma str_drop_length n s :
  String.length (str_drop n s) = String.length s - n.
Proof.
  revert s. induction n as [|n IH]; intros [|c s]; simpl; try done; lia.
Qed.

Lemma slice_to_slice_to a b s : slice_to a (slice_to b s) = slice_to (a `min` b) s.
Proof.
  revert b s. induction a as [|a IH]; intros [|b] [|c s]; simpl; try done.
  by rewrite IH.
Qed.

Lemma slice_to_beyond n m s :
  String.length s ≤ m → slice_to (n `min` m) s = slice_to n s.
Proof.
  revert m s. induction n as [|n IH]; intros [|m] [|c s]; simpl; try done; try lia.
  intros Hlen. rewrite IH; [done | lia].
Qed.

Lemma slice_drop n s : slice_to n s +:+ str_drop n s = s.
Proof.
  revert s. induction n as [|n IH]; intros [|c s]; simpl; try done.
  change (String c (slice_to n s +:+ str_drop n s) = String c s).
  by rewrite IH.
Qed.

Lemma str_drop_drop a b s : str_drop a (str_drop b s) = str_drop (b + a) s.
Proof.
  revert s. induction b as [|b IH]; intros s; [done|].
  destruct s as [|c s]; simpl; [by destruct a|]. apply IH.
Qed.

Lemma str_drop_beyond n s : String.length s ≤ n → str_drop n s = "".
Proof.
  revert s. induction n as [|n IH]; intros [|c s]; simpl; try done; try lia.
  intros Hlen. apply IH. lia.
Qed.

(** The slice [text[start:start + size]] taken by the loop. *)
Lemma py_slice_chunk text (start size : Z) :
  (0 ≤ start < Z.of_nat (String.length text))%Z → (0 < size)%Z →
  py_slice text start (start + size)
  = slice_to (Z.to_nat size) (str_drop (Z.to_nat start) text).
Proof.
  intros Hstart Hsize. unfold py_slice, slice_bound.
  destruct (Z.ltb_spec start 0); [lia|].
  destruct (Z.ltb_spec (start + size) 0); [lia|].
  replace (Z.min start (Z.of_nat (String.length text))) with start by lia.
  replace (Z.to_nat (Z.min (start + size) (Z.of_nat (String.length text)) - start))
    with (Z.to_nat size `min` (String.length text - Z.to_nat start)) by lia.
  apply slice_to_beyond. by rewrite str_drop_length.
Qed.

Lemma chunk_loop_spec (size overlap : Z) (text : string) :
  (0 ≤ overlap < size)%Z →
  ∀ fuel (start : Z) chunks,
    (0 ≤ start)%Z →
    (Z.max 0 (Z.of_nat (String.length text) - start) < Z.of_nat fuel)%Z →
    ∃ new,
      chunk_loop fuel size overlap text start chunks = Ret (chunks ++ new)
      ∧ length new
        = Z.to_nat ((Z.of_nat (String.length text) - start + (size - overlap) - 1)
                    / (size - overlap))
      ∧ (∀ k, k < length new →
           new !! k
           = Some (py_slice text (start + Z.of_nat k * (size - overlap))
                     (start + Z.of_nat k * (size - overlap) + size)))
      ∧ str_concat (slice_to (Z.to_nat (size - overlap)) <$> new)
        = str_drop (Z.to_nat start) text
      ∧ Forall (λ c, 0 < String.length c ≤ Z.to_nat size) new.
Proof.
  intros Hsz. induction fuel as [|fuel IH]; intros start chunks Hstart Hfuel.
  - exfalso. lia.
  - cbn [chunk_loop]. destruct (Z.ltb_spec start (Z.of_nat (String.length text)))
      as [Hlt|Hge].
    + destruct (IH (start + (size - overlap))%Z
                  (chunks ++ [py_slice text start (start + size)]))
        as (new & -> & Hlen & Hk & Hcat & Hall); [lia..|].
      exists (py_slice text start (start + size) :: new).
      rewrite <- app_assoc. split_and!; [done| | | |].
      * cbn [length]. rewrite Hlen.
        replace (Z.of_nat (String.length text) - start + (size - overlap) - 1)%Z
          with ((Z.of_nat (String.length text) - (start + (size - overlap))
                 + (size - overlap) - 1) + 1 * (size - overlap))%Z by lia.
        rewrite Z.div_add by lia.
        assert (0 ≤ (Z.of_nat (String.length text) - (start + (size - overlap))
                     + (size - overlap) - 1) / (size - overlap))%Z
          by (apply Z.div_pos; lia).
        lia.
      * intros [|k] Hklt; cbn [lookup list_lookup].
        -- simpl. do 2 f_equal; lia.
        -- simpl. rewrite Hk by (simpl in Hklt; lia). do 2 f_equal; lia.
      * cbn [fmap list_fmap str_concat foldr].
        fold (str_concat (slice_to (Z.to_nat (size - overlap)) <$> new)).
        rewrite Hcat. rewrite py_slice_chunk by lia.
        rewrite slice_to_slice_to, Nat.min_l by lia.
        replace (Z.to_nat (start + (size - overlap)))
          with (Z.to_nat start + Z.to_nat (size - overlap)) by lia.
        rewrite <- str_drop_drop. apply slice_drop.
      * constructor; [|done]. rewrite py_slice_chunk by lia.
        rewrite slice_to_length_eq, str_drop_length. lia.
    + exists []. rewrite app_nil_r. split_and!; [done| | | |done].
      * cbn [length].
        assert ((Z.of_nat (String.length text) - start + (size - overlap) - 1)
                / (size - overlap) < 1)%Z
          by (apply Z.div_lt_upper_bound; lia).
        lia.
      * intros k Hk. simpl in Hk. lia.
      * rewrite str_drop_beyond by lia. done.
Qed.

(** X16: with [0 <= chunk_overlap < chunk_size] the chunking loop ends, and
    chunk number k of the result is the slice of the text that starts at
    k * (chunk_size - chunk_overlap) and is chunk_size long (shorter at the
    end of the text); there are ceil(len(text) / (chunk_size -
    chunk_overlap)) chunks. *)
Theorem chunk_text_slices (fuel : nat) (chunk_size chunk_overlap : Z) (text : string) :
  (0 ≤ chunk_overlap < chunk_size)%Z →
  String.length text < fuel →
  ∃ chunks,
    _chunk_text fuel chunk_size chunk_overlap text = Ret chunks
    ∧ length chunks
      = Z.to_nat ((Z.of_nat (String.length text) + (chunk_size - chunk_overlap) - 1)
                  / (chunk_size - chunk_overlap))
    ∧ ∀ k, k < length chunks →
        chunks !! k
        = Some (py_slice text (Z.of_nat k * (chunk_size - chunk_overlap))
                  (Z.of_nat k * (chunk_size - chunk_overlap) + chunk_size)).
Proof.
  intros Hsz Hfuel.
  destruct (chunk_loop_spec chunk_size chunk_overlap text Hsz fuel 0%Z [])
    as (new & Hrun & Hlen & Hk & _); [lia..|].
  exists new. split_and!; [done| |].
  - rewrite Hlen. do 2 f_equal. lia.
  - intros k Hlt. rewrite (Hk k Hlt). do 2 f_equal; lia.
Qed.

(** X16, witness: ten characters in chunks of four with an overlap of one. *)
Lemma chunk_text_slices_witness :
  ∃ chunks,
    _chunk_text 11 4 1 "abcdefghij" = Ret chunks
    ∧ length chunks = Z.to_nat ((Z.of_nat 10 + (4 - 1) - 1) / (4 - 1))
    ∧ ∀ k, k < length chunks →
        chunks !! k
        = Some (py_slice "abcdefghij" (Z.of_nat k * (4 - 1))
                  (Z.of_nat k * (4 - 1) + 4)).
Proof.
  apply (chunk_text_slices 11 4 1 "abcdefghij"); [lia | simpl; lia].
Defined.

(** X17: with [0 <= chunk_overlap < chunk_size] no text is lost and no chunk
    is empty or longer than chunk_size: the first chunk_size - chunk_overlap
    characters of every chunk, put one after the other, are the text. *)
Theorem chunk_text_covers_text (fuel : nat) (chunk_size chunk_overlap : Z)
    (text : string) :
  (0 ≤ chunk_overlap < chunk_size)%Z →
  String.length text < fuel →
  ∃ chunks,
    _chunk_text fuel chunk_size chunk_overlap text = Ret chunks
    ∧ str_concat (slice_to (Z.to_nat (chunk_size - chunk_overlap)) <$> chunks) = text
    ∧ Forall (λ c, 0 < String.length c ≤ Z.to_nat chunk_size) chunks.
Proof.
  intros Hsz Hfuel.
  destruct (chunk_loop_spec chunk_size chunk_overlap text Hsz fuel 0%Z [])
    as (new & Hrun & _ & _ & Hcat & Hall); [lia..|].
  exists new. by split_and!.
Qed.

(** X17, witness: ten characters in chunks of four with an overlap of one. *)
Lemma chunk_text_covers_text_witness :
  ∃ chunks,
    _chunk_text 11 4 1 "abcdefghij" = Ret chunks
    ∧ str_concat (slice_to (Z.to_nat (4 - 1)) <$> chunks) = "abcdefghij"
    ∧ Forall (λ c, 0 < String.length c ≤ Z.to_nat 4) chunks.
Proof.
  apply (chunk_text_covers_text 11 4 1 "abcdefghij"); [lia | simpl; lia].
Defined.

Lemma chunk_loop_stuck (size overlap : Z) (text : string) :
  (size ≤ overlap)%Z → text ≠ "" →
  ∀ fuel (start : Z) chunks,
    (start ≤ 0)%Z → chunk_loop fuel size overlap text start chunks = Timeout.
Proof.
  intros Hsz Htext. induction fuel as [|fuel IH]; intros start chunks Hstart; [done|].
  cbn [chunk_loop].
  destruct (Z.ltb_spec start (Z.of_nat (String.length text))) as [_|Hge].
  - apply IH. lia.
  - destruct text; [done|]. simpl in Hge. lia.
Qed.

(** X18: when chunk_overlap is not smaller than chunk_size the position
    never advances, so on a non-empty text the chunking loop does not end:
    whatever bound is put on the number of iterations, the loop is still
    running when it is reached.  On the empty text the loop body is never
    entered and the result has no chunk. *)
Theorem chunk_text_never_ends (chunk_size chunk_overlap : Z) (text : string) :
  (chunk_size ≤ chunk_overlap)%Z →
  (text ≠ "" → ∀ fuel, _chunk_text fuel chunk_size chunk_overlap text = Timeout)
  ∧ (text = "" → ∀ fuel, _chunk_text (S fuel) chunk_size chunk_overlap text = Ret []).
Proof.
  intros Hsz. split.
  - intros Htext fuel. by apply chunk_loop_stuck.
  - by intros -> fuel.
Qed.

(** X18, witness: an overlap equal to the chunk size. *)
Lemma chunk_text_never_ends_witness :
  ("ab" ≠ "" → ∀ fuel, _chunk_text fuel 4 4 "ab" = Timeout)
  ∧ ("ab" = "" → ∀ fuel, _chunk_text (S fuel) 4 4 "ab" = Ret []).
Proof.
  apply (chunk_text_never_ends 4 4 "ab"). lia.
Defined.

(** ** The input and output stages inside a run *)

(** X19: when the last stage of the computed order is an output stage and
    the stages before it return, [execute] succeeds, and its output is the
    response the output stage extracted from the payload it was given: the
    [response] field of a dictionary (or the string of the dictionary when
    it has none), a string itself, the string of anything else.  The
    configured [output_format] does not reach the output of [execute]; it
    only shows in the [output] field of the full output. *)
Theorem execute_ending_in_output_stage
    (World : Type)
    (external_execute : Component → PyValue → World → res PyValue * World)
    (py_str : PyValue → string) (slice_error : PyValue → exn)
    (clock : World → string * World) (OpenAI : res unit)
    (self : Executor) (query : string) (w : World) (msg : string)
    (pre : list string) (n : string) (components : dict Component)
    (payload : PyValue) (log1 : list LogEntry) (w1 : World)
    (c : Component) (t1 : string) (w2 : World) (t2 : string) (w3 : World) :
  validate (self_nodes self) (self_edges self) = Ret (true, msg) →
  get_execution_order (self_nodes self) (self_edges self) = Ret (pre ++ [n]) →
  _initialize_components OpenAI (self_nodes self) (self_components self)
    = (Ret (), components) →
  pipeline World (dispatch_execute py_str slice_error external_execute) py_str clock
    components pre (PDict [("query", PStr query)]) (self_execution_log self) w
    payload log1 w1 →
  dict_get n components = Some c →
  component_class_of c = OutputComponent →
  clock w1 = (t1, w2) →
  clock w2 = (t2, w3) →
  ∃ self' r,
    execute World (dispatch_execute py_str slice_error external_execute) py_str clock OpenAI
      self query w = (Ret r, self', w3)
    ∧ success r = true
    ∧ output r = match payload with
                 | PDict d => default (PStr (py_str payload)) (dict_get "response" d)
                 | PStr _ => payload
                 | _ => PStr (py_str payload)
                 end
    ∧ full_output r
      = Some (output_execute py_str (config c) (component_node_id c) payload)
    ∧ execution_log r
      = log1 ++ [log_entry py_str n "started" t1 payload;
                 log_entry py_str n "completed" t2
                   (output_execute py_str (config c) (component_node_id c) payload)].
Proof.
  intros Hval Hord Hinit Hpipe Hget Hclass Hc1 Hc2.
  eexists _, _. unfold execute. rewrite Hval, Hord, Hinit. cbn [negb].
  rewrite (pipeline_run_stages _ _ _ _ _ _ _ _ _ _ _ _ Hpipe [n]).
  cbn [run_stages]. rewrite Hget. unfold _log_execution. rewrite Hc1.
  unfold dispatch_execute at 1. rewrite Hclass, Hc2.
  rewrite <- app_assoc. cbn [app res_bind].
  split; [reflexivity|]. by split_and!.
Qed.

(** X19, witness: Input → Output with the output format "json". *)
Lemma execute_ending_in_output_stage_witness :
  let nodes := [stage "in" "input";
                {| node_id := "out";
                   node_data := [("type", PStr "output");
                                 ("output_format", PStr "json")] |}] in
  let edges := [connection "in" "out"] in
  let payload := PDict [("query", PStr "hello"); ("component_type", PStr "user_query");
                        ("node_id", PStr "in")] in
  validate nodes edges = Ret (true, "Workflow is valid")
  ∧ get_execution_order nodes edges = Ret (["in"] ++ ["out"])
  ∧ ∃ self' r,
      execute unit
        (dispatch_execute (λ _, "payload") (λ _, StageError "slice")
           (λ _ data w, (Ret data, w)))
        (λ _, "payload") (λ w, ("0", w)) (Ret ()) (WorkflowExecutor nodes edges) "hello" ()
      = (Ret r, self', ())
      ∧ success r = true
      ∧ output r = PStr "payload"
      ∧ full_output r
        = Some (PDict [("output", PDict [("response", PStr "payload")]);
                       ("response", PStr "payload");
                       ("component_type", PStr "output"); ("node_id", PStr "out")])
      ∧ length (execution_log r) = 4.
Proof.
  intros nodes edges payload.
  assert (validate nodes edges = Ret (true, "Workflow is valid")) as Hval
    by reflexivity.
  assert (get_execution_order nodes edges = Ret (["in"] ++ ["out"])) as Hord
    by reflexivity.
  split_and!; [exact Hval | exact Hord|].
  destruct (execute_ending_in_output_stage unit (λ _ data w, (Ret data, w))
              (λ _, "payload") (λ _, StageError "slice") (λ w, ("0", w)) (Ret ())
              (WorkflowExecutor nodes edges) "hello" () _ ["in"] "out"
              (_initialize_components (Ret ()) nodes []).2 payload
              [log_entry (λ _, "payload") "in" "started" "0"
                 (PDict [("query", PStr "hello")]);
               log_entry (λ _, "payload") "in" "completed" "0" payload] ()
              {| component_class_of := OutputComponent; component_node_id := "out";
                 config := [("type", PStr "output"); ("output_format", PStr "json")] |}
              "0" () "0" () Hval Hord)
    as (self' & r & Hrun & Hok & Hout & Hfull & Hlog); try reflexivity.
  - by apply run_stages_pipeline.
  - exists self', r. split_and!; [done..|]. by rewrite Hlog.
Defined.

(** X20: a graph that runs an input stage and then an output stage, with no
    generation stage between them, does not answer with the query: the output
    of [execute] is the string of the whole dictionary that the input stage
    returned (query, component type and stage id). *)
Theorem execute_input_then_output
    (World : Type)
    (external_execute : Component → PyValue → World → res PyValue * World)
    (py_str : PyValue → string) (slice_error : PyValue → exn)
    (clock : World → string * World) (OpenAI : res unit)
    (self : Executor) (query : string) (w : World) (msg : string)
    (a b : string) (components : dict Component) (ca cb : Component) :
  validate (self_nodes self) (self_edges self) = Ret (true, msg) →
  get_execution_order (self_nodes self) (self_edges self) = Ret [a; b] →
  _initialize_components OpenAI (self_nodes self) (self_components self)
    = (Ret (), components) →
  dict_get a components = Some ca →
  component_class_of ca = UserQueryComponent →
  dict_get b components = Some cb →
  component_class_of cb = OutputComponent →
  ∃ self' r w',
    execute World (dispatch_execute py_str slice_error external_execute) py_str clock OpenAI
      self query w = (Ret r, self', w')
    ∧ success r = true
    ∧ output r
      = PStr (py_str (PDict [("query", PStr query);
                             ("component_type", PStr "user_query");
                             ("node_id", PStr (component_node_id ca))]))
    ∧ length (execution_log r) = length (self_execution_log self) + 4.
Proof.
  intros Hval Hord Hinit Ha Hca Hb Hcb.
  unfold execute. rewrite Hval, Hord, Hinit. cbn [negb run_stages].
  rewrite Ha, Hb. unfold _log_execution.
  destruct (clock w) as [t1 w1].
  unfold dispatch_execute at 1. rewrite Hca.
  cbn [user_query_execute dict_get].
  cbn [sliceable].
  destruct (clock w1) as [t2 w2].
  destruct (clock w2) as [t3 w3].
  unfold dispatch_execute at 1. rewrite Hcb.
  destruct (clock w3) as [t4 w4].
  eexists _, _, _. split; [reflexivity|]. split_and!; [done..|].
  cbn [execution_log]. rewrite !length_app. simpl. lia.
Qed.

(** X20, witness: Input → Output on the query "hello", where the string of a
    dictionary is written with its keys. *)
Lemma execute_input_then_output_witness :
  let nodes := [stage "in" "input"; stage "out" "output"] in
  let edges := [connection "in" "out"] in
  let show := λ v : PyValue,
    match v with
    | PDict d => "{" +:+ str_join ", " (dict_keys d) +:+ "}"
    | PStr s => s
    | _ => "?"
    end in
  validate nodes edges = Ret (true, "Workflow is valid")
  ∧ get_execution_order nodes edges = Ret ["in"; "out"]
  ∧ ∃ self' r w',
      execute unit
        (dispatch_execute show (λ _, StageError "slice") (λ _ data w, (Ret data, w)))
        show (λ w, ("0", w)) (Ret ()) (WorkflowExecutor nodes edges) "hello" ()
      = (Ret r, self', w')
      ∧ success r = true
      ∧ output r = PStr "{query, component_type, node_id}"
      ∧ length (execution_log r) = 4.
Proof.
  intros nodes edges show.
  assert (validate nodes edges = Ret (true, "Workflow is valid")) as Hval
    by reflexivity.
  assert (get_execution_order nodes edges = Ret ["in"; "out"]) as Hord
    by reflexivity.
  split_and!; [exact Hval | exact Hord|].
  exact (execute_input_then_output unit (λ _ data w, (Ret data, w)) show
           (λ _, StageError "slice") (λ w, ("0", w)) (Ret ())
           (WorkflowExecutor nodes edges) "hello" () _ "in" "out"
           (_initialize_components (Ret ()) nodes []).2
           {| component_class_of := UserQueryComponent; component_node_id := "in";
              config := [("type", PStr "input")] |}
           {| component_class_of := OutputComponent; component_node_id := "out";
              config := [("type", PStr "output")] |}
           Hval Hord eq_refl eq_refl eq_refl eq_refl eq_refl).
Defined.

(** ** What [validate] does not look at, and what it reports *)

Lemma reversed_involutive e : reversed (reversed e) = e.
Proof. by destruct e. Qed.

Lemma tc_reversed edges x y :
  tc (edge_rel (reversed <$> edges)) x y → tc (edge_rel edges) y x.
Proof.
  induction 1 as [x y Hxy|x y z Hxy _ IH].
  - apply tc_once. unfold edge_rel in *.
    apply list_elem_of_fmap in Hxy as ([s t] & [= -> ->] & Hin). done.
  - eapply tc_r; [exact IH|]. unfold edge_rel in *.
    apply list_elem_of_fmap in Hxy as ([s t] & [= -> ->] & Hin). done.
Qed.

Lemma validate_reversed nodes edges msg :
  validate nodes edges = Ret (true, msg) →
  validate nodes (reversed <$> edges) = Ret (true, msg).
Proof.
  intros (-> & Hn & Hedges & Hty & Hcl & Hac & Hp & Hi & Ho)%validate_true_full.
  apply validate_valid; try done.
  - destruct (decide (1 < length nodes)) as [Hlen|]; [right | left; lia].
    specialize (Hedges Hlen). by destruct edges.
  - unfold endpoint_closed in *. apply Forall_fmap.
    eapply Forall_impl; [exact Hcl|]. intros e [? ?]. by split.
  - intros u Hu. apply (Hac u). by apply tc_reversed.
Qed.

(** X21: [validate] does not look at the direction of the connections: it
    accepts a graph exactly when it accepts the graph with every connection
    turned around.  So an accepted graph need not lead from the input stage
    to the output stage; its only connection may go from the output stage to
    the input stage. *)
Theorem validate_ignores_direction (nodes : list Node) (edges : list Edge)
    (msg : string) :
  validate nodes edges = Ret (true, msg)
  ↔ validate nodes (reversed <$> edges) = Ret (true, msg).
Proof.
  split; [apply validate_reversed|].
  intros H%validate_reversed. revert H.
  assert (reversed <$> (reversed <$> edges) = edges) as ->; [|done].
  induction edges as [|e edges IH]; [done|].
  csimpl. by rewrite IH, reversed_involutive.
Qed.

Lemma connections_loop_first (S : gset string) pre e post :
  Forall (λ e, source e ∈ S ∧ target e ∈ S) pre →
  ¬ (source e ∈ S ∧ target e ∈ S) →
  connections_loop S (pre ++ e :: post)
  = (false, if decide (source e ∈ S)
            then "Edge references non-existent target node: " +:+ target e
            else "Edge references non-existent source node: " +:+ source e).
Proof.
  intros Hpre He. induction Hpre as [|e' pre [Hs Ht] _ IH]; cbn [app connections_loop].
  - destruct (decide (source e ∈ S)) as [Hs|Hs].
    + rewrite bool_decide_eq_false_2 by (by intros ?).
      rewrite bool_decide_eq_true_2; [done|]. intros Ht. apply He. by split.
    + by rewrite bool_decide_eq_true_2.
  - rewrite !bool_decide_eq_false_2 by (by intros ?). done.
Qed.

(** X22: on a graph whose declared types are all recognized, a connection
    to or from an undeclared stage makes [validate] answer false with the
    message for the first such connection, naming its source if that is
    undeclared and its target otherwise; cycles, missing models and missing
    input or output stages are not reported then. *)
Theorem validate_reports_first_dangling_connection
    (nodes : list Node) (pre : list Edge) (e : Edge) (post : list Edge) :
  nodes ≠ [] →
  types_recognized nodes →
  endpoint_closed nodes pre →
  ¬ (source e ∈ ids nodes ∧ target e ∈ ids nodes) →
  validate nodes (pre ++ e :: post)
  = Ret (false,
         if decide (source e ∈ ids nodes)
         then "Edge references non-existent target node: " +:+ target e
         else "Edge references non-existent source node: " +:+ source e).
Proof.
  intros Hn Hty Hpre He. unfold validate.
  rewrite is_empty_false by done.
  rewrite (is_empty_false (pre ++ e :: post)) by (by destruct pre).
  rewrite andb_false_r.
  rewrite validate_node_types_ok by done. cbn [res_bind negb].
  unfold _validate_connections.
  rewrite (connections_loop_first _ pre e post).
  - cbn [negb]. f_equal. f_equal.
    destruct (decide (source e ∈ ids nodes)) as [Hs|Hs];
      destruct (decide (source e ∈ (list_to_set (node_id <$> nodes) : gset string)))
        as [Hs'|Hs']; try done.
    + exfalso. apply Hs'. by apply elem_of_list_to_set.
    + exfalso. apply Hs. by apply elem_of_list_to_set in Hs'.
  - eapply Forall_impl; [exact Hpre|]. intros e'. cbn beta.
    unfold ids. by rewrite !elem_of_list_to_set.
  - unfold ids in He. by rewrite !elem_of_list_to_set.
Qed.

(** X22, witness: the second connection leads to an undeclared stage. *)
Lemma validate_reports_first_dangling_connection_witness :
  let nodes := [stage "in" "input"; stage "out" "output"] in
  validate nodes ([connection "in" "out"] ++ connection "in" "ghost" :: [])
  = Ret (false, "Edge references non-existent target node: ghost").
Proof.
  intros nodes.
  apply (validate_reports_first_dangling_connection nodes
           [connection "in" "out"] (connection "in" "ghost") []).
  - done.
  - repeat constructor; by_evaluation.
  - repeat constructor; by_evaluation.
  - intros [_ H]. revert H. by_evaluation.
Defined.
